(** * post-stuffer: block-to-post extraction and the batch ingestion loop

    A shallow embedding of the Go program (config.go, utils.go,
    blockchain.go, database.go, the block processor and main.go) and the
    properties of its retry helper, its extraction pipeline and its
    ingestion loop.

    Conventions.
    - Go's [int], [int64] and [time.Duration] are 64-bit two's complement
      integers: they are carried by [Z] and every arithmetic operation is
      followed by [wrap64].
    - Go strings are byte sequences: [string] (a list of [ascii]).
    - The outside world (SQLite file, HTTP API, clock, log) is an explicit
      [World] value threaded through the code; what the outside answers
      is read from an oracle [Env] indexed by the number of interactions
      made so far.
    - A run-time panic is a result of its own ([Panic]). *)

From Stdlib Require Import ZArith List String Ascii Bool Lia.
From Stdlib Require Import SpecFloat DecimalString.
Import ListNotations.
Set Warnings "-register-all".
Local Open Scope string_scope.
Local Open Scope Z_scope.

(** ** Machine integers *)

Module GoInt.

Definition min_int64 : Z := - 2 ^ 63.
Definition max_int64 : Z := 2 ^ 63 - 1.
Definition max_int32 : Z := 2 ^ 31 - 1.
Definition min_int32 : Z := - 2 ^ 31.

(** Reduction of a mathematical integer to the value a 64-bit signed
    register holds. *)
Definition wrap64 (z : Z) : Z := (z + 2 ^ 63) mod 2 ^ 64 - 2 ^ 63.

Definition in_int64 (z : Z) : Prop := min_int64 <= z <= max_int64.
Definition in_int32 (z : Z) : Prop := min_int32 <= z <= max_int32.

Definition add (a b : Z) : Z := wrap64 (a + b).
Definition sub (a b : Z) : Z := wrap64 (a - b).
Definition mul (a b : Z) : Z := wrap64 (a * b).

(** [1 << uint(i)] at type int64: bits shifted past bit 63 are lost. *)
Definition shl1 (i : Z) : Z := wrap64 (Z.shiftl 1 i).

End GoInt.

Import GoInt.

(** ** Errors

    [fmt.Errorf] with the verb [%v] builds a fresh error from a format
    string and its arguments; the format string is kept as in the source
    and the arguments are kept unrendered. *)

Inductive num_err_kind := ErrSyntax | ErrRange.

Inductive error : Type :=
| ErrForeign (msg : string)
    (* an error handed back by a driver: sqlite, net/http, encoding/json *)
| NumError (func num : string) (kind : num_err_kind)
    (* *strconv.NumError *)
| Errorf (format : string) (args : list fmt_arg)
with fmt_arg : Type :=
| ArgInt (z : Z)
| ArgError (e : option error).   (* [None] is a nil error *)

(** ** strconv.ParseInt, for an explicit base in 2..36 and an explicit
    bit size (the only way the program calls it). *)

Module Strconv.

Definition lower (c : Z) : Z := Z.lor c 32.

(** The digit value of a byte, when it is a digit of the base. *)
Definition digit_of (base : Z) (c : ascii) : option Z :=
  let n := Z.of_nat (nat_of_ascii c) in
  let d :=
    if (48 <=? n) && (n <=? 57) then Some (n - 48)
    else if (97 <=? lower n) && (lower n <=? 122) then Some (lower n - 97 + 10)
    else None in
  match d with
  | Some d => if d <? base then Some d else None
  | None => None
  end.

Inductive uint_result := UOk (n : Z) | USyntax | URange.

(** The loop of ParseUint: it stops at the first bad byte with a syntax
    error and at the first overflow with a range error. *)
Fixpoint parse_digits (base maxVal : Z) (s : string) (n : Z) : uint_result :=
  match s with
  | EmptyString => UOk n
  | String c rest =>
      match digit_of base c with
      | None => USyntax
      | Some d =>
          let n1 := n * base + d in
          if maxVal <? n1 then URange else parse_digits base maxVal rest n1
      end
  end.

Definition ParseUint (s : string) (base bitSize : Z) : uint_result :=
  match s with
  | EmptyString => USyntax
  | _ => parse_digits base (2 ^ bitSize - 1) s 0
  end.

Definition ParseInt (s : string) (base bitSize : Z) : Z * option error :=
  match s with
  | EmptyString => (0, Some (NumError "ParseInt" s ErrSyntax))
  | String c rest =>
      let neg := Ascii.eqb c "-"%char in
      let body := if Ascii.eqb c "+"%char || neg then rest else s in
      let cutoff := 2 ^ (bitSize - 1) in
      match ParseUint body base bitSize with
      | USyntax => (0, Some (NumError "ParseInt" s ErrSyntax))
      | URange =>
          (* un = maxVal >= cutoff *)
          if neg then (- cutoff, Some (NumError "ParseInt" s ErrRange))
          else (cutoff - 1, Some (NumError "ParseInt" s ErrRange))
      | UOk un =>
          if negb neg && (cutoff <=? un)
          then (cutoff - 1, Some (NumError "ParseInt" s ErrRange))
          else if neg && (cutoff <? un)
          then (- cutoff, Some (NumError "ParseInt" s ErrRange))
          else (if neg then - un else un, None)
      end
  end.

End Strconv.


(** ** Data model (blockchain.go, config.go) *)

Record OperationValue := {
  Author : string;
  Title : string;
  Permlink : string;
  ParentAuthor : string;
  JsonMetadata : string
}.

Record Operation := {
  OpType : string;            (* field [Type], json "type" *)
  Value : OperationValue
}.

Record Transaction := { Operations : list Operation }.

Record Block := {
  BlockNum : string;          (* json "block_id" *)
  Timestamp : string;
  Transactions : list Transaction
}.

Record Config := {
  HiveAPIURL : string;
  GenesisBlock : Z;
  BatchSize : Z;
  DBPath : string;
  MaxRetries : Z;
  RetryDelay : Z              (* time.Duration, nanoseconds *)
}.

Definition Second : Z := 1000000000.

Definition DefaultConfig : Config := {|
  HiveAPIURL := "https://api.hive.blog";
  GenesisBlock := 41818753;
  BatchSize := 1000;
  DBPath := "blocks.db";
  MaxRetries := 3;
  RetryDelay := mul Second 2
|}.

(** ** float64

    IEEE 754 binary64 as specified by the standard library's [SpecFloat]
    (precision 53, maximal exponent 1024); all operations round to
    nearest, ties to even, as Go's do. *)

Module Float64.
Definition prec : Z := 53.
Definition emax : Z := 1024.
Definition t := spec_float.
Definition of_int (z : Z) : t := binary_normalize prec emax z 0 false.
Definition div (x y : t) : t := SFdiv prec emax x y.
Definition mul (x y : t) : t := SFmul prec emax x y.
Definition is_nan_or_inf (x : t) : bool :=
  match x with S754_nan | S754_infinity _ => true | _ => false end.
End Float64.

(** ** The posts table (database.go) and the SQL statements run on it *)

Record Row := {
  url : string;
  author : string;
  permlink : string;
  title : string;
  tags : string;
  block_num : Z;
  timestamp : string
}.

(** A table is its columns, the columns that carry a UNIQUE constraint,
    its indexes (the name of each and the column it is on, oldest first)
    and its rows, oldest first (the position of a row stands for [_id]). *)
Record Table := {
  columns : list string;
  uniques : list string;
  indexes : list (string * string);
  rows : list Row
}.

(** The log lines the program prints. Wall-clock durations and rates are
    left out of [LogProgress] and [LogComplete]. *)
Inductive LogLine :=
| LogAttemptFailed (attempt maxRetries : Z) (err : error) (delay : Z)
| LogStart (current last variance : Z)
| LogFetchError (err : error)
| LogBlockError (blockNum : string) (err : error)
| LogProgress (percentage : Float64.t) (startBlock : Z) (nblocks : nat)
              (batchInserts totalProcessed totalInserts : Z)
| LogComplete (totalProcessed totalInserts : Z).

(** What the outside answers. [sql_fault k] is the failure, if any, of the
    database call made as the [k]-th interaction; [api_head k] and
    [api_range k start count] are the API's answers to the requests made
    as the [k]-th interaction. *)
Record Env := {
  sql_fault : nat -> option error;
  api_head : nat -> error + Z;
  api_range : nat -> Z -> Z -> error + list Block
}.

Record World := {
  env : Env;
  tick : nat;                        (* interactions made so far *)
  db : option Table;                 (* the posts table of blocks.db *)
  slept : list Z;                    (* arguments of time.Sleep, in order *)
  logged : list LogLine;             (* log.Printf lines, in order *)
  requested : list (Z * Z);          (* get_block_range requests, in order *)
  executed : list Row                (* rows handed to stmt.Exec, in order *)
}.

Definition with_tick (w : World) : World :=
  {| env := env w; tick := S (tick w); db := db w; slept := slept w;
     logged := logged w; requested := requested w; executed := executed w |}.

Definition with_db (t : option Table) (w : World) : World :=
  {| env := env w; tick := tick w; db := t; slept := slept w;
     logged := logged w; requested := requested w; executed := executed w |}.

Definition sleep_world (d : Z) (w : World) : World :=
  {| env := env w; tick := tick w; db := db w; slept := slept w ++ [d];
     logged := logged w; requested := requested w; executed := executed w |}.

Definition log_world (l : LogLine) (w : World) : World :=
  {| env := env w; tick := tick w; db := db w; slept := slept w;
     logged := logged w ++ [l]; requested := requested w;
     executed := executed w |}.

Definition note_request (r : Z * Z) (w : World) : World :=
  {| env := env w; tick := tick w; db := db w; slept := slept w;
     logged := logged w; requested := requested w ++ [r];
     executed := executed w |}.

Definition note_exec (r : Row) (w : World) : World :=
  {| env := env w; tick := tick w; db := db w; slept := slept w;
     logged := logged w; requested := requested w;
     executed := executed w ++ [r] |}.

(** What [retryWithBackoff] needs from the state it runs in. *)
Class Runtime (St : Type) := {
  rt_sleep : Z -> St -> St;
  rt_log : LogLine -> St -> St
}.

#[export] Instance Runtime_World : Runtime World :=
  {| rt_sleep := sleep_world; rt_log := log_world |}.

(** A closure that assigns captured variables of type [A] runs in the
    world paired with those variables. *)
#[export] Instance Runtime_captured (St A : Type) `{Runtime St} : Runtime (St * A) :=
  {| rt_sleep := fun d s => (rt_sleep d (fst s), snd s);
     rt_log := fun l s => (rt_log l (fst s), snd s) |}.

(** ** utils.go *)

Section Retry.
Context {St : Type} `{Runtime St}.

Definition retry_exhausted (maxRetries : Z) (lastErr : option error) : error :=
  Errorf "operation failed after %d attempts. Last error: %v"
         [ArgInt maxRetries; ArgError lastErr].

(** The loop [for i := 0; i < maxRetries; i++]; [fuel] is the number of
    iterations left, [maxRetries - i]. *)
Fixpoint retry_loop (fuel : nat) (maxRetries retryDelay : Z)
         (operation : St -> St * option error)
         (i : Z) (lastErr : option error) (s : St) : St * option error :=
  match fuel with
  | O => (s, Some (retry_exhausted maxRetries lastErr))
  | S fuel' =>
      let (s1, r) := operation s in
      match r with
      | Some err =>
          let delay := mul retryDelay (shl1 i) in
          let s2 := rt_log (LogAttemptFailed (i + 1) maxRetries err delay) s1 in
          let s3 := rt_sleep delay s2 in
          retry_loop fuel' maxRetries retryDelay operation (i + 1) (Some err) s3
      | None => (s1, None)
      end
  end.

Definition retryWithBackoff (maxRetries retryDelay : Z)
           (operation : St -> St * option error) (s : St) : St * option error :=
  retry_loop (Z.to_nat maxRetries) maxRetries retryDelay operation 0 None s.

End Retry.

Definition constructAuthorPerm (author permlink : string) : string :=
  "@" ++ author ++ "/" ++ permlink.

(** ** database.go *)

Definition posts_columns : list string :=
  ["_id"; "url"; "author"; "permlink"; "title"; "json_metadata";
   "block_num"; "timestamp"].

(** [CREATE TABLE IF NOT EXISTS posts (...)]: an existing table is kept as
    it is; [_id] is the primary key and [url] is declared UNIQUE. *)
Definition create_posts_table (t : option Table) : option Table :=
  match t with
  | Some t => Some t
  | None => Some {| columns := posts_columns; uniques := ["_id"; "url"];
                    indexes := []; rows := [] |}
  end.

Definition has_column (t : Table) (c : string) : bool :=
  existsb (String.eqb c) (columns t).

Definition has_index (t : Table) (name : string) : bool :=
  existsb (fun i => String.eqb (fst i) name) (indexes t).

(** [CREATE INDEX IF NOT EXISTS name ON posts(col)]: with an index of that
    name the statement does nothing, and the column is not looked at;
    otherwise the column has to be one of the table. *)
Definition create_index (name col : string) (t : option Table) : error + option Table :=
  match t with
  | None => inl (ErrForeign "no such table: main.posts")
  | Some t =>
      if has_index t name then inr (Some t)
      else if has_column t col
           then inr (Some {| columns := columns t; uniques := uniques t;
                             indexes := indexes t ++ [(name, col)];
                             rows := rows t |})
           else inl (ErrForeign ("no such column: " ++ col))
  end.

(** The statements of [createTableSQL]. *)
Inductive SchemaStmt :=
| CreateTable
| CreateIndex (name col : string).

Definition createTableSQL : list SchemaStmt :=
  [CreateTable;
   CreateIndex "idx_block_num" "block_num";
   CreateIndex "idx_author" "author"].

(** One statement of the script, which is one call of the database. *)
Definition exec_schema_stmt (s : SchemaStmt) (w : World) : World * option error :=
  let k := tick w in
  let w1 := with_tick w in
  match sql_fault (env w) k with
  | Some e => (w1, Some e)
  | None =>
      match s with
      | CreateTable => (with_db (create_posts_table (db w1)) w1, None)
      | CreateIndex name col =>
          match create_index name col (db w1) with
          | inl e => (w1, Some e)
          | inr t => (with_db t w1, None)
          end
      end
  end.

(** [db.Exec] on a script: the driver prepares and runs the statements
    one by one, each committed on its own, and returns at the first that
    fails; what the statements before it did stays. *)
Fixpoint db_Exec_script (stmts : list SchemaStmt) (w : World) : World * option error :=
  match stmts with
  | [] => (w, None)
  | s :: rest =>
      match exec_schema_stmt s w with
      | (w1, Some e) => (w1, Some e)
      | (w1, None) => db_Exec_script rest w1
      end
  end.

(** [sql.Open] only records the driver and the file name; the first
    statement that reaches the file is the first of the [db.Exec] of the
    schema. *)
Definition initDB (w : World) : World * option error :=
  match db_Exec_script createTableSQL w with
  | (w1, Some e) => (w1, Some (Errorf "error creating table: %v" [ArgError (Some e)]))
  | (w1, None) => (w1, None)
  end.

Fixpoint max_block_num (rs : list Row) : option Z :=
  match rs with
  | [] => None
  | r :: rest =>
      match max_block_num rest with
      | None => Some (block_num r)
      | Some m => Some (Z.max (block_num r) m)
      end
  end.

(** [SELECT MAX(block_num) FROM posts] scanned into a [sql.NullInt64]. *)
Definition getLastProcessedBlock (genesisBlock : Z) (w : World)
  : World * (Z * option error) :=
  let k := tick w in
  let w1 := with_tick w in
  match sql_fault (env w) k with
  | Some e => (w1, (0, Some e))
  | None =>
      match db w1 with
      | None => (w1, (0, Some (ErrForeign "no such table: posts")))
      | Some t =>
          if negb (has_column t "block_num")
          then (w1, (0, Some (ErrForeign "no such column: block_num")))
          else
            match max_block_num (rows t) with
            | None => (w1, (genesisBlock, None))          (* !blockNum.Valid *)
            | Some m => (w1, (m, None))
            end
      end
  end.

(** ** blockchain.go: the two API calls *)

Definition getLatestBlock (config : Config) (w : World) : World * (Z * option error) :=
  let k := tick w in
  let w1 := with_tick w in
  match api_head (env w) k with
  | inl e => (w1, (0, Some e))
  | inr h => (w1, (h, None))
  end.

Definition getBlockRange (config : Config) (startBlock count : Z) (w : World)
  : World * (list Block * option error) :=
  let k := tick w in
  let w1 := with_tick (note_request (startBlock, count) w) in
  match api_range (env w) k startBlock count with
  | inl e => (w1, ([], Some e))
  | inr bs => (w1, (bs, None))
  end.

(** ** The Go library calls of the metadata normalization

    A value of type [interface{}] as [json.Unmarshal] builds it. *)
Inductive iface :=
| INil
| IBool (b : bool)
| IFloat64 (f : Float64.t)
| IString (s : string)
| ISlice (l : list iface)
| IMap (m : list (string * iface)).

(** The three library functions the normalization calls.
    [json_Unmarshal_tags data] is the pair of the field [Tags] of the
    anonymous struct [struct { Tags interface{} `json:"tags"` }] after
    [json.Unmarshal(data, &metadata)] on a zero struct, and of the error
    returned; [json_Marshal] is [json.Marshal] on a [[]interface{}];
    [strconv_Quote] is what the verb [%q] prints for a string. *)
Record GoLib := {
  json_Unmarshal_tags : string -> iface * option error;
  json_Marshal : list iface -> string * option error;
  strconv_Quote : string -> string
}.

(** ** The block processor *)

Record Stmt := {
  stmt_columns : list string;
  stmt_conflict : string
}.

Record BlockProcessor := {
  bp_config : Config;
  bp_stmt : Stmt
}.

Definition insert_columns : list string :=
  ["url"; "author"; "permlink"; "title"; "tags"; "block_num"; "timestamp"].

(** [db.Prepare] of [INSERT INTO posts (cols) VALUES (?, ...) ON
    CONFLICT(target) DO NOTHING]: SQLite compiles the statement against
    the schema and refuses an unknown table, an unknown column and a
    conflict target without a uniqueness constraint. *)
Definition db_Prepare (cols : list string) (target : string) (w : World)
  : World * (error + Stmt) :=
  let k := tick w in
  let w1 := with_tick w in
  match sql_fault (env w) k with
  | Some e => (w1, inl e)
  | None =>
      match db w1 with
      | None => (w1, inl (ErrForeign "no such table: posts"))
      | Some t =>
          match find (fun c => negb (has_column t c)) cols with
          | Some c => (w1, inl (ErrForeign ("table posts has no column named " ++ c)))
          | None =>
              if existsb (String.eqb target) (uniques t)
              then (w1, inr {| stmt_columns := cols; stmt_conflict := target |})
              else (w1, inl (ErrForeign
                     "ON CONFLICT clause does not match any PRIMARY KEY or UNIQUE constraint"))
          end
      end
  end.

Definition NewBlockProcessor (config : Config) (w : World)
  : World * (error + BlockProcessor) :=
  let (w1, r) := db_Prepare insert_columns "url" w in
  match r with
  | inl err => (w1, inl (Errorf "error preparing statement: %v" [ArgError (Some err)]))
  | inr stmt => (w1, inr {| bp_config := config; bp_stmt := stmt |})
  end.

Definition has_url (u : string) (rs : list Row) : bool :=
  existsb (fun r => String.eqb (url r) u) rs.

(** [INSERT ... ON CONFLICT(url) DO NOTHING] on the rows of the table. *)
Definition insert_or_ignore (r : Row) (t : Table) : Table :=
  if has_url (url r) (rows t) then t
  else {| columns := columns t; uniques := uniques t; indexes := indexes t;
          rows := rows t ++ [r] |}.

(** [stmt.Exec] of the prepared insert with the seven bound values. *)
Definition stmt_Exec (stmt : Stmt) (r : Row) (w : World) : World * option error :=
  let k := tick w in
  let w1 := with_tick (note_exec r w) in
  match sql_fault (env w) k with
  | Some e => (w1, Some e)
  | None =>
      match db w1 with
      | None => (w1, Some (ErrForeign "no such table: posts"))
      | Some t => (with_db (Some (insert_or_ignore r t)) w1, None)
      end
  end.

(** A call either returns or panics. *)
Inductive Outcome (A : Type) :=
| Returned (a : A) (w : World)
| Panicked (msg : string) (w : World).
Arguments Returned {A} a w.
Arguments Panicked {A} msg w.

(** [s[:8]] on a string: the first eight bytes, or a panic. *)
Definition slice_to_8 (s : string) : option string :=
  if (String.length s <? 8)%nat then None else Some (substring 0 8 s).

Section Processor.
Variable lib : GoLib.

(** Lines 86-114 of the processor: the JSON text stored in [tags]. *)
Definition tagsJson_of (jsonMetadata : string) : string :=
  if String.eqb jsonMetadata "" then "[]"
  else
    let (tags0, err) := json_Unmarshal_tags lib jsonMetadata in
    let metadata_Tags :=
      match err with
      | Some _ => IString jsonMetadata
      | None => tags0
      end in
    match metadata_Tags with
    | IString v => "[" ++ strconv_Quote lib v ++ "]"
    | ISlice v =>
        let (tagsBytes, err) := json_Marshal lib v in
        match err with
        | None => tagsBytes
        | Some _ => "[]"
        end
    | _ => "[]"
    end.

Definition row_of (blockNum : Z) (block : Block) (value : OperationValue) : Row :=
  {| url := constructAuthorPerm (Author value) (Permlink value);
     author := Author value;
     permlink := Permlink value;
     title := Title value;
     tags := tagsJson_of (JsonMetadata value);
     block_num := blockNum;
     timestamp := Timestamp block |}.

(** The inner loop [for _, op := range tx.Operations]; an insert that
    fails after its retries returns from [processBlock]. *)
Fixpoint process_ops (bp : BlockProcessor) (block : Block) (blockNum : Z)
         (ops : list Operation) (processedCount : Z) (w : World)
  : World * (Z * option error) :=
  match ops with
  | [] => (w, (processedCount, None))
  | op :: rest =>
      if negb (String.eqb (OpType op) "comment_operation")
      then process_ops bp block blockNum rest processedCount w
      else
        let value := Value op in
        if negb (String.eqb (ParentAuthor value) "")
        then process_ops bp block blockNum rest processedCount w
        else
          let (w1, err) :=
            retryWithBackoff (MaxRetries (bp_config bp)) (RetryDelay (bp_config bp))
              (stmt_Exec (bp_stmt bp) (row_of blockNum block value)) w in
          match err with
          | Some e =>
              (w1, (processedCount,
                    Some (Errorf "error inserting post: %v" [ArgError (Some e)])))
          | None =>
              process_ops bp block blockNum rest (add processedCount 1) w1
          end
  end.

(** The outer loop [for _, tx := range block.Transactions]. *)
Fixpoint process_txs (bp : BlockProcessor) (block : Block) (blockNum : Z)
         (txs : list Transaction) (processedCount : Z) (w : World)
  : World * (Z * option error) :=
  match txs with
  | [] => (w, (processedCount, None))
  | tx :: rest =>
      let '(w1, (n, err)) :=
        process_ops bp block blockNum (Operations tx) processedCount w in
      match err with
      | Some e => (w1, (n, Some e))
      | None => process_txs bp block blockNum rest n w1
      end
  end.

Definition processBlock (bp : BlockProcessor) (block : Block) (w : World)
  : Outcome (Z * option error) :=
  match slice_to_8 (BlockNum block) with
  | None => Panicked "slice bounds out of range" w
  | Some hexBlockNum =>
      let (blockNum, err) := Strconv.ParseInt hexBlockNum 16 32 in
      match err with
      | Some e =>
          Returned (0, Some (Errorf "error converting block number from hex: %v"
                                    [ArgError (Some e)])) w
      | None =>
          let (w1, r) := process_txs bp block blockNum (Transactions block) 0 w in
          Returned r w1
      end
  end.

End Processor.

(** ** main.go *)

(** The variables of [main] that the batch loop updates. *)
Record LoopState := {
  lastProcessed : Z;
  variance : Z;
  totalProcessed : Z;
  totalInserts : Z
}.

(** How a run of [main] stands: it returned, it died in a panic, it
    stopped in [log.Fatal], or its batch loop is still going round when the
    observation ends. *)
Inductive Run :=
| Finished (st : LoopState) (w : World)
| Crashed (msg : string) (w : World)
| Fatal (prefix : string) (err : error) (w : World)
| Looping (st : LoopState) (w : World).

Definition percentage_of (lastProcessed genesisBlock currentBlock : Z) : Float64.t :=
  Float64.mul
    (Float64.div (Float64.of_int (sub lastProcessed genesisBlock))
                 (Float64.of_int (sub currentBlock genesisBlock)))
    (Float64.of_int 100).

Section Main.
Variable lib : GoLib.

(** The loop [for _, block := range blocks] of one batch; the three
    integers are [lastProcessed], [batchInserts] and [totalProcessed]. *)
Fixpoint process_blocks (processor : BlockProcessor) (blocks : list Block)
         (lastProcessed batchInserts totalProcessed : Z) (w : World)
  : Outcome (Z * Z * Z) :=
  match blocks with
  | [] => Returned (lastProcessed, batchInserts, totalProcessed) w
  | block :: rest =>
      if String.eqb (BlockNum block) "0"
      then process_blocks processor rest lastProcessed batchInserts totalProcessed w
      else
        match processBlock lib processor block w with
        | Panicked msg w1 => Panicked msg w1
        | Returned (insertCount, Some err) w1 =>
            process_blocks processor rest lastProcessed batchInserts totalProcessed
              (log_world (LogBlockError (BlockNum block) err) w1)
        | Returned (insertCount, None) w1 =>
            (* Update progress tracking *)
            match slice_to_8 (BlockNum block) with
            | None => Panicked "slice bounds out of range" w1
            | Some hexBlockNum =>
                let (blockNum, _) := Strconv.ParseInt hexBlockNum 16 32 in
                process_blocks processor rest blockNum
                  (add batchInserts insertCount) (add totalProcessed 1) w1
            end
        end
  end.

(** The range of one batch: [startBlock] and [count]. *)
Definition batch_range (config : Config) (currentBlock lastProcessed : Z) : Z * Z :=
  let startBlock := add lastProcessed 1 in
  let count := BatchSize config in
  let count :=
    if add startBlock count >? currentBlock
    then add (sub currentBlock startBlock) 1
    else count in
  (startBlock, count).

(** The closure handed to [retryWithBackoff] for the fetch; it assigns
    the captured variable [blocks]. *)
Definition fetch_operation (config : Config) (startBlock count : Z)
           (s : World * list Block) : (World * list Block) * option error :=
  let '(w1, (blocks, err)) := getBlockRange config startBlock count (fst s) in
  ((w1, blocks), err).

(** One round of [for variance > 0 { ... }]. *)
Definition main_iter (config : Config) (processor : BlockProcessor)
           (currentBlock : Z) (st : LoopState) (w : World) : Outcome LoopState :=
  let (startBlock, count) := batch_range config currentBlock (lastProcessed st) in
  let '((w1, blocks), err) :=
    retryWithBackoff (MaxRetries config) (RetryDelay config)
      (fetch_operation config startBlock count) (w, []) in
  match err with
  | Some e => Returned st (log_world (LogFetchError e) w1)     (* continue *)
  | None =>
      match process_blocks processor blocks (lastProcessed st) 0 (totalProcessed st) w1 with
      | Panicked msg w2 => Panicked msg w2
      | Returned (lastProcessed', batchInserts, totalProcessed') w2 =>
          let totalInserts' := add (totalInserts st) batchInserts in
          let percentage :=
            percentage_of lastProcessed' (GenesisBlock config) currentBlock in
          let w3 :=
            log_world (LogProgress percentage startBlock (List.length blocks)
                                   batchInserts totalProcessed' totalInserts') w2 in
          Returned {| lastProcessed := lastProcessed';
                      variance := sub currentBlock lastProcessed';
                      totalProcessed := totalProcessed';
                      totalInserts := totalInserts' |} w3
      end
  end.

(** The batch loop, observed for at most [fuel] rounds. *)
Fixpoint main_loop (fuel : nat) (config : Config) (processor : BlockProcessor)
         (currentBlock : Z) (st : LoopState) (w : World) : Run :=
  if variance st >? 0 then
    match fuel with
    | O => Looping st w
    | S fuel' =>
        match main_iter config processor currentBlock st w with
        | Panicked msg w1 => Crashed msg w1
        | Returned st1 w1 => main_loop fuel' config processor currentBlock st1 w1
        end
    end
  else
    Finished st (log_world (LogComplete (totalProcessed st) (totalInserts st)) w).

(** The closure that reads the chain head and the resume height; it
    assigns the captured variables [currentBlock] and [lastProcessed]. *)
Definition bootstrap_operation (config : Config) (s : World * (Z * Z))
  : (World * (Z * Z)) * option error :=
  let '(w, (_, lastProcessed0)) := s in
  let '(w1, (currentBlock, err)) := getLatestBlock config w in
  match err with
  | Some e =>
      ((w1, (currentBlock, lastProcessed0)),
       Some (Errorf "error getting latest block: %v" [ArgError (Some e)]))
  | None =>
      let '(w2, (lastProcessed1, err)) :=
        getLastProcessedBlock (GenesisBlock config) w1 in
      match err with
      | Some e =>
          ((w2, (currentBlock, lastProcessed1)),
           Some (Errorf "error getting last processed block: %v" [ArgError (Some e)]))
      | None => ((w2, (currentBlock, lastProcessed1)), None)
      end
  end.

(** The state in which the batch loop is entered, from the two values
    the bootstrap read. *)
Definition initial_state (config : Config) (currentBlock lastProcessed0 : Z)
  : LoopState :=
  (* Initialize lastProcessed to genesisBlock if it is 0 *)
  let lastProcessed1 :=
    if lastProcessed0 =? 0 then GenesisBlock config else lastProcessed0 in
  {| lastProcessed := lastProcessed1;
     variance := sub currentBlock lastProcessed1;
     totalProcessed := 0;
     totalInserts := 0 |}.

(** [main] after [config := DefaultConfig()]. *)
Definition run (config : Config) (fuel : nat) (w : World) : Run :=
  let (w1, err) :=
    retryWithBackoff (MaxRetries config) (RetryDelay config) initDB w in
  match err with
  | Some e => Fatal "Error initializing database:" e w1
  | None =>
      let (w2, r) := NewBlockProcessor config w1 in
      match r with
      | inl e => Fatal "Error creating block processor:" e w2
      | inr processor =>
          let '((w3, (currentBlock, lastProcessed0)), err) :=
            retryWithBackoff (MaxRetries config) (RetryDelay config)
              (bootstrap_operation config) (w2, (0, 0)) in
          match err with
          | Some e => Fatal "" e w3
          | None =>
              let st := initial_state config currentBlock lastProcessed0 in
              let w4 :=
                log_world (LogStart currentBlock (lastProcessed st) (variance st)) w3 in
              main_loop fuel config processor currentBlock st w4
          end
      end
  end.

Definition main (fuel : nat) (w : World) : Run := run DefaultConfig fuel w.

End Main.

(** ** An executable instance of the library calls

    [RefLib.lib] implements the three calls of [GoLib] for texts of
    printable ASCII whose numbers are integers below 2^53; it is what the
    examples of the specification are run with. The theorems on the
    program are stated for every [GoLib]. *)

Module RefLib.

Definition hex_digit (n : Z) : ascii :=
  ascii_of_nat (Z.to_nat (if n <? 10 then 48 + n else 87 + n)).

Definition hex2 (n : Z) : string :=
  String (hex_digit (n / 16)) (String (hex_digit (n mod 16)) "").

Definition code (c : ascii) : Z := Z.of_nat (nat_of_ascii c).

(** The one-character string holding a double quote. *)
Definition dquote : string := String (ascii_of_nat 34) "".

(** strconv.Quote, byte by byte. *)
Definition quote_byte (c : ascii) : string :=
  let n := code c in
  if n =? 34 then "\" ++ dquote
  else if n =? 92 then "\\"
  else if n =? 7 then "\a" else if n =? 8 then "\b" else if n =? 12 then "\f"
  else if n =? 10 then "\n" else if n =? 13 then "\r" else if n =? 9 then "\t"
  else if n =? 11 then "\v"
  else if (n <? 32) || (126 <? n) then "\x" ++ hex2 n
  else String c "".

Fixpoint quote_body (s : string) : string :=
  match s with
  | EmptyString => ""
  | String c rest => quote_byte c ++ quote_body rest
  end.

Definition Quote (s : string) : string := dquote ++ quote_body s ++ dquote.

(** json.Marshal of a string (HTML-safe escaping). *)
Definition json_quote_byte (c : ascii) : string :=
  let n := code c in
  if n =? 34 then "\" ++ dquote
  else if n =? 92 then "\\"
  else if n =? 10 then "\n" else if n =? 13 then "\r" else if n =? 9 then "\t"
  else if n =? 8 then "\b" else if n =? 12 then "\f"
  else if (n <? 32) || (n =? 60) || (n =? 62) || (n =? 38) then "\u00" ++ hex2 n
  else String c "".

Fixpoint json_quote_body (s : string) : string :=
  match s with
  | EmptyString => ""
  | String c rest => json_quote_byte c ++ json_quote_body rest
  end.

(** The integer a float64 holds, when it holds one. *)
Definition int_of_float (f : Float64.t) : option Z :=
  match f with
  | S754_zero _ => Some 0
  | S754_finite sg m e =>
      let v :=
        if 0 <=? e then Some (Z.pos m * 2 ^ e)
        else if Z.pos m mod 2 ^ (- e) =? 0 then Some (Z.pos m / 2 ^ (- e))
        else None in
      match v with
      | Some v => Some (if sg then - v else v)
      | None => None
      end
  | _ => None
  end.

Definition decimal (z : Z) : string := NilZero.string_of_int (Z.to_int z).

Fixpoint join (sep : string) (l : list string) : string :=
  match l with
  | [] => ""
  | [x] => x
  | x :: rest => x ++ sep ++ join sep rest
  end.

Fixpoint map_put (k : string) (v : iface) (m : list (string * iface))
  : list (string * iface) :=
  match m with
  | [] => [(k, v)]
  | (k', v') :: rest =>
      if String.eqb k k' then (k, v) :: rest
      else if String.ltb k k' then (k, v) :: m
      else (k', v') :: map_put k v rest
  end.

Definition opt_all (l : list (option string)) : option (list string) :=
  fold_right (fun x acc =>
                match x, acc with
                | Some x, Some acc => Some (x :: acc)
                | _, _ => None
                end) (Some []) l.

Fixpoint marshal_value (v : iface) : option string :=
  match v with
  | INil => Some "null"
  | IBool b => Some (if b then "true" else "false")
  | IFloat64 (S754_zero true) => Some "-0"
  | IFloat64 f =>
      match int_of_float f with
      | Some z => if Z.abs z <? 2 ^ 53 then Some (decimal z) else None
      | None => None
      end
  | IString s => Some (dquote ++ json_quote_body s ++ dquote)
  | ISlice l =>
      match opt_all (map marshal_value l) with
      | Some parts => Some ("[" ++ join "," parts ++ "]")
      | None => None
      end
  | IMap m =>
      match opt_all (map (fun kv =>
                            match marshal_value (snd kv) with
                            | Some t => Some (dquote ++ json_quote_body (fst kv)
                                                     ++ dquote ++ ":" ++ t)
                            | None => None
                            end) m) with
      | Some parts => Some ("{" ++ join "," parts ++ "}")
      | None => None
      end
  end.

Definition Marshal (l : list iface) : string * option error :=
  match marshal_value (ISlice l) with
  | Some t => (t, None)
  | None => ("", Some (ErrForeign "json: number outside the instance"))
  end.

(** *** Decoding *)

Definition is_ws (c : ascii) : bool :=
  let n := code c in (n =? 32) || (n =? 9) || (n =? 10) || (n =? 13).

Fixpoint skip_ws (s : string) : string :=
  match s with
  | String c rest => if is_ws c then skip_ws rest else s
  | EmptyString => s
  end.

Definition unescape (c : ascii) : option ascii :=
  let n := code c in
  if (n =? 34) || (n =? 92) || (n =? 47) then Some c
  else if n =? 98 then Some (ascii_of_nat 8)
  else if n =? 102 then Some (ascii_of_nat 12)
  else if n =? 110 then Some (ascii_of_nat 10)
  else if n =? 114 then Some (ascii_of_nat 13)
  else if n =? 116 then Some (ascii_of_nat 9)
  else None.

(** The text of a string literal after its opening quote. *)
Fixpoint str_body (s : string) : option (string * string) :=
  match s with
  | EmptyString => None
  | String c rest =>
      let n := code c in
      if n =? 34 then Some ("", rest)
      else if n =? 92 then
        match rest with
        | String e rest' =>
            match unescape e, str_body rest' with
            | Some c', Some (v, tl) => Some (String c' v, tl)
            | _, _ => None
            end
        | EmptyString => None
        end
      else if (n <? 32) || (126 <? n) then None
      else match str_body rest with
           | Some (v, tl) => Some (String c v, tl)
           | None => None
           end
  end.

Definition is_digit (c : ascii) : bool := (48 <=? code c) && (code c <=? 57).

Fixpoint digits (s : string) (acc : Z) : Z * string :=
  match s with
  | String c rest => if is_digit c then digits rest (acc * 10 + (code c - 48)) else (acc, s)
  | EmptyString => (acc, s)
  end.

(** An integer literal of JSON; a fraction or an exponent is outside the
    instance. *)
Definition number (s : string) : option (iface * string) :=
  let (neg, body) :=
    match s with
    | String c rest => if code c =? 45 then (true, rest) else (false, s)
    | EmptyString => (false, s)
    end in
  match body with
  | String c rest =>
      if negb (is_digit c) then None
      else
        let (n, tl) := if code c =? 48 then (0, rest) else digits body 0 in
        match tl with
        | String d _ =>
            if is_digit d || (code d =? 46) || (code d =? 101) || (code d =? 69)
            then None
            else if 2 ^ 53 <=? n then None
            else Some (IFloat64 (if neg && (n =? 0) then S754_zero true
                                 else Float64.of_int (if neg then - n else n)), tl)
        | EmptyString =>
            if 2 ^ 53 <=? n then None
            else Some (IFloat64 (if neg && (n =? 0) then S754_zero true
                                 else Float64.of_int (if neg then - n else n)), tl)
        end
  | EmptyString => None
  end.

Definition literal (word : string) (v : iface) (s : string) : option (iface * string) :=
  if String.prefix word s
  then Some (v, substring (String.length word) (String.length s - String.length word) s)
  else None.

Fixpoint value (fuel : nat) (s : string) : option (iface * string) :=
  match fuel with
  | O => None
  | S fuel' =>
      match skip_ws s with
      | EmptyString => None
      | String c rest =>
          let n := code c in
          if n =? 34 then
            match str_body rest with
            | Some (v, tl) => Some (IString v, tl)
            | None => None
            end
          else if n =? 91 then
            match skip_ws rest with
            | String c' tl =>
                if code c' =? 93 then Some (ISlice [], tl)
                else match elements fuel' rest with
                     | Some (l, tl) => Some (ISlice l, tl)
                     | None => None
                     end
            | EmptyString => None
            end
          else if n =? 123 then
            match skip_ws rest with
            | String c' tl =>
                if code c' =? 125 then Some (IMap [], tl)
                else match members fuel' rest with
                     | Some (m, tl) => Some (IMap m, tl)
                     | None => None
                     end
            | EmptyString => None
            end
          else if n =? 116 then literal "true" (IBool true) (String c rest)
          else if n =? 102 then literal "false" (IBool false) (String c rest)
          else if n =? 110 then literal "null" INil (String c rest)
          else number (String c rest)
      end
  end
with elements (fuel : nat) (s : string) : option (list iface * string) :=
  match fuel with
  | O => None
  | S fuel' =>
      match value fuel' s with
      | Some (v, tl) =>
          match skip_ws tl with
          | String c tl' =>
              if code c =? 93 then Some ([v], tl')
              else if code c =? 44 then
                match elements fuel' tl' with
                | Some (l, tl'') => Some (v :: l, tl'')
                | None => None
                end
              else None
          | EmptyString => None
          end
      | None => None
      end
  end
with members (fuel : nat) (s : string) : option (list (string * iface) * string) :=
  match fuel with
  | O => None
  | S fuel' =>
      match skip_ws s with
      | String q rest =>
          if code q =? 34 then
            match str_body rest with
            | Some (k, tl) =>
                match skip_ws tl with
                | String colon tl1 =>
                    if code colon =? 58 then
                      match value fuel' tl1 with
                      | Some (v, tl2) =>
                          match skip_ws tl2 with
                          | String c tl3 =>
                              if code c =? 125 then Some ([(k, v)], tl3)
                              else if code c =? 44 then
                                match members fuel' tl3 with
                                | Some (m, tl4) => Some ((k, v) :: m, tl4)
                                | None => None
                                end
                              else None
                          | EmptyString => None
                          end
                      | None => None
                      end
                    else None
                | EmptyString => None
                end
            | None => None
            end
          else None
      | EmptyString => None
      end
  end.

Definition to_lower (c : ascii) : ascii :=
  let n := code c in
  if (65 <=? n) && (n <=? 90) then ascii_of_nat (Z.to_nat (n + 32)) else c.

Fixpoint fold_lower (s : string) : string :=
  match s with
  | EmptyString => ""
  | String c rest => String (to_lower c) (fold_lower rest)
  end.

(** The members of a decoded object in a map, as [interface{}] holds
    them: one value per key, the last one. *)
Fixpoint to_map (v : iface) : iface :=
  match v with
  | ISlice l => ISlice (map to_map l)
  | IMap m => IMap (fold_left (fun acc kv => map_put (fst kv) (to_map (snd kv)) acc) m [])
  | _ => v
  end.

(** The field [Tags] after the object's members were assigned in order:
    a key matches the field [tags] exactly or under case folding. *)
Definition field_tags (m : list (string * iface)) : iface :=
  fold_left (fun acc kv =>
               if String.eqb (fold_lower (fst kv)) "tags" then to_map (snd kv) else acc)
            m INil.

Definition Unmarshal_tags (data : string) : iface * option error :=
  match value (S (String.length data)) data with
  | Some (v, tl) =>
      match skip_ws tl with
      | EmptyString =>
          match v with
          | IMap m => (field_tags m, None)
          | INil => (INil, None)
          | _ => (INil, Some (ErrForeign
                    "json: cannot unmarshal value into Go value of type struct"))
          end
      | _ => (INil, Some (ErrForeign "invalid character after top-level value"))
      end
  | None => (INil, Some (ErrForeign "invalid character"))
  end.

Definition lib : GoLib := {|
  json_Unmarshal_tags := Unmarshal_tags;
  json_Marshal := Marshal;
  strconv_Quote := Quote
|}.

End RefLib.


(** ** Notions the properties are stated with *)

(** *** Observing [retryWithBackoff]

    The operation is run under an observer that notes each invocation with
    its result, and each sleep with its duration. *)
Inductive retry_event :=
| Invoked (r : option error)
| Slept (d : Z).

Record Observed (St : Type) := {
  obs_state : St;
  obs_trace : list retry_event
}.
Arguments obs_state {St} o.
Arguments obs_trace {St} o.

#[export] Instance Runtime_Observed (St : Type) `{Runtime St} : Runtime (Observed St) :=
  {| rt_sleep := fun d o =>
       {| obs_state := rt_sleep d (obs_state o);
          obs_trace := obs_trace o ++ [Slept d] |};
     rt_log := fun l o =>
       {| obs_state := rt_log l (obs_state o); obs_trace := obs_trace o |} |}.

Definition observe {St : Type} (operation : St -> St * option error)
           (o : Observed St) : Observed St * option error :=
  let (s1, r) := operation (obs_state o) in
  ({| obs_state := s1; obs_trace := obs_trace o ++ [Invoked r] |}, r).

(** The events of failed attempts number [i], [i+1], ... with the errors
    [errs], each followed by its wait of [d * 2^i]. *)
Fixpoint failed_attempts (d : Z) (errs : list error) (i : Z) : list retry_event :=
  match errs with
  | [] => []
  | e :: rest => Invoked (Some e) :: Slept (d * 2 ^ i) :: failed_attempts d rest (i + 1)
  end.

(** *** Operations of a block *)

Definition all_operations (block : Block) : list Operation :=
  flat_map Operations (Transactions block).

(** The operations the processor stores a post for. *)
Definition is_top_level_post (op : Operation) : bool :=
  String.eqb (OpType op) "comment_operation" &&
  String.eqb (ParentAuthor (Value op)) "".


(** The height a block identifier carries, when it carries one. *)
Definition block_height (block : Block) : option Z :=
  match slice_to_8 (BlockNum block) with
  | None => None
  | Some hexBlockNum =>
      match Strconv.ParseInt hexBlockNum 16 32 with
      | (h, None) => Some h
      | (_, Some _) => None
      end
  end.

Definition no_sql_fault (e : Env) : Prop := forall k, sql_fault e k = None.

(** The blocks of [bs] that carry a height carry the consecutive heights
    [s], [s+1], ... of their positions. *)
Fixpoint ascending_from (s : Z) (bs : list Block) : bool :=
  match bs with
  | [] => true
  | b :: rest =>
      match block_height b with
      | Some h => h =? s
      | None => true
      end && ascending_from (s + 1) rest
  end.

(** The contract of the range request: the answer to a request that
    starts at [s] is made of the blocks at [s], [s+1], ... *)
Definition honest_api (e : Env) : Prop :=
  forall k s c bs, api_range e k s c = inr bs -> ascending_from s bs = true.

(** The part of the world the database calls never touch. *)
Definition same_frame (w w' : World) : Prop :=
  env w' = env w /\ requested w' = requested w.

Definition outcome_world {A : Type} (o : Outcome A) : World :=
  match o with
  | Returned _ w => w
  | Panicked _ w => w
  end.

Definition run_world (r : Run) : World :=
  match r with
  | Finished _ w | Crashed _ w | Fatal _ _ w | Looping _ w => w
  end.

(** *** The store and the posts of a block *)

(** The indexes of the schema. *)
Definition schema_indexes : list (string * string) :=
  [("idx_block_num", "block_num"); ("idx_author", "author")].

(** The table [initDB] creates when there is none. *)
Definition fresh_schema : Table :=
  {| columns := posts_columns; uniques := ["_id"; "url"];
     indexes := schema_indexes; rows := [] |}.

(** A table once the index statements of the schema went through. *)
Definition add_index (name col : string) (t : Table) : Table :=
  if has_index t name then t
  else {| columns := columns t; uniques := uniques t;
          indexes := indexes t ++ [(name, col)]; rows := rows t |}.

Definition with_schema_indexes (t : Table) : Table :=
  add_index "idx_author" "author" (add_index "idx_block_num" "block_num" t).

(** The error [NewBlockProcessor] returns on that table. *)
Definition prepare_failure : error :=
  Errorf "error preparing statement: %v"
         [ArgError (Some (ErrForeign "table posts has no column named tags"))].

(** The rows of the top-level posts among [ops], in order. *)
Definition posts_of (lib : GoLib) (blockNum : Z) (block : Block)
           (ops : list Operation) : list Row :=
  map (fun op => row_of lib blockNum block (Value op)) (filter is_top_level_post ops).


(** The table after the rows [rs] went through the insert, in order. *)
Definition store_all (rs : list Row) (t : Table) : Table :=
  fold_left (fun t r => insert_or_ignore r t) rs t.

(** The world after one [stmt.Exec] that the database accepted. *)
Definition exec_accepted (r : Row) (t : Table) (w : World) : World :=
  with_db (Some (insert_or_ignore r t)) (with_tick (note_exec r w)).

(** *** Rounding to float64 *)

(** Where a remainder [r] of a division by [Q] lies: on the lower
    integer, below the half, on it, or above it. *)
Definition loc_of (Q r : Z) : location :=
  if r =? 0 then loc_Exact else loc_Inexact (Z.compare (2 * r) Q).

(** The quotient [P / Q] as the rounding functions of [SpecFloat] carry
    it: integer part, round bit and sticky bit. *)
Definition rec_of (P Q : Z) : shr_record :=
  shr_record_of_loc (P / Q) (loc_of Q (P mod Q)).

(** The integer nearest to [P / Q], ties to even. *)
Definition rnd (P Q : Z) : Z :=
  round_nearest_even (P / Q) (loc_of Q (P mod Q)).

(** The float64 nearest to [P / Q * 2^e], for a quotient of at least 53
    bits. *)
Definition rn_float (s : bool) (P Q e : Z) : spec_float :=
  let n := Zdigits2 (P / Q) - 53 in
  let m' := rnd P (Q * 2 ^ n) in
  if m' <? 2 ^ 53 then S754_finite s (Z.to_pos m') (e + n)
  else S754_finite s (Z.to_pos (2 ^ 52)) (e + n + 1).

(** Mantissa and exponent of a finite number. *)
Definition fmant (f : spec_float) : Z :=
  match f with S754_finite _ m _ => Z.pos m | _ => 0 end.

Definition fexpo (f : spec_float) : Z :=
  match f with S754_finite _ _ e => e | _ => 0 end.

(** A positive float64 with a mantissa of 53 bits and an exponent within
    [-B, B]. *)
Definition normal_in (B : Z) (f : spec_float) : Prop :=
  f = S754_finite false (Z.to_pos (fmant f)) (fexpo f)
  /\ 2 ^ 52 <= fmant f < 2 ^ 53
  /\ - B <= fexpo f <= B.

(** The order of normal numbers: by exponent, then by mantissa. *)
Definition nle (f g : spec_float) : Prop :=
  fexpo f < fexpo g \/ (fexpo f = fexpo g /\ fmant f <= fmant g).

(** The percentage as a function of the two differences. *)
Definition pct (a c : Z) : Float64.t :=
  Float64.mul (Float64.div (Float64.of_int a) (Float64.of_int c)) (Float64.of_int 100).

(** *** Concrete inputs the properties are exercised on *)

Definition offline : error := ErrForeign "connection refused".

(** No database fault, and an API that is down. *)
Definition quiet_env : Env := {|
  sql_fault := fun _ => None;
  api_head := fun _ => inl offline;
  api_range := fun _ _ _ => inl offline
|}.

Definition world_of (e : Env) (t : option Table) : World :=
  {| env := e; tick := 0; db := t; slept := []; logged := [];
     requested := []; executed := [] |}.

(** A machine on which blocks.db does not exist yet. *)
Definition fresh_world : World := world_of quiet_env None.

Definition always_failing (w : World) : World * option error := (w, Some offline).

Definition block_with_id (id : string) : Block :=
  {| BlockNum := id; Timestamp := "2020-03-20T00:00:00"; Transactions := [] |}.

(** A processor over the insert statement, as [NewBlockProcessor] builds
    it on a table that has the statement's columns. *)
Definition default_processor : BlockProcessor :=
  {| bp_config := DefaultConfig;
     bp_stmt := {| stmt_columns := insert_columns; stmt_conflict := "url" |} |}.

(** A table that has the columns of the insert statement, and the indexes
    of the schema. *)
Definition store_table (rs : list Row) : Table :=
  {| columns := "_id" :: insert_columns; uniques := ["_id"; "url"];
     indexes := schema_indexes; rows := rs |}.

Definition post_value : OperationValue :=
  {| Author := "alice"; Title := "Hello"; Permlink := "hello-world";
     ParentAuthor := ""; JsonMetadata := "not json" |}.

Definition block_of_ops (id : string) (ops : list Operation) : Block :=
  {| BlockNum := id; Timestamp := "2020-03-20T00:00:00";
     Transactions := [ {| Operations := ops |} ] |}.

(** A block at height 41818945 whose only operation has the kind
    "comment" and no parent author. *)
Definition comment_kind_block : Block :=
  block_of_ops "027e1b41aaaaaaaa" [ {| OpType := "comment"; Value := post_value |} ].

(** A block at height 41818945 with one top-level post. *)
Definition post_block : Block :=
  block_of_ops "027e1b41aaaaaaaa"
               [ {| OpType := "comment_operation"; Value := post_value |} ].

Definition post_row : Row :=
  row_of RefLib.lib 41818945 post_block post_value.

(** An API that answers every range request with the same blocks. *)
Definition serving_env (head : Z) (blocks : list Block) : Env := {|
  sql_fault := fun _ => None;
  api_head := fun _ => inr head;
  api_range := fun _ _ _ => inr blocks
|}.

(** A block at height 41818944 with one top-level post. *)
Definition earlier_post_block : Block :=
  block_of_ops "027e1b40aaaaaaaa"
               [ {| OpType := "comment_operation"; Value := post_value |} ].

Definition locked : error := ErrForeign "database is locked".

(** A database whose first three calls fail, and an API that serves the
    two blocks at 41818944 and 41818945 to a request that starts at
    41818944 and nothing to any other request. *)
Definition flaky_env : Env := {|
  sql_fault := fun k => if (k <? 3)%nat then Some locked else None;
  api_head := fun _ => inr 41818945;
  api_range := fun _ s _ =>
    inr (if s =? 41818944 then [earlier_post_block; post_block] else [])
|}.

(** The end-to-end scenario of the specification: genesis 100, chain head
    103, batch size 10, a store without rows; the API answers with the
    sentinel block and the block at 103, which holds one top-level post
    with the tags x and y. *)
Definition scenario_config : Config := {|
  HiveAPIURL := "https://api.hive.blog";
  GenesisBlock := 100;
  BatchSize := 10;
  DBPath := "blocks.db";
  MaxRetries := 3;
  RetryDelay := 1
|}.

Definition scenario_metadata : string :=
  "{" ++ RefLib.dquote ++ "tags" ++ RefLib.dquote ++ ":["
      ++ RefLib.dquote ++ "x" ++ RefLib.dquote ++ ","
      ++ RefLib.dquote ++ "y" ++ RefLib.dquote ++ "]}".

Definition scenario_tags : string :=
  "[" ++ RefLib.dquote ++ "x" ++ RefLib.dquote ++ ","
      ++ RefLib.dquote ++ "y" ++ RefLib.dquote ++ "]".

Definition scenario_block : Block :=
  block_of_ops "00000067c0ffee00"
    [ {| OpType := "comment_operation";
         Value := {| Author := "bob"; Title := "Post"; Permlink := "post";
                     ParentAuthor := ""; JsonMetadata := scenario_metadata |} |} ].

Definition scenario_env : Env := {|
  sql_fault := fun _ => None;
  api_head := fun _ => inr 103;
  api_range := fun _ _ _ => inr [block_with_id "0"; scenario_block]
|}.

(** *** Notions of the further properties *)

(** Whether the byte [c] occurs in [s]. *)
Fixpoint has_byte (c : ascii) (s : string) : bool :=
  match s with
  | EmptyString => false
  | String x rest => Ascii.eqb x c || has_byte c rest
  end.

(** The delays of the first [k] failed attempts, as the helper computes
    them. *)
Definition backoff_delays (d : Z) (k : nat) : list Z :=
  map (fun i => mul d (shl1 (Z.of_nat i))) (seq 0 k).

(** The events of failed attempts with the delays the 64-bit arithmetic
    gives, whether the product fits or not. *)
Fixpoint wrapped_attempts (d : Z) (errs : list error) (i : Z) : list retry_event :=
  match errs with
  | [] => []
  | e :: rest =>
      Invoked (Some e) :: Slept (wrap64 (d * 2 ^ i)) :: wrapped_attempts d rest (i + 1)
  end.

(** The processor [NewBlockProcessor] builds for a configuration. *)
Definition processor_of (config : Config) : BlockProcessor :=
  {| bp_config := config;
     bp_stmt := {| stmt_columns := insert_columns; stmt_conflict := "url" |} |}.

(** The tables on which SQLite prepares the insert statement. *)
Definition accepts_insert (t : Table) : bool :=
  forallb (has_column t) insert_columns && existsb (String.eqb "url") (uniques t).

(** The height [getLastProcessedBlock] reads from a table. *)
Definition stored_height (genesisBlock : Z) (t : Table) : Z :=
  match max_block_num (rows t) with
  | None => genesisBlock
  | Some m => m
  end.



(** The sleeps of [rounds] rounds in each of which all [k] attempts
    fail. *)
Fixpoint stalled_sleeps (d : Z) (k rounds : nat) : list Z :=
  match rounds with
  | O => []
  | S r => backoff_delays d k ++ stalled_sleeps d k r
  end.

(** An API whose range requests are answered without blocks. *)
Definition empty_env : Env := {|
  sql_fault := fun _ => None;
  api_head := fun _ => inr 41819000;
  api_range := fun _ _ _ => inr []
|}.

(** The loops of [processBlock] seen from the rows they insert: each row
    goes through the retried insert, and the first insert that fails
    after its retries ends the loops. *)
Fixpoint insert_rows (bp : BlockProcessor) (rs : list Row) (processedCount : Z)
         (w : World) : World * (Z * option error) :=
  match rs with
  | [] => (w, (processedCount, None))
  | r :: rest =>
      let (w1, err) :=
        retryWithBackoff (MaxRetries (bp_config bp)) (RetryDelay (bp_config bp))
          (stmt_Exec (bp_stmt bp) r) w in
      match err with
      | Some e =>
          (w1, (processedCount,
                Some (Errorf "error inserting post: %v" [ArgError (Some e)])))
      | None => insert_rows bp rest (add processedCount 1) w1
      end
  end.

(** The rows handed to the store when the rows [rs] are handed over
    [js] times, row by row. *)
Definition handed_over (rs : list Row) (js : list nat) : list Row :=
  flat_map (fun p => repeat (fst p) (snd p)) (combine rs js).

(** What a world may become when rows among [rs] go through the insert:
    rows among [rs] are handed to the store, rows among [rs] are added at
    the end of the table, and nothing else of the table changes. *)
Definition grown_by (rs : list Row) (w w' : World) : Prop :=
  (exists new, executed w' = (executed w ++ new)%list /\ incl new rs)
  /\ match db w, db w' with
     | Some t, Some t' =>
         columns t' = columns t /\ uniques t' = uniques t
         /\ indexes t' = indexes t
         /\ exists added, rows t' = (rows t ++ added)%list /\ incl added rs
     | None, None => True
     | _, _ => False
     end.

(** A reply, and an operation that is no comment. *)
Definition reply_value : OperationValue :=
  {| Author := "bob"; Title := ""; Permlink := "re-hello-world";
     ParentAuthor := "alice"; JsonMetadata := "" |}.

Definition second_value : OperationValue :=
  {| Author := "carol"; Title := "Second"; Permlink := "second";
     ParentAuthor := ""; JsonMetadata := "" |}.

Definition third_value : OperationValue :=
  {| Author := "dave"; Title := "Third"; Permlink := "third";
     ParentAuthor := ""; JsonMetadata := "" |}.

(** A block at height 41818945 with three top-level posts, a reply and a
    vote, in two transactions. *)
Definition mixed_block : Block :=
  {| BlockNum := "027e1b41aaaaaaaa"; Timestamp := "2020-03-20T00:00:00";
     Transactions :=
       [ {| Operations :=
              [ {| OpType := "comment_operation"; Value := post_value |};
                {| OpType := "comment_operation"; Value := reply_value |} ] |};
         {| Operations :=
              [ {| OpType := "vote_operation"; Value := post_value |};
                {| OpType := "comment_operation"; Value := second_value |};
                {| OpType := "comment_operation"; Value := third_value |} ] |} ] |}.

(** The same operations in one transaction. *)
Definition mixed_block_flat : Block :=
  {| BlockNum := "027e1b41aaaaaaaa"; Timestamp := "2020-03-20T00:00:00";
     Transactions := [ {| Operations := all_operations mixed_block |} ] |}.

(** A database that accepts its first call and refuses the following
    ones. *)
Definition failing_after_one : Env := {|
  sql_fault := fun k => if (k <? 1)%nat then None else Some locked;
  api_head := fun _ => inr 41818945;
  api_range := fun _ _ _ => inr [mixed_block]
|}.

(** A table that kept its schema and its rows, got rows at its end at
    most, and holds no key twice. *)
Definition extends_table (t t' : Table) : Prop :=
  columns t' = columns t
  /\ uniques t' = uniques t
  /\ indexes t' = indexes t
  /\ (exists added, rows t' = (rows t ++ added)%list)
  /\ NoDup (map url (rows t')).

(** A database that fails every other call, and an API that serves the
    same two blocks to every request. *)
Definition erratic_env : Env := {|
  sql_fault := fun k => if Nat.even k then Some locked else None;
  api_head := fun _ => inr 41818945;
  api_range := fun _ _ _ => inr [mixed_block; block_with_id "0000zz00deadbeef"]
|}.

(** The [n] lower-case hexadecimal digits of [h], most significant
    first: the way the chain writes a height at the head of a block
    identifier. *)
Fixpoint hex_of (n : nat) (h : Z) : string :=
  match n with
  | O => ""
  | S k => hex_of k (h / 16) ++ String (RefLib.hex_digit (h mod 16)) ""
  end.

(** The [n] consecutive heights from [s]. *)
Fixpoint heights (s : Z) (n : nat) : list Z :=
  match n with
  | O => []
  | S k => s :: heights (s + 1) k
  end.

(** An API that serves a chain of blocks: a range request is answered by
    the blocks at the heights it asks for. *)
Definition serves (chain : Z -> Block) (e : Env) : Prop :=
  forall k s c, api_range e k s c = inr (map chain (heights s (Z.to_nat c))).

(** The rows of the top-level posts of the blocks at the heights [hs], in
    the order of the chain. *)
Definition chain_posts (lib : GoLib) (chain : Z -> Block) (hs : list Z) : list Row :=
  flat_map (fun h => posts_of lib h (chain h) (all_operations (chain h))) hs.

(** The heights a list of range requests asks for. *)
Definition requested_heights (rs : list (Z * Z)) : list Z :=
  flat_map (fun r => heights (fst r) (Z.to_nat (snd r))) rs.

(** A chain whose block at height [h] holds one top-level post by the
    author [hex_of 8 h]. *)
Definition demo_chain (h : Z) : Block :=
  block_of_ops (hex_of 8 h ++ "aaaaaaaa")
    [ {| OpType := "comment_operation";
         Value := {| Author := hex_of 8 h; Title := "Post"; Permlink := "post";
                     ParentAuthor := ""; JsonMetadata := "" |} |} ].

Definition demo_env (head : Z) : Env := {|
  sql_fault := fun _ => None;
  api_head := fun _ => inr head;
  api_range := fun _ s c => inr (map demo_chain (heights s (Z.to_nat c)))
|}.

(** Genesis at 100 and batches of two blocks. *)
Definition demo_config : Config := {|
  HiveAPIURL := "https://api.hive.blog";
  GenesisBlock := 100;
  BatchSize := 2;
  DBPath := "blocks.db";
  MaxRetries := 3;
  RetryDelay := Second
|}.

(** A database whose first two calls fail. *)
Definition recovering_env : Env := {|
  sql_fault := fun k => if (k <? 2)%nat then Some locked else None;
  api_head := fun _ => inr 41818945;
  api_range := fun _ _ _ => inr [mixed_block]
|}.

(** The row stored under a key, if there is one. *)
Definition lookup_url (u : string) (rs : list Row) : option Row :=
  find (fun r => String.eqb (url r) u) rs.

(** The post of [post_value] with another title: an edit. *)
Definition edited_value : OperationValue :=
  {| Author := "alice"; Title := "Hello again"; Permlink := "hello-world";
     ParentAuthor := ""; JsonMetadata := "not json" |}.

(** A block at height 41818945 with a post and its edit. *)
Definition edited_block : Block :=
  block_of_ops "027e1b41aaaaaaaa"
    [ {| OpType := "comment_operation"; Value := post_value |};
      {| OpType := "comment_operation"; Value := edited_value |} ].





(** * Properties *)

Local Open Scope list_scope.

(** ** Machine integers *)

Lemma wrap64_small (z : Z) : in_int64 z -> wrap64 z = z.
Proof.
  unfold in_int64, min_int64, max_int64, wrap64. intros Hz.
  rewrite Z.mod_small; lia.
Qed.

Lemma wrap64_range (z : Z) : in_int64 (wrap64 z).
Proof.
  unfold in_int64, min_int64, max_int64, wrap64.
  pose proof (Z.mod_pos_bound (z + 2 ^ 63) (2 ^ 64) ltac:(lia)). lia.
Qed.

Lemma wrap64_congr (a b : Z) : a mod 2 ^ 64 = b mod 2 ^ 64 -> wrap64 a = wrap64 b.
Proof.
  unfold wrap64. intros Hab.
  rewrite (Z.add_mod a), (Z.add_mod b), Hab by lia. reflexivity.
Qed.

Lemma wrap64_mod (z : Z) : wrap64 z mod 2 ^ 64 = z mod 2 ^ 64.
Proof.
  unfold wrap64.
  rewrite Zminus_mod, Z.mod_mod by lia.
  rewrite <- Zminus_mod. f_equal. lia.
Qed.

Lemma wrap64_mul_r (a b : Z) : wrap64 (a * wrap64 b) = wrap64 (a * b).
Proof.
  apply wrap64_congr.
  rewrite Z.mul_mod, wrap64_mod, <- Z.mul_mod by lia. reflexivity.
Qed.

Lemma wrap64_add_l (a b : Z) : wrap64 (wrap64 a + b) = wrap64 (a + b).
Proof.
  apply wrap64_congr.
  rewrite Z.add_mod, wrap64_mod, <- Z.add_mod by lia. reflexivity.
Qed.

(** The delay of attempt [i] is [d * 2^i] as long as that product fits. *)
Lemma delay_exact (d i : Z) :
  0 <= i -> in_int64 (d * 2 ^ i) -> mul d (shl1 i) = d * 2 ^ i.
Proof.
  intros Hi Hr. unfold mul, shl1.
  rewrite Z.shiftl_mul_pow2, Z.mul_1_l by lia.
  rewrite wrap64_mul_r. apply wrap64_small; assumption.
Qed.

Lemma pow2_scale_range (d i j : Z) :
  0 <= i <= j -> in_int64 (d * 2 ^ j) -> in_int64 (d * 2 ^ i).
Proof.
  unfold in_int64, min_int64, max_int64. intros Hij Hr.
  assert (Hp : 2 ^ j = 2 ^ i * 2 ^ (j - i)).
  { rewrite <- Z.pow_add_r by lia. f_equal. lia. }
  assert (0 < 2 ^ i) by (apply Z.pow_pos_nonneg; lia).
  assert (0 < 2 ^ (j - i)) by (apply Z.pow_pos_nonneg; lia).
  rewrite Hp in Hr. nia.
Qed.

(** ** retryWithBackoff *)

Lemma last_nonempty_default {A : Type} (x : A) (l : list A) (d d' : A) :
  last (x :: l) d = last (x :: l) d'.
Proof.
  revert x. induction l as [|y l IH]; intros x; [reflexivity|].
  change (last (y :: l) d = last (y :: l) d'). apply IH.
Qed.

Section RetryFacts.
Context {St : Type} `{Runtime St}.
Variable operation : St -> St * option error.

(** The observer does not change what the operation and the helper do. *)
Lemma observe_transparent (fuel : nat) (n d i : Z) (lastErr : option error)
      (o : Observed St) :
  obs_state (fst (retry_loop fuel n d (observe operation) i lastErr o))
  = fst (retry_loop fuel n d operation i lastErr (obs_state o))
  /\ snd (retry_loop fuel n d (observe operation) i lastErr o)
     = snd (retry_loop fuel n d operation i lastErr (obs_state o)).
Proof.
  revert i lastErr o.
  induction fuel as [|fuel IH]; intros i lastErr o; simpl.
  - split; reflexivity.
  - unfold observe at 1 3.
    destruct (operation (obs_state o)) as [s1 [e|]]; simpl.
    + apply IH.
    + split; reflexivity.
Qed.

Lemma retry_loop_failed_step (fuel : nat) (n d i : Z) (lastErr : option error)
      (o : Observed St) (s1 : St) (e : error) :
  operation (obs_state o) = (s1, Some e) ->
  retry_loop (S fuel) n d (observe operation) i lastErr o
  = retry_loop fuel n d (observe operation) (i + 1) (Some e)
      {| obs_state :=
           rt_sleep (mul d (shl1 i))
             (rt_log (LogAttemptFailed (i + 1) n e (mul d (shl1 i))) s1);
         obs_trace :=
           (obs_trace o ++ [Invoked (Some e)]) ++ [Slept (mul d (shl1 i))] |}.
Proof.
  intros Hop. simpl. unfold observe at 1. rewrite Hop. reflexivity.
Qed.

Lemma retry_loop_success_step (fuel : nat) (n d i : Z) (lastErr : option error)
      (o : Observed St) (s1 : St) :
  operation (obs_state o) = (s1, None) ->
  retry_loop (S fuel) n d (observe operation) i lastErr o
  = ({| obs_state := s1; obs_trace := obs_trace o ++ [Invoked None] |}, None).
Proof.
  intros Hop. simpl. unfold observe at 1. rewrite Hop. reflexivity.
Qed.

(** The events of a run of the loop from attempt [i] with [fuel] attempts
    left: either some attempts fail and the next one succeeds, and nothing
    follows it, or all [fuel] attempts fail. *)
Lemma retry_loop_trace (fuel : nat) :
  forall (n d i : Z) (lastErr : option error) (o : Observed St),
    0 <= i ->
    (forall j, i <= j < i + Z.of_nat fuel -> in_int64 (d * 2 ^ j)) ->
    let out := retry_loop fuel n d (observe operation) i lastErr o in
    (snd out = None /\
     exists errs, (List.length errs < fuel)%nat /\
       obs_trace (fst out)
       = obs_trace o ++ failed_attempts d errs i ++ [Invoked None])
    \/
    (exists errs, List.length errs = fuel /\
       obs_trace (fst out) = obs_trace o ++ failed_attempts d errs i /\
       snd out = Some (retry_exhausted n (last (map Some errs) lastErr))).
Proof.
  induction fuel as [|fuel IH]; intros n d i lastErr o Hi Hr; cbv zeta.
  - right. exists []. simpl. rewrite app_nil_r. auto.
  - destruct (operation (obs_state o)) as [s1 [e|]] eqn:Hop.
    + rewrite (retry_loop_failed_step _ _ _ _ _ _ _ _ Hop).
      rewrite delay_exact by (try apply Hr; lia).
      match goal with
      | |- context [retry_loop fuel n d _ (i + 1) (Some e) ?o1] =>
          specialize (IH n d (i + 1) (Some e) o1)
      end.
      cbv zeta in IH. simpl obs_trace in IH.
      destruct IH as [[Hnone [errs [Hlen Htr]]] | [errs [Hlen [Htr Hres]]]].
      * lia.
      * intros j Hj. apply Hr. lia.
      * left. split; [exact Hnone|].
        exists (e :: errs). split; [simpl; lia|].
        rewrite Htr. simpl. rewrite <- !app_assoc. reflexivity.
      * right. exists (e :: errs). split; [simpl; lia|]. split.
        -- rewrite Htr. simpl. rewrite <- !app_assoc. reflexivity.
        -- rewrite Hres. f_equal. f_equal.
           destruct errs as [|e' errs']; [reflexivity|].
           change (map Some (e :: e' :: errs'))
             with (Some e :: map Some (e' :: errs')).
           change (last (Some e :: map Some (e' :: errs')) lastErr)
             with (last (map Some (e' :: errs')) lastErr).
           apply last_nonempty_default.
    + rewrite (retry_loop_success_step _ _ _ _ _ _ _ Hop).
      left. split; [reflexivity|]. exists []. split; [simpl; lia|]. reflexivity.
Qed.

(** An operation that fails in every state makes the loop fail. *)
Lemma retry_loop_all_fail (fuel : nat) :
  (forall s, snd (operation s) <> None) ->
  forall (n d i : Z) (lastErr : option error) (o : Observed St),
    snd (retry_loop fuel n d (observe operation) i lastErr o) <> None.
Proof.
  intros Hfail. induction fuel as [|fuel IH]; intros n d i lastErr o; simpl.
  - discriminate.
  - unfold observe at 1.
    specialize (Hfail (obs_state o)).
    destruct (operation (obs_state o)) as [s1 [e|]]; simpl in *.
    + apply IH.
    + congruence.
Qed.

End RetryFacts.

Lemma failed_attempts_no_success (d : Z) (errs : list error) (i : Z) :
  ~ In (Invoked None) (failed_attempts d errs i).
Proof.
  revert i. induction errs as [|e errs IH]; intros i; simpl.
  - tauto.
  - intros [Hx | [Hx | Hx]]; try discriminate. exact (IH _ Hx).
Qed.

(** C5. For [n >= 1] attempts and an initial delay [d] whose largest
    multiple [d * 2^(n-1)] fits a 64-bit duration: the observed run is the
    program's run; an operation that fails in every state is invoked
    exactly [n] times, each failed attempt number [i] (from 0) is followed
    by a sleep of [d * 2^i], and the result is the error built from the
    attempt count [n] and the last underlying error; in general the run
    is either some failed attempts followed by one successful invocation,
    after which nothing more is invoked and nothing is slept, with result
    success, or [n] failed attempts with that error; so a successful
    invocation always ends the run with success. *)
Theorem retryWithBackoff_backoff {St : Type} `{Runtime St}
        (operation : St -> St * option error) (n d : Z) (s : St) :
  1 <= n ->
  in_int64 (d * 2 ^ (n - 1)) ->
  let out :=
    retryWithBackoff n d (observe operation) {| obs_state := s; obs_trace := [] |} in
  (obs_state (fst out), snd out) = retryWithBackoff n d operation s
  /\ ((forall s0, snd (operation s0) <> None) ->
      exists errs e,
        List.length errs = Z.to_nat n
        /\ last (map Some errs) None = Some e
        /\ obs_trace (fst out) = failed_attempts d errs 0
        /\ snd out = Some (retry_exhausted n (Some e)))
  /\ ((snd out = None
       /\ exists errs,
           (List.length errs < Z.to_nat n)%nat
           /\ obs_trace (fst out) = failed_attempts d errs 0 ++ [Invoked None])
      \/ (exists errs e,
           List.length errs = Z.to_nat n
           /\ last (map Some errs) None = Some e
           /\ obs_trace (fst out) = failed_attempts d errs 0
           /\ snd out = Some (retry_exhausted n (Some e))))
  /\ (In (Invoked None) (obs_trace (fst out)) -> snd out = None).
Proof.
  intros Hn Hd out.
  assert (Hshape :
    (snd out = None
       /\ exists errs,
           (List.length errs < Z.to_nat n)%nat
           /\ obs_trace (fst out) = failed_attempts d errs 0 ++ [Invoked None])
    \/ (exists errs e,
           List.length errs = Z.to_nat n
           /\ last (map Some errs) None = Some e
           /\ obs_trace (fst out) = failed_attempts d errs 0
           /\ snd out = Some (retry_exhausted n (Some e)))).
  { pose proof (retry_loop_trace operation (Z.to_nat n) n d 0 None
                  {| obs_state := s; obs_trace := [] |}) as Htr.
    cbv zeta in Htr. simpl obs_trace in Htr.
    destruct Htr as [[Hnone [errs [Hlen Htr]]] | [errs [Hlen [Htr Hres]]]].
    - lia.
    - intros j Hj. apply pow2_scale_range with (j := n - 1); [lia|assumption].
    - left. split; [exact Hnone|]. exists errs. split; [exact Hlen|exact Htr].
    - right. destruct errs as [|e0 errs0].
      + simpl in Hlen. lia.
      + destruct (exists_last (l := e0 :: errs0)) as [pre [e Hpre]]; [discriminate|].
        exists (e0 :: errs0), e. split; [exact Hlen|].
        assert (Hlast : last (map Some (e0 :: errs0)) None = Some e).
        { rewrite Hpre, map_app. simpl. apply last_last. }
        split; [exact Hlast|]. split; [exact Htr|].
        unfold out, retryWithBackoff. rewrite Hres, Hlast. reflexivity. }
  split; [|split; [|split]].
  - pose proof (observe_transparent operation (Z.to_nat n) n d 0 None
                  {| obs_state := s; obs_trace := [] |}) as [H1 H2].
    unfold out, retryWithBackoff. simpl obs_state in *.
    rewrite H1, H2. symmetry. apply surjective_pairing.
  - intros Hfail.
    destruct Hshape as [[Hnone _] | Hall]; [|exact Hall].
    exfalso. revert Hnone. apply retry_loop_all_fail. exact Hfail.
  - exact Hshape.
  - intros Hin.
    destruct Hshape as [[Hnone _] | [errs [e [_ [_ [Htr _]]]]]]; [exact Hnone|].
    rewrite Htr in Hin. exfalso. exact (failed_attempts_no_success _ _ _ Hin).
Qed.

(** The run of the specification's example: three attempts, initial delay
    one unit, an operation that always fails. *)
Lemma retryWithBackoff_backoff_witness :
  let out :=
    retryWithBackoff 3 1 (observe always_failing)
                     {| obs_state := fresh_world; obs_trace := [] |} in
  obs_trace (fst out)
  = [Invoked (Some offline); Slept 1; Invoked (Some offline); Slept 2;
     Invoked (Some offline); Slept 4]
  /\ snd out = Some (retry_exhausted 3 (Some offline))
  /\ (In (Invoked None) (obs_trace (fst out)) -> snd out = None).
Proof.
  split; [reflexivity|]. split; [reflexivity|].
  apply (retryWithBackoff_backoff always_failing 3 1 fresh_world).
  - lia.
  - unfold in_int64, min_int64, max_int64. simpl. lia.
Defined.

(** ** The schema and the insert statement *)

Lemma create_index_present (name col : string) (t : Table) :
  has_index t name = true ->
  create_index name col (Some t) = inr (Some t).
Proof. intros Hi. unfold create_index. rewrite Hi. reflexivity. Qed.

Lemma create_index_added (name col : string) (t : Table) :
  has_column t col = true ->
  create_index name col (Some t) = inr (Some (add_index name col t)).
Proof.
  intros Hc. unfold create_index, add_index.
  destruct (has_index t name); [reflexivity|]. rewrite Hc. reflexivity.
Qed.

Lemma create_index_refused (name col : string) (t : Table) :
  has_index t name = false ->
  has_column t col = false ->
  create_index name col (Some t) = inl (ErrForeign ("no such column: " ++ col)).
Proof. intros Hi Hc. unfold create_index. rewrite Hi, Hc. reflexivity. Qed.

Lemma add_index_columns (name col : string) (t : Table) :
  columns (add_index name col t) = columns t.
Proof. unfold add_index. destruct (has_index t name); reflexivity. Qed.

Lemma add_index_uniques (name col : string) (t : Table) :
  uniques (add_index name col t) = uniques t.
Proof. unfold add_index. destruct (has_index t name); reflexivity. Qed.

Lemma add_index_rows (name col : string) (t : Table) :
  rows (add_index name col t) = rows t.
Proof. unfold add_index. destruct (has_index t name); reflexivity. Qed.

Lemma has_column_add_index (name col c : string) (t : Table) :
  has_column (add_index name col t) c = has_column t c.
Proof. unfold has_column. rewrite add_index_columns. reflexivity. Qed.

(** The script on a table that has the two indexed columns, or when there
    is no table: the three statements go through. *)
Lemma db_Exec_script_accepted (w : World) (t : Table) :
  create_posts_table (db w) = Some t ->
  has_column t "block_num" = true ->
  has_column t "author" = true ->
  sql_fault (env w) (tick w) = None ->
  sql_fault (env w) (S (tick w)) = None ->
  sql_fault (env w) (S (S (tick w))) = None ->
  db_Exec_script createTableSQL w
  = (with_db (Some (with_schema_indexes t)) (with_tick (with_tick (with_tick w))), None).
Proof.
  intros Hdb Hb Ha H0 H1 H2.
  unfold createTableSQL, db_Exec_script.
  unfold exec_schema_stmt at 1. rewrite H0.
  change (db (with_tick w)) with (db w). rewrite Hdb.
  unfold exec_schema_stmt at 1.
  change (sql_fault (env (with_db (Some t) (with_tick w)))
                    (tick (with_db (Some t) (with_tick w))))
    with (sql_fault (env w) (S (tick w))).
  rewrite H1.
  change (db (with_tick (with_db (Some t) (with_tick w)))) with (Some t).
  rewrite (create_index_added _ _ t Hb).
  unfold exec_schema_stmt at 1.
  match goal with
  | |- context [sql_fault (env ?x) (tick ?x)] =>
      change (sql_fault (env x) (tick x)) with (sql_fault (env w) (S (S (tick w))))
  end.
  rewrite H2.
  match goal with
  | |- context [create_index ?n ?c (db ?x)] =>
      change (db x) with (Some (add_index "idx_block_num" "block_num" t))
  end.
  rewrite create_index_added by (rewrite has_column_add_index; exact Ha).
  reflexivity.
Qed.

Lemma initDB_creates (w : World) :
  db w = None ->
  sql_fault (env w) (tick w) = None ->
  sql_fault (env w) (S (tick w)) = None ->
  sql_fault (env w) (S (S (tick w))) = None ->
  initDB w
  = (with_db (Some fresh_schema) (with_tick (with_tick (with_tick w))), None).
Proof.
  intros Hdb H0 H1 H2. unfold initDB.
  rewrite (db_Exec_script_accepted w
             {| columns := posts_columns; uniques := ["_id"; "url"];
                indexes := []; rows := [] |});
    try assumption; try reflexivity.
  rewrite Hdb. reflexivity.
Qed.

Lemma initDB_keeps (w : World) (t : Table) :
  db w = Some t ->
  has_column t "block_num" = true ->
  has_column t "author" = true ->
  sql_fault (env w) (tick w) = None ->
  sql_fault (env w) (S (tick w)) = None ->
  sql_fault (env w) (S (S (tick w))) = None ->
  initDB w
  = (with_db (Some (with_schema_indexes t)) (with_tick (with_tick (with_tick w))), None).
Proof.
  intros Hdb Hb Ha H0 H1 H2. unfold initDB.
  rewrite (db_Exec_script_accepted w t); try assumption; try reflexivity.
  rewrite Hdb. reflexivity.
Qed.

(** C1, on the code. On a machine where blocks.db does not exist yet and
    the database never fails, with at least one attempt allowed: [initDB]
    creates a table that has the column [json_metadata] and no column
    [tags]; preparing the insert statement, which names [tags], is
    refused; [main] stops there, and no row is handed to the store. *)
Theorem fresh_store_prepare_fails (lib : GoLib) (config : Config) (fuel : nat)
        (w : World) :
  db w = None ->
  no_sql_fault (env w) ->
  1 <= MaxRetries config ->
  exists w',
    run lib config fuel w = Fatal "Error creating block processor:" prepare_failure w'
    /\ db w' = Some fresh_schema
    /\ has_column fresh_schema "tags" = false
    /\ has_column fresh_schema "json_metadata" = true
    /\ executed w' = executed w.
Proof.
  intros Hdb Hsql Hn.
  unfold run, retryWithBackoff.
  destruct (Z.to_nat (MaxRetries config)) as [|k] eqn:Hk; [lia|].
  simpl retry_loop. rewrite (initDB_creates w Hdb (Hsql _) (Hsql _) (Hsql _)).
  unfold NewBlockProcessor, db_Prepare. simpl. rewrite Hsql.
  eexists. split; [reflexivity|]. simpl. auto.
Qed.

Lemma fresh_store_prepare_fails_witness :
  exists w',
    run RefLib.lib DefaultConfig 1 fresh_world
    = Fatal "Error creating block processor:" prepare_failure w'
    /\ db w' = Some fresh_schema
    /\ has_column fresh_schema "tags" = false
    /\ has_column fresh_schema "json_metadata" = true
    /\ executed w' = executed fresh_world.
Proof.
  apply (fresh_store_prepare_fails RefLib.lib DefaultConfig 1 fresh_world).
  - reflexivity.
  - intros k. reflexivity.
  - vm_compute. discriminate.
Defined.

(** ** Block identifiers *)

(** C3, on the code. A block whose identifier is shorter than eight bytes
    makes [processBlock] panic in the slice expression, and with it the
    batch loop of [main], unless the identifier is the sentinel "0"; an
    identifier of at least eight bytes whose first eight do not parse is
    answered by an error with count 0 and an untouched world. *)
Theorem processBlock_malformed_id (lib : GoLib) (bp : BlockProcessor)
        (block : Block) (w : World) :
  ((String.length (BlockNum block) < 8)%nat ->
     processBlock lib bp block w = Panicked "slice bounds out of range" w
     /\ (BlockNum block <> "0" ->
         forall rest lp bi tp,
           process_blocks lib bp (block :: rest) lp bi tp w
           = Panicked "slice bounds out of range" w))
  /\ (forall hexBlockNum v e,
        slice_to_8 (BlockNum block) = Some hexBlockNum ->
        Strconv.ParseInt hexBlockNum 16 32 = (v, Some e) ->
        processBlock lib bp block w
        = Returned (0, Some (Errorf "error converting block number from hex: %v"
                                    [ArgError (Some e)])) w).
Proof.
  split.
  - intros Hlen.
    assert (Hs : slice_to_8 (BlockNum block) = None).
    { unfold slice_to_8. apply Nat.ltb_lt in Hlen. rewrite Hlen. reflexivity. }
    assert (Hp : processBlock lib bp block w = Panicked "slice bounds out of range" w).
    { unfold processBlock. rewrite Hs. reflexivity. }
    split; [exact Hp|].
    intros Hne rest lp bi tp. simpl.
    apply String.eqb_neq in Hne. rewrite Hne, Hp. reflexivity.
  - intros hexBlockNum v e Hs Hparse.
    unfold processBlock. rewrite Hs, Hparse. reflexivity.
Qed.

Lemma processBlock_malformed_id_witness :
  processBlock RefLib.lib default_processor (block_with_id "abc") fresh_world
  = Panicked "slice bounds out of range" fresh_world
  /\ process_blocks RefLib.lib default_processor [block_with_id "abc"] 7 0 0 fresh_world
     = Panicked "slice bounds out of range" fresh_world
  /\ processBlock RefLib.lib default_processor (block_with_id "0000zz00deadbeef")
                  fresh_world
     = Returned (0, Some (Errorf "error converting block number from hex: %v"
                    [ArgError (Some (NumError "ParseInt" "0000zz00" ErrSyntax))]))
                fresh_world.
Proof.
  pose proof (processBlock_malformed_id RefLib.lib default_processor
                (block_with_id "abc") fresh_world) as [Hshort _].
  pose proof (processBlock_malformed_id RefLib.lib default_processor
                (block_with_id "0000zz00deadbeef") fresh_world) as [_ Hhex].
  destruct (Hshort ltac:(simpl; lia)) as [Hp Hloop].
  split; [exact Hp|]. split.
  - apply Hloop. discriminate.
  - apply (Hhex "0000zz00" 0); reflexivity.
Defined.

(** ** Tag normalization *)



(** ** Extraction and persistence of a block *)

Lemma retry_exec_accepted (stmt : Stmt) (r : Row) (n d : Z) (w : World) (t : Table) :
  1 <= n ->
  no_sql_fault (env w) ->
  db w = Some t ->
  retryWithBackoff n d (stmt_Exec stmt r) w = (exec_accepted r t w, None).
Proof.
  intros Hn Hsql Hdb. unfold retryWithBackoff.
  destruct (Z.to_nat n) as [|k] eqn:Hk; [lia|].
  simpl. unfold stmt_Exec. rewrite Hsql. simpl. rewrite Hdb. reflexivity.
Qed.

Section ProcessFacts.
Variable lib : GoLib.
Variable bp : BlockProcessor.
Variable block : Block.
Variable blockNum : Z.

(** Operations that are not top-level posts leave no trace at all,
    whatever the world is. *)
Lemma process_ops_skips (ops : list Operation) (c : Z) (w : World) :
  filter is_top_level_post ops = [] ->
  process_ops lib bp block blockNum ops c w = (w, (c, None)).
Proof.
  induction ops as [|op rest IH]; intros Hf; simpl; [reflexivity|].
  simpl in Hf. unfold is_top_level_post in Hf.
  destruct (String.eqb (OpType op) "comment_operation"); simpl in *.
  - destruct (String.eqb (ParentAuthor (Value op)) ""); simpl in *.
    + discriminate.
    + apply IH, Hf.
  - apply IH, Hf.
Qed.

Lemma process_txs_skips (txs : list Transaction) (c : Z) (w : World) :
  filter is_top_level_post (flat_map Operations txs) = [] ->
  process_txs lib bp block blockNum txs c w = (w, (c, None)).
Proof.
  induction txs as [|tx rest IH]; intros Hf; simpl; [reflexivity|].
  simpl in Hf. rewrite filter_app in Hf. apply app_eq_nil in Hf as [H1 H2].
  rewrite process_ops_skips by exact H1. apply IH, H2.
Qed.

Hypothesis retries : 1 <= MaxRetries (bp_config bp).

(** With a database that never fails, every top-level post is handed to
    the insert once, in order, and counted. *)
Lemma process_ops_no_fault (ops : list Operation) :
  forall (c : Z) (w : World) (t : Table),
    no_sql_fault (env w) ->
    db w = Some t ->
    in_int64 c ->
    exists w',
      process_ops lib bp block blockNum ops c w
      = (w', (wrap64 (c + Z.of_nat (List.length (posts_of lib blockNum block ops))),
              None))
      /\ env w' = env w
      /\ db w' = Some (store_all (posts_of lib blockNum block ops) t)
      /\ executed w' = executed w ++ posts_of lib blockNum block ops
      /\ requested w' = requested w
      /\ slept w' = slept w
      /\ logged w' = logged w.
Proof.
  induction ops as [|op rest IH]; intros c w t Hsql Hdb Hc.
  - exists w. simpl. rewrite Z.add_0_r, wrap64_small, app_nil_r by assumption.
    repeat split; auto.
  - assert (Hcons : forall b,
              is_top_level_post op = b ->
              posts_of lib blockNum block (op :: rest)
              = if b then row_of lib blockNum block (Value op)
                          :: posts_of lib blockNum block rest
                else posts_of lib blockNum block rest).
    { intros b Hb. unfold posts_of. simpl filter. rewrite Hb.
      destruct b; reflexivity. }
    simpl process_ops.
    destruct (String.eqb (OpType op) "comment_operation") eqn:Hkind; simpl negb; cbv iota;
      [destruct (String.eqb (ParentAuthor (Value op)) "") eqn:Hparent;
       simpl negb; cbv iota|].
    + rewrite (Hcons true) by (unfold is_top_level_post; rewrite Hkind, Hparent; reflexivity).
      rewrite (retry_exec_accepted _ _ _ _ _ t retries Hsql Hdb).
      set (r := row_of lib blockNum block (Value op)).
      destruct (IH (add c 1) (exec_accepted r t w) (insert_or_ignore r t))
        as [w' [Hrun [Henv [Hdb' [Hex [Hreq [Hsl Hlg]]]]]]].
      * exact Hsql.
      * reflexivity.
      * apply wrap64_range.
      * exists w'. rewrite Hrun.
        split; [|split; [|split; [|split; [|split; [|split]]]]].
        -- f_equal. f_equal. unfold add. rewrite wrap64_add_l. f_equal.
           simpl List.length. lia.
        -- rewrite Henv. reflexivity.
        -- rewrite Hdb'. reflexivity.
        -- rewrite Hex. simpl. rewrite <- app_assoc. reflexivity.
        -- rewrite Hreq. reflexivity.
        -- rewrite Hsl. reflexivity.
        -- rewrite Hlg. reflexivity.
    + rewrite (Hcons false) by (unfold is_top_level_post; rewrite Hkind, Hparent; reflexivity).
      apply IH; assumption.
    + rewrite (Hcons false) by (unfold is_top_level_post; rewrite Hkind; reflexivity).
      apply IH; assumption.
Qed.

Lemma process_txs_no_fault (txs : list Transaction) :
  forall (c : Z) (w : World) (t : Table),
    no_sql_fault (env w) ->
    db w = Some t ->
    in_int64 c ->
    let posts := posts_of lib blockNum block (flat_map Operations txs) in
    exists w',
      process_txs lib bp block blockNum txs c w
      = (w', (wrap64 (c + Z.of_nat (List.length posts)), None))
      /\ env w' = env w
      /\ db w' = Some (store_all posts t)
      /\ executed w' = executed w ++ posts
      /\ requested w' = requested w
      /\ slept w' = slept w
      /\ logged w' = logged w.
Proof.
  induction txs as [|tx rest IH]; intros c w t Hsql Hdb Hc; cbv zeta.
  - exists w. simpl. rewrite Z.add_0_r, wrap64_small, app_nil_r by assumption.
    repeat split; auto.
  - simpl process_txs.
    destruct (process_ops_no_fault (Operations tx) c w t Hsql Hdb Hc)
      as [w1 [Hrun [Henv [Hdb1 [Hex [Hreq [Hsl Hlg]]]]]]].
    rewrite Hrun.
    destruct (IH (wrap64 (c + Z.of_nat
                   (List.length (posts_of lib blockNum block (Operations tx)))))
                 w1 _ ltac:(rewrite Henv; exact Hsql) Hdb1 (wrap64_range _))
      as [w2 [Hrun2 [Henv2 [Hdb2 [Hex2 [Hreq2 [Hsl2 Hlg2]]]]]]].
    cbv zeta in Hrun2, Hdb2, Hex2.
    exists w2. rewrite Hrun2.
    assert (Hposts :
      posts_of lib blockNum block (flat_map Operations (tx :: rest))
      = posts_of lib blockNum block (Operations tx)
        ++ posts_of lib blockNum block (flat_map Operations rest)).
    { unfold posts_of. simpl flat_map. rewrite filter_app, map_app. reflexivity. }
    rewrite Hposts.
    split; [|split; [|split; [|split; [|split; [|split]]]]].
    + f_equal. f_equal. rewrite wrap64_add_l, length_app, Nat2Z.inj_add.
      f_equal. lia.
    + congruence.
    + rewrite Hdb2. unfold store_all. rewrite fold_left_app. reflexivity.
    + rewrite Hex2, Hex, app_assoc. reflexivity.
    + congruence.
    + congruence.
    + congruence.
Qed.

End ProcessFacts.

Lemma block_height_inv (block : Block) (h : Z) :
  block_height block = Some h ->
  exists hexBlockNum,
    slice_to_8 (BlockNum block) = Some hexBlockNum
    /\ Strconv.ParseInt hexBlockNum 16 32 = (h, None).
Proof.
  unfold block_height.
  destruct (slice_to_8 (BlockNum block)) as [hex|]; [|discriminate].
  destruct (Strconv.ParseInt hex 16 32) as [v [e|]] eqn:Hp; [discriminate|].
  intros [= <-]. exists hex. auto.
Qed.

(** With a database that never fails, a block with a well-formed
    identifier is processed without error; its top-level posts are handed
    to the insert in order and all of them are counted. *)
Lemma processBlock_no_fault (lib : GoLib) (bp : BlockProcessor) (block : Block)
      (w : World) (t : Table) (h : Z) :
  block_height block = Some h ->
  no_sql_fault (env w) ->
  db w = Some t ->
  1 <= MaxRetries (bp_config bp) ->
  let posts := posts_of lib h block (all_operations block) in
  exists w',
    processBlock lib bp block w
    = Returned (wrap64 (Z.of_nat (List.length posts)), None) w'
    /\ env w' = env w
    /\ db w' = Some (store_all posts t)
    /\ executed w' = executed w ++ posts
    /\ requested w' = requested w.
Proof.
  intros Hh Hsql Hdb Hn posts.
  destruct (block_height_inv _ _ Hh) as [hex [Hs Hp]].
  destruct (process_txs_no_fault lib bp block h Hn (Transactions block) 0 w t
              Hsql Hdb ltac:(unfold in_int64, min_int64, max_int64; lia))
    as [w' [Hrun [Henv [Hdb' [Hex [Hreq _]]]]]].
  cbv zeta in Hrun, Hdb', Hex.
  exists w'. unfold processBlock. rewrite Hs, Hp, Hrun.
  repeat split; assumption.
Qed.


(** ** Rows that are already stored *)











(** ** What the helper and the processor leave untouched *)

Section RetryInvariant.
Context {St : Type} `{Runtime St}.
Variable P : St -> Prop.
Variable operation : St -> St * option error.
Hypothesis P_operation : forall s, P s -> P (fst (operation s)).
Hypothesis P_sleep : forall d s, P s -> P (rt_sleep d s).
Hypothesis P_log : forall l s, P s -> P (rt_log l s).

Lemma retry_loop_preserves (fuel : nat) :
  forall (n d i : Z) (lastErr : option error) (s : St),
    P s -> P (fst (retry_loop fuel n d operation i lastErr s)).
Proof.
  induction fuel as [|fuel IH]; intros n d i lastErr s Hs; simpl; [exact Hs|].
  pose proof (P_operation s Hs) as Hop.
  destruct (operation s) as [s1 [e|]]; simpl in *.
  - apply IH. apply P_sleep, P_log, Hop.
  - exact Hop.
Qed.

(** A successful run ends with a successful invocation in a state that
    satisfies the invariant. *)
Lemma retry_loop_success_inv (fuel : nat) :
  forall (n d i : Z) (lastErr : option error) (s s' : St),
    P s ->
    retry_loop fuel n d operation i lastErr s = (s', None) ->
    exists s0, P s0 /\ operation s0 = (s', None).
Proof.
  induction fuel as [|fuel IH]; intros n d i lastErr s s' Hs Hrun; simpl in Hrun.
  - discriminate.
  - pose proof (P_operation s Hs) as Hop.
    destruct (operation s) as [s1 [e|]] eqn:Hs1; simpl in *.
    + eapply IH; [|exact Hrun]. apply P_sleep, P_log, Hop.
    + injection Hrun as <-. exists s. split; assumption.
Qed.

End RetryInvariant.

Lemma same_frame_refl (w : World) : same_frame w w.
Proof. split; reflexivity. Qed.

Lemma same_frame_trans (w1 w2 w3 : World) :
  same_frame w1 w2 -> same_frame w2 w3 -> same_frame w1 w3.
Proof. unfold same_frame. intros [? ?] [? ?]. split; congruence. Qed.

Lemma retry_exec_frame (stmt : Stmt) (r : Row) (n d : Z) (w : World) :
  same_frame w (fst (retryWithBackoff n d (stmt_Exec stmt r) w)).
Proof.
  unfold retryWithBackoff.
  apply (retry_loop_preserves (same_frame w)).
  - intros s Hs. eapply same_frame_trans; [exact Hs|].
    unfold stmt_Exec.
    destruct (sql_fault (env s) (tick s)); [split; reflexivity|].
    simpl. destruct (db s); split; reflexivity.
  - intros d0 s Hs. eapply same_frame_trans; [exact Hs|]. split; reflexivity.
  - intros l s Hs. eapply same_frame_trans; [exact Hs|]. split; reflexivity.
  - apply same_frame_refl.
Qed.

Section FrameFacts.
Variable lib : GoLib.
Variable bp : BlockProcessor.

Lemma process_ops_frame (block : Block) (blockNum : Z) (ops : list Operation) :
  forall c w, same_frame w (fst (process_ops lib bp block blockNum ops c w)).
Proof.
  induction ops as [|op rest IH]; intros c w; simpl; [apply same_frame_refl|].
  destruct (negb (String.eqb (OpType op) "comment_operation")); [apply IH|].
  destruct (negb (String.eqb (ParentAuthor (Value op)) "")); [apply IH|].
  pose proof (retry_exec_frame (bp_stmt bp) (row_of lib blockNum block (Value op))
                (MaxRetries (bp_config bp)) (RetryDelay (bp_config bp)) w) as Hf.
  destruct (retryWithBackoff _ _ _ w) as [w1 [e|]]; simpl in *; [exact Hf|].
  eapply same_frame_trans; [exact Hf|apply IH].
Qed.

Lemma process_txs_frame (block : Block) (blockNum : Z) (txs : list Transaction) :
  forall c w, same_frame w (fst (process_txs lib bp block blockNum txs c w)).
Proof.
  induction txs as [|tx rest IH]; intros c w; simpl; [apply same_frame_refl|].
  pose proof (process_ops_frame block blockNum (Operations tx) c w) as Hf.
  destruct (process_ops lib bp block blockNum (Operations tx) c w)
    as [w1 [n [e|]]]; simpl in *; [exact Hf|].
  eapply same_frame_trans; [exact Hf|apply IH].
Qed.

Lemma processBlock_frame (block : Block) (w : World) :
  same_frame w (outcome_world (processBlock lib bp block w)).
Proof.
  unfold processBlock.
  destruct (slice_to_8 (BlockNum block)) as [hex|]; [|apply same_frame_refl].
  destruct (Strconv.ParseInt hex 16 32) as [h [e|]]; [apply same_frame_refl|].
  pose proof (process_txs_frame block h (Transactions block) 0 w) as Hf.
  destruct (process_txs lib bp block h (Transactions block) 0 w) as [w1 r].
  exact Hf.
Qed.

Lemma process_blocks_frame (blocks : list Block) :
  forall lp bi tp w,
    same_frame w (outcome_world (process_blocks lib bp blocks lp bi tp w)).
Proof.
  induction blocks as [|block rest IH]; intros lp bi tp w; simpl;
    [apply same_frame_refl|].
  destruct (String.eqb (BlockNum block) "0"); [apply IH|].
  pose proof (processBlock_frame block w) as Hf.
  destruct (processBlock lib bp block w) as [[n [e|]] w1|msg w1]; simpl in Hf.
  - eapply same_frame_trans; [exact Hf|].
    eapply same_frame_trans; [|apply IH]. split; reflexivity.
  - destruct (slice_to_8 (BlockNum block)) as [hex|]; [|exact Hf].
    destruct (Strconv.ParseInt hex 16 32) as [h e].
    eapply same_frame_trans; [exact Hf|apply IH].
  - exact Hf.
Qed.

End FrameFacts.

(** ** The requests of one round *)

(** The fetch of one round: every attempt sends the same request, at
    least one is sent when an attempt is allowed, and the blocks a
    successful fetch returns are an answer of the API to that request. *)
Lemma fetch_requests (config : Config) (s c : Z) (fuel : nat) :
  forall (n d i : Z) (lastErr : option error) (w : World) (bs : list Block),
    let out := retry_loop fuel n d (fetch_operation config s c) i lastErr (w, bs) in
    exists k : nat,
      (k <= fuel)%nat
      /\ (1 <= fuel -> 1 <= k)%nat
      /\ requested (fst (fst out)) = requested w ++ repeat (s, c) k
      /\ env (fst (fst out)) = env w
      /\ (snd out = None ->
          exists j, api_range (env w) j s c = inr (snd (fst out))).
Proof.
  induction fuel as [|fuel IH]; intros n d i lastErr w bs; cbv zeta.
  - exists 0%nat. simpl. rewrite app_nil_r. repeat split; try lia. discriminate.
  - set (out := retry_loop (S fuel) n d (fetch_operation config s c) i lastErr (w, bs)).
    set (w1 := with_tick (note_request (s, c) w)).
    assert (Hstep :
      out = match api_range (env w) (tick w) s c with
            | inl e =>
                retry_loop fuel n d (fetch_operation config s c) (i + 1) (Some e)
                  (sleep_world (mul d (shl1 i))
                     (log_world (LogAttemptFailed (i + 1) n e (mul d (shl1 i))) w1),
                   [])
            | inr blocks => ((w1, blocks), None)
            end).
    { unfold out. simpl retry_loop. unfold fetch_operation at 1, getBlockRange.
      simpl fst. fold w1.
      destruct (api_range (env w) (tick w) s c); reflexivity. }
    rewrite Hstep. clear Hstep out.
    destruct (api_range (env w) (tick w) s c) as [e|blocks] eqn:Hapi.
    + match goal with
      | |- context [retry_loop fuel n d _ ?i1 ?le (?wa, ?ba)] =>
          destruct (IH n d i1 le wa ba) as [k [Hk [Hk1 [Hreq [Henv Hok]]]]]
      end.
      cbv zeta in Hreq, Henv, Hok.
      exists (S k). split; [lia|]. split; [lia|]. split; [|split].
      * rewrite Hreq. simpl. rewrite <- app_assoc. reflexivity.
      * rewrite Henv. reflexivity.
      * exact Hok.
    + exists 1%nat. simpl. repeat split; try lia.
      intros _. exists (tick w). exact Hapi.
Qed.

Lemma main_iter_requests (lib : GoLib) (config : Config) (processor : BlockProcessor)
      (currentBlock : Z) (st : LoopState) (w : World) :
  let range := batch_range config currentBlock (lastProcessed st) in
  let w' := outcome_world (main_iter lib config processor currentBlock st w) in
  exists k : nat,
    (1 <= MaxRetries config -> (1 <= k)%nat)
    /\ requested w' = requested w ++ repeat range k
    /\ env w' = env w.
Proof.
  cbv zeta. unfold main_iter.
  destruct (batch_range config currentBlock (lastProcessed st)) as [s c].
  unfold retryWithBackoff.
  destruct (fetch_requests config s c (Z.to_nat (MaxRetries config))
              (MaxRetries config) (RetryDelay config) 0 None w [])
    as [k [_ [Hk1 [Hreq [Henv _]]]]].
  cbv zeta in Hreq, Henv.
  destruct (retry_loop _ _ _ (fetch_operation config s c) 0 None (w, []))
    as [[w1 blocks] err].
  simpl fst in *.
  exists k. split; [intros Hn; apply Hk1; lia|].
  destruct err as [e|].
  - simpl. split; assumption.
  - pose proof (process_blocks_frame lib processor blocks
                  (lastProcessed st) 0 (totalProcessed st) w1) as [Hfe Hfr].
    destruct (process_blocks lib processor blocks (lastProcessed st) 0
                (totalProcessed st) w1) as [[[lp bi] tp] w2|msg w2];
      simpl in *; split; congruence.
Qed.

(** C8. For a batch size [b >= 1] and [lastProcessed < currentBlock],
    all of them 64-bit integers whose sums [lastProcessed + 1 + b] and
    differences [currentBlock - lastProcessed] fit 64 bits, the range of
    a round is [startBlock = lastProcessed + 1] and
    [count = min(b, currentBlock - startBlock + 1)], and every request
    the round sends (one per attempt, at least one when an attempt is
    allowed) asks for exactly that range. *)
Theorem batch_fetch_range (lib : GoLib) (config : Config) (processor : BlockProcessor)
        (currentBlock : Z) (st : LoopState) (w : World) :
  1 <= BatchSize config ->
  lastProcessed st < currentBlock ->
  in_int64 (lastProcessed st) ->
  in_int64 currentBlock ->
  in_int64 (lastProcessed st + 1 + BatchSize config) ->
  in_int64 (currentBlock - lastProcessed st) ->
  1 <= MaxRetries config ->
  let startBlock := lastProcessed st + 1 in
  let count := Z.min (BatchSize config) (currentBlock - startBlock + 1) in
  batch_range config currentBlock (lastProcessed st) = (startBlock, count)
  /\ exists k : nat,
      (1 <= k)%nat
      /\ requested (outcome_world (main_iter lib config processor currentBlock st w))
         = requested w ++ repeat (startBlock, count) k.
Proof.
  intros Hb Hlt HL HT Hsum Hdiff Hn startBlock count.
  assert (Hrange :
    batch_range config currentBlock (lastProcessed st) = (startBlock, count)).
  { unfold batch_range, add, sub, in_int64, min_int64, max_int64 in *.
    rewrite (wrap64_small (lastProcessed st + 1))
      by (unfold in_int64, min_int64, max_int64; lia).
    rewrite (wrap64_small (lastProcessed st + 1 + BatchSize config))
      by (unfold in_int64, min_int64, max_int64; lia).
    rewrite (wrap64_small (currentBlock - (lastProcessed st + 1)))
      by (unfold in_int64, min_int64, max_int64; lia).
    rewrite (wrap64_small (currentBlock - (lastProcessed st + 1) + 1))
      by (unfold in_int64, min_int64, max_int64; lia).
    unfold count, startBlock.
    destruct (Z.gtb_spec (lastProcessed st + 1 + BatchSize config) currentBlock);
      f_equal; lia. }
  split; [exact Hrange|].
  destruct (main_iter_requests lib config processor currentBlock st w)
    as [k [Hk [Hreq _]]].
  rewrite Hrange in Hreq.
  exists k. split; [apply Hk; exact Hn|exact Hreq].
Qed.

Lemma batch_fetch_range_witness :
  batch_range DefaultConfig 41820000 41818753 = (41818754, 1000)
  /\ batch_range DefaultConfig 41819000 41818753 = (41818754, 247)
  /\ exists k : nat,
      (1 <= k)%nat
      /\ requested (outcome_world
           (main_iter RefLib.lib DefaultConfig default_processor 41819000
              (initial_state DefaultConfig 41819000 0)
              (world_of quiet_env (Some (store_table [])))))
         = [] ++ repeat (41818754, 247) k.
Proof.
  split; [reflexivity|].
  apply (batch_fetch_range RefLib.lib DefaultConfig default_processor 41819000
           (initial_state DefaultConfig 41819000 0)
           (world_of quiet_env (Some (store_table []))));
    unfold in_int64, min_int64, max_int64; simpl; lia.
Defined.

(** ** The resume point *)

Arguments has_column : simpl never.

Lemma max_block_num_empty (rs : list Row) : max_block_num rs = None <-> rs = [].
Proof.
  split.
  - destruct rs as [|r rest]; [reflexivity|]. simpl.
    destruct (max_block_num rest); discriminate.
  - intros ->. reflexivity.
Qed.

(** A bootstrap that succeeds has read the resume height from the store:
    the largest stored height, or the genesis height on an empty table. *)
Lemma bootstrap_reads_store (config : Config) (n d : Z) (w wb : World)
      (currentBlock lastProcessed0 : Z) (t : Table) :
  retryWithBackoff n d (bootstrap_operation config) (w, (0, 0))
  = ((wb, (currentBlock, lastProcessed0)), None) ->
  db w = Some t ->
  lastProcessed0
  = match max_block_num (rows t) with
    | None => GenesisBlock config
    | Some m => m
    end.
Proof.
  intros Hrun Hdb. unfold retryWithBackoff in Hrun.
  assert (Hex : exists s0 : World * (Z * Z),
             db (fst s0) = Some t
             /\ bootstrap_operation config s0
                = ((wb, (currentBlock, lastProcessed0)), None)).
  { eapply (retry_loop_success_inv (fun s : World * (Z * Z) => db (fst s) = Some t));
      [| | | |exact Hrun].
    - intros [w0 [cb0 lp0]] H0. simpl in *. unfold getLatestBlock.
      destruct (api_head (env w0) (tick w0)); simpl; [exact H0|].
      unfold getLastProcessedBlock. simpl.
      destruct (sql_fault (env w0) (S (tick w0))); simpl; [exact H0|].
      rewrite H0.
      destruct (negb (has_column t "block_num")); [exact H0|].
      destruct (max_block_num (rows t)); exact H0.
    - intros d0 s H0. exact H0.
    - intros l s H0. exact H0.
    - exact Hdb. }
  destruct Hex as [[w0 [cb0 lp0]] [Hdb0 Hop]].
  simpl in Hdb0, Hop. unfold getLatestBlock in Hop.
  destruct (api_head (env w0) (tick w0)); simpl in Hop; [discriminate|].
  unfold getLastProcessedBlock in Hop. simpl in Hop.
  destruct (sql_fault (env w0) (S (tick w0))); simpl in Hop; [discriminate|].
  rewrite Hdb0 in Hop.
  destruct (negb (has_column t "block_num")); [discriminate|].
  destruct (max_block_num (rows t)); injection Hop as _ _ <-; reflexivity.
Qed.

(** The requests of a run are those made before, followed by those of
    its rounds. *)
Lemma main_loop_requests_extend (lib : GoLib) (config : Config)
      (processor : BlockProcessor) (currentBlock : Z) (fuel : nat) :
  forall st w,
    exists rest,
      requested (run_world (main_loop lib fuel config processor currentBlock st w))
      = requested w ++ rest.
Proof.
  induction fuel as [|fuel IH]; intros st w; simpl.
  - destruct (variance st >? 0); exists []; simpl; rewrite app_nil_r; reflexivity.
  - destruct (variance st >? 0).
    + destruct (main_iter_requests lib config processor currentBlock st w)
        as [k [_ [Hreq _]]].
      cbv zeta in Hreq.
      destruct (main_iter lib config processor currentBlock st w) as [st1 w1|msg w1];
        simpl in Hreq.
      * destruct (IH st1 w1) as [rest Hrest]. rewrite Hrest, Hreq.
        eexists. rewrite <- app_assoc. reflexivity.
      * simpl. rewrite Hreq. eexists. reflexivity.
    + exists []. simpl. rewrite app_nil_r. reflexivity.
Qed.

(** C7. After a bootstrap that succeeded on a store [t]: on an empty
    store the loop is entered with [lastProcessed] at the configured
    genesis height, which is not zero unless the genesis height is; on a
    store whose largest height is [H > 0] it is entered at [H]; and when
    there is something to fetch, the first request of the loop starts at
    [lastProcessed + 1], that is at genesis + 1 and at [H + 1]. *)
Theorem resume_point (lib : GoLib) (config : Config) (processor : BlockProcessor)
        (w wb : World) (currentBlock lastProcessed0 : Z) (t : Table) :
  retryWithBackoff (MaxRetries config) (RetryDelay config)
                   (bootstrap_operation config) (w, (0, 0))
  = ((wb, (currentBlock, lastProcessed0)), None) ->
  db w = Some t ->
  let st := initial_state config currentBlock lastProcessed0 in
  (rows t = [] ->
     lastProcessed st = GenesisBlock config
     /\ (GenesisBlock config <> 0 -> lastProcessed st <> 0))
  /\ (forall H, max_block_num (rows t) = Some H -> 0 < H -> lastProcessed st = H)
  /\ (0 < variance st ->
      in_int64 (lastProcessed st + 1) ->
      forall fuel w0,
      exists count rest,
        requested (run_world
                     (main_loop lib (S fuel) config processor currentBlock st w0))
        = requested w0 ++ (lastProcessed st + 1, count) :: rest).
Proof.
  intros Hboot Hdb st.
  pose proof (bootstrap_reads_store _ _ _ _ _ _ _ _ Hboot Hdb) as HL.
  assert (Hn : 1 <= MaxRetries config).
  { unfold retryWithBackoff in Hboot.
    destruct (Z.to_nat (MaxRetries config)) eqn:Hk; [discriminate|lia]. }
  split; [|split].
  - intros Hempty. apply max_block_num_empty in Hempty. rewrite Hempty in HL.
    unfold st, initial_state. simpl. rewrite HL.
    destruct (Z.eqb_spec (GenesisBlock config) 0) as [Hg|Hg].
    + split; [reflexivity|]. intros Hz. contradiction.
    + split; [reflexivity|]. intros _. exact Hg.
  - intros H Hmax Hpos. rewrite Hmax in HL.
    unfold st, initial_state. simpl. rewrite HL.
    destruct (Z.eqb_spec H 0); [lia|reflexivity].
  - intros Hvar Hfit fuel w0.
    change (main_loop lib (S fuel) config processor currentBlock st w0)
      with (if variance st >? 0
            then match main_iter lib config processor currentBlock st w0 with
                 | Panicked msg w1 => Crashed msg w1
                 | Returned st1 w1 =>
                     main_loop lib fuel config processor currentBlock st1 w1
                 end
            else Finished st (log_world (LogComplete (totalProcessed st)
                                                     (totalInserts st)) w0)).
    destruct (Z.gtb_spec (variance st) 0) as [_|Hle]; [|lia].
    destruct (main_iter_requests lib config processor currentBlock st w0)
      as [k [Hk [Hreq _]]].
    specialize (Hk Hn). cbv zeta in Hreq.
    destruct k as [|k]; [lia|].
    assert (Hstart : fst (batch_range config currentBlock (lastProcessed st))
                     = lastProcessed st + 1).
    { unfold batch_range. simpl. apply wrap64_small. exact Hfit. }
    destruct (batch_range config currentBlock (lastProcessed st)) as [s c].
    simpl in Hstart. subst s.
    destruct (main_iter lib config processor currentBlock st w0) as [st1 w1|msg w1];
      simpl in Hreq.
    + destruct (main_loop_requests_extend lib config processor currentBlock fuel st1 w1)
        as [rest Hrest].
      rewrite Hrest, Hreq. simpl. rewrite <- app_assoc. simpl.
      eexists. eexists. reflexivity.
    + simpl. rewrite Hreq. simpl. eexists. eexists. reflexivity.
Qed.

Lemma resume_point_witness :
  let w0 := world_of (serving_env 41819000 []) (Some (store_table [])) in
  let w1 := world_of (serving_env 41819000 []) (Some (store_table [post_row])) in
  (lastProcessed (initial_state DefaultConfig 41819000 41818753) = 41818753
   /\ exists count rest,
       requested (run_world
         (main_loop RefLib.lib 1 DefaultConfig default_processor 41819000
                    (initial_state DefaultConfig 41819000 41818753) w0))
       = requested w0 ++ (41818753 + 1, count) :: rest)
  /\ lastProcessed (initial_state DefaultConfig 41819000 41818945) = 41818945.
Proof.
  intros w0 w1. split.
  - pose proof (resume_point RefLib.lib DefaultConfig default_processor w0
                  (fst (fst (retryWithBackoff (MaxRetries DefaultConfig)
                               (RetryDelay DefaultConfig)
                               (bootstrap_operation DefaultConfig) (w0, (0, 0)))))
                  41819000 41818753 (store_table []) eq_refl eq_refl)
      as [Hempty [_ Hfirst]].
    split.
    + apply Hempty. reflexivity.
    + apply Hfirst.
      * reflexivity.
      * unfold in_int64, min_int64, max_int64. simpl. lia.
  - pose proof (resume_point RefLib.lib DefaultConfig default_processor w1
                  (fst (fst (retryWithBackoff (MaxRetries DefaultConfig)
                               (RetryDelay DefaultConfig)
                               (bootstrap_operation DefaultConfig) (w1, (0, 0)))))
                  41819000 41818945 (store_table [post_row]) eq_refl eq_refl)
      as [_ [Hmax _]].
    apply Hmax; [reflexivity|lia].
Defined.

(** ** Heights are 32-bit *)

Lemma digit_of_nonneg (base : Z) (c : ascii) (d : Z) :
  Strconv.digit_of base c = Some d -> 0 <= d.
Proof.
  unfold Strconv.digit_of.
  set (n := Z.of_nat (nat_of_ascii c)).
  destruct ((48 <=? n) && (n <=? 57)) eqn:Hdig.
  - destruct (n - 48 <? base); [|discriminate]. intros [= <-].
    apply andb_prop in Hdig as [H1 _]. apply Z.leb_le in H1. lia.
  - destruct ((97 <=? Strconv.lower n) && (Strconv.lower n <=? 122)) eqn:Hlet;
      [|discriminate].
    destruct (Strconv.lower n - 97 + 10 <? base); [|discriminate]. intros [= <-].
    apply andb_prop in Hlet as [H1 _]. apply Z.leb_le in H1. lia.
Qed.

Lemma parse_digits_nonneg (base maxVal : Z) (s : string) :
  forall n un, 0 <= base -> 0 <= n ->
    Strconv.parse_digits base maxVal s n = Strconv.UOk un -> 0 <= un.
Proof.
  induction s as [|c rest IH]; intros n un Hb Hn; simpl.
  - intros [= <-]. exact Hn.
  - destruct (Strconv.digit_of base c) as [d|] eqn:Hd; [|discriminate].
    apply digit_of_nonneg in Hd.
    destruct (maxVal <? n * base + d); [discriminate|].
    apply IH; [exact Hb|nia].
Qed.

Lemma ParseInt_32_range (s : string) (v : Z) :
  Strconv.ParseInt s 16 32 = (v, None) -> in_int32 v.
Proof.
  unfold Strconv.ParseInt.
  destruct s as [|c rest]; [discriminate|].
  set (neg := Ascii.eqb c "-"%char).
  set (body := if Ascii.eqb c "+"%char || neg then rest else String c rest).
  unfold Strconv.ParseUint.
  assert (Hnn : forall un,
             Strconv.parse_digits 16 (2 ^ 32 - 1) body 0 = Strconv.UOk un -> 0 <= un).
  { intros un. apply parse_digits_nonneg; lia. }
  destruct body as [|c' rest']; [discriminate|].
  destruct (Strconv.parse_digits 16 (2 ^ 32 - 1) (String c' rest') 0) as [un| |];
    [|discriminate|destruct neg; discriminate].
  specialize (Hnn un eq_refl).
  unfold in_int32, min_int32, max_int32.
  change (2 ^ (32 - 1)) with 2147483648.
  destruct neg; simpl negb; simpl andb; cbv iota.
  - destruct (Z.ltb_spec 2147483648 un); [discriminate|].
    intros [= <-]. lia.
  - destruct (Z.leb_spec 2147483648 un); [discriminate|].
    intros [= <-]. lia.
Qed.

Lemma block_height_range (b : Block) (h : Z) :
  block_height b = Some h -> in_int32 h.
Proof.
  intros Hh. destruct (block_height_inv _ _ Hh) as [hex [_ Hp]].
  exact (ParseInt_32_range _ _ Hp).
Qed.

Lemma in_int32_succ_fits (z : Z) : in_int32 z -> in_int64 (z + 1).
Proof. unfold in_int32, in_int64, min_int32, max_int32, min_int64, max_int64. lia. Qed.

(** ** Progress of the loop under the contract of the API *)


Section LoopFacts.
Variable lib : GoLib.
Variable config : Config.
Variable processor : BlockProcessor.
Variable currentBlock : Z.


(** A block that was processed without error carries a height. *)
Lemma processBlock_success_height (b : Block) (w w' : World) (n : Z) :
  processBlock lib processor b w = Returned (n, None) w' ->
  exists hex h,
    slice_to_8 (BlockNum b) = Some hex
    /\ Strconv.ParseInt hex 16 32 = (h, None)
    /\ block_height b = Some h.
Proof.
  unfold processBlock, block_height.
  destruct (slice_to_8 (BlockNum b)) as [hex|]; [|discriminate].
  destruct (Strconv.ParseInt hex 16 32) as [h [e|]] eqn:Hp; [discriminate|].
  intros _. exists hex, h. auto.
Qed.

(** Over blocks of consecutive heights from [s], with [lastProcessed]
    below [s], the batch loop leaves [lastProcessed] where it was or moves
    it to the height of one of the blocks. *)
Lemma process_blocks_bounds (bs : list Block) :
  forall s lp bi tp w lp' bi' tp' w',
    ascending_from s bs = true ->
    lp < s ->
    process_blocks lib processor bs lp bi tp w = Returned (lp', bi', tp') w' ->
    lp' = lp \/ (s <= lp' < s + Z.of_nat (List.length bs) /\ in_int32 lp').
Proof.
  induction bs as [|b rest IH]; intros s lp bi tp w lp' bi' tp' w' Hasc Hlt Hrun.
  - simpl in Hrun. injection Hrun as <- _ _ _. left. reflexivity.
  - simpl in Hasc. apply andb_prop in Hasc as [Hb Hrest].
    assert (Hskip : forall wa,
               process_blocks lib processor rest lp bi tp wa
               = Returned (lp', bi', tp') w' ->
               lp' = lp \/ (s <= lp' < s + Z.of_nat (List.length (b :: rest))
                            /\ in_int32 lp')).
    { intros wa Hr.
      destruct (IH (s + 1) lp bi tp wa lp' bi' tp' w' Hrest ltac:(lia) Hr)
        as [Heq | [Hin H32]]; [left; exact Heq|right].
      simpl List.length. split; [lia|exact H32]. }
    simpl in Hrun.
    destruct (String.eqb (BlockNum b) "0"); [exact (Hskip _ Hrun)|].
    destruct (processBlock lib processor b w) as [[n [e|]] w1|msg w1] eqn:Hpb;
      [exact (Hskip _ Hrun)| |discriminate].
    destruct (processBlock_success_height _ _ _ _ Hpb) as [hex [h [Hs [Hp Hh]]]].
    rewrite Hs, Hp in Hrun. rewrite Hh in Hb. apply Z.eqb_eq in Hb. subst h.
    right.
    destruct (IH (s + 1) s _ _ _ lp' bi' tp' w' Hrest ltac:(lia) Hrun)
      as [Heq | [Hin H32]].
    + subst lp'. simpl List.length.
      split; [lia|]. exact (ParseInt_32_range _ _ Hp).
    + simpl List.length. split; [lia|exact H32].
Qed.

(** One round never moves [lastProcessed] back when the API keeps its
    contract, and leaves the API as it is. *)
Lemma main_iter_progress (st st1 : LoopState) (w w1 : World) :
  honest_api (env w) ->
  in_int32 (lastProcessed st) ->
  main_iter lib config processor currentBlock st w = Returned st1 w1 ->
  lastProcessed st <= lastProcessed st1
  /\ in_int32 (lastProcessed st1)
  /\ env w1 = env w.
Proof.
  intros Hhonest H32 Hrun.
  pose proof (main_iter_requests lib config processor currentBlock st w)
    as [_ [_ [_ Henv]]].
  rewrite Hrun in Henv. simpl in Henv.
  unfold main_iter in Hrun.
  assert (Hstart : fst (batch_range config currentBlock (lastProcessed st))
                   = lastProcessed st + 1).
  { unfold batch_range. simpl. apply wrap64_small, in_int32_succ_fits, H32. }
  destruct (batch_range config currentBlock (lastProcessed st)) as [s c].
  simpl in Hstart. subst s.
  unfold retryWithBackoff in Hrun.
  destruct (fetch_requests config (lastProcessed st + 1) c
              (Z.to_nat (MaxRetries config)) (MaxRetries config)
              (RetryDelay config) 0 None w [])
    as [k [_ [_ [_ [_ Hok]]]]].
  cbv zeta in Hok.
  destruct (retry_loop _ _ _ (fetch_operation config (lastProcessed st + 1) c)
                       0 None (w, [])) as [[wf blocks] err].
  simpl in Hok.
  destruct err as [e|].
  - injection Hrun as <- _. split; [lia|]. split; [exact H32|exact Henv].
  - destruct (Hok eq_refl) as [j Hapi].
    pose proof (Hhonest _ _ _ _ Hapi) as Hasc.
    destruct (process_blocks lib processor blocks (lastProcessed st) 0
                (totalProcessed st) wf) as [[[lp bi] tp] w2|msg w2] eqn:Hpb;
      [|discriminate].
    injection Hrun as <- _. simpl.
    eapply process_blocks_bounds in Hpb; [|exact Hasc|lia].
    destruct Hpb as [-> | [Hin Hlp]].
    + split; [lia|]. split; [exact H32|exact Henv].
    + split; [lia|]. split; [exact Hlp|exact Henv].
Qed.


End LoopFacts.



(** ** float64 *)

Lemma digits2_pos_bounds (p : positive) :
  2 ^ (Z.pos (digits2_pos p) - 1) <= Z.pos p < 2 ^ Z.pos (digits2_pos p).
Proof.
  induction p as [p IH|p IH|]; simpl digits2_pos.
  - rewrite Pos2Z.inj_succ, Z.pow_succ_r by lia.
    replace (Z.succ (Z.pos (digits2_pos p)) - 1) with (Z.succ (Z.pos (digits2_pos p) - 1)) by lia.
    rewrite Z.pow_succ_r by lia. lia.
  - rewrite Pos2Z.inj_succ, Z.pow_succ_r by lia.
    replace (Z.succ (Z.pos (digits2_pos p)) - 1) with (Z.succ (Z.pos (digits2_pos p) - 1)) by lia.
    rewrite Z.pow_succ_r by lia. lia.
  - simpl. lia.
Qed.

Lemma shr_record_of_loc_m (m : Z) (l : location) : shr_m (shr_record_of_loc m l) = m.
Proof. destruct l as [|[| |]]; reflexivity. Qed.

Lemma pos_iter_xO (p k : positive) : Z.pos (Pos.iter xO p k) = Z.pos p * 2 ^ Z.pos k.
Proof.
  induction k as [|k IH] using Pos.peano_ind.
  - simpl. lia.
  - rewrite Pos.iter_succ, Pos2Z.inj_xO, IH, Pos2Z.inj_succ, Z.pow_succ_r by lia. lia.
Qed.

Lemma new_location_zero (nb : Z) : new_location nb 0 = loc_Exact.
Proof.
  unfold new_location, new_location_even, new_location_odd.
  destruct (Z.even nb); reflexivity.
Qed.

(** A finite float64 divided by itself is one. *)
Lemma div_self (s : bool) (m : positive) (e : Z) :
  Float64.div (S754_finite s m e) (S754_finite s m e) = Float64.of_int 1.
Proof.
  unfold Float64.div, SFdiv, SFdiv_core_binary.
  rewrite Z.sub_diag, Z.sub_diag.
  change (Z.min (fexp Float64.prec Float64.emax 0) 0) with (- 53).
  change (0 - - 53) with 53.
  rewrite Z.shiftl_mul_pow2 by lia.
  assert (Hdiv : Z.div_eucl (Z.pos m * 2 ^ 53) (Z.pos m) = (2 ^ 53, 0)).
  { rewrite (surjective_pairing (Z.div_eucl (Z.pos m * 2 ^ 53) (Z.pos m))).
    change (fst (Z.div_eucl (Z.pos m * 2 ^ 53) (Z.pos m)))
      with (Z.pos m * 2 ^ 53 / Z.pos m).
    change (snd (Z.div_eucl (Z.pos m * 2 ^ 53) (Z.pos m)))
      with ((Z.pos m * 2 ^ 53) mod Z.pos m).
    rewrite (Z.mul_comm (Z.pos m)), Z.div_mul, Z.mod_mul by lia. reflexivity. }
  rewrite Hdiv, new_location_zero, xorb_nilpotent. reflexivity.
Qed.

Lemma new_location_loc_of (Q r : Z) :
  0 < Q -> 0 <= r < Q -> new_location Q r = loc_of Q r.
Proof.
  intros HQ Hr. unfold new_location, new_location_even, new_location_odd, loc_of.
  destruct (Z.even Q) eqn:Hev; [reflexivity|].
  destruct (r =? 0); [reflexivity|]. f_equal.
  assert (Hodd : Z.odd Q = true) by (rewrite <- Z.negb_even, Hev; reflexivity).
  apply Z.odd_spec in Hodd. destruct Hodd as [k Hk].
  destruct (Z.compare_spec (2 * r + 1) Q); destruct (Z.compare_spec (2 * r) Q);
    try reflexivity; lia.
Qed.

Lemma shr_record_of_loc_inj_loc (m : Z) (l : location) :
  loc_of_shr_record (shr_record_of_loc m l) = l.
Proof. destruct l as [|[| |]]; reflexivity. Qed.

Lemma rec_of_scale (P Q c : Z) :
  0 < c -> 0 < Q -> rec_of (P * c) (Q * c) = rec_of P Q.
Proof.
  intros Hc HQ. unfold rec_of, loc_of.
  rewrite Z.div_mul_cancel_r by lia.
  rewrite Zmult_mod_distr_r.
  pose proof (Z.mod_pos_bound P Q HQ) as Hr.
  destruct (Z.eqb_spec (P mod Q) 0) as [H0|H0].
  - rewrite H0. simpl. reflexivity.
  - destruct (Z.eqb_spec (P mod Q * c) 0) as [H1|H1]; [nia|].
    f_equal. f_equal.
    destruct (Z.compare_spec (2 * (P mod Q * c)) (Q * c));
      destruct (Z.compare_spec (2 * (P mod Q)) Q); try reflexivity; nia.
Qed.

Lemma rec_of_fields (P Q : Z) :
  0 < Q ->
  rec_of P Q
  = {| shr_m := P / Q;
       shr_r := Q <=? 2 * (P mod Q);
       shr_s := negb (P mod Q =? 0) && negb (2 * (P mod Q) =? Q) |}.
Proof.
  intros HQ. unfold rec_of, loc_of.
  pose proof (Z.mod_pos_bound P Q HQ) as Hr.
  destruct (Z.eqb_spec (P mod Q) 0) as [H0|H0].
  - rewrite H0. cbn [shr_record_of_loc negb andb].
    destruct (Z.leb_spec Q (2 * 0)); [lia|reflexivity].
  - cbn [negb andb].
    destruct (Z.compare_spec (2 * (P mod Q)) Q); cbn [shr_record_of_loc].
    + destruct (Z.leb_spec Q (2 * (P mod Q))); [|lia].
      destruct (Z.eqb_spec (2 * (P mod Q)) Q); [reflexivity|lia].
    + destruct (Z.leb_spec Q (2 * (P mod Q))); [lia|].
      destruct (Z.eqb_spec (2 * (P mod Q)) Q); [lia|reflexivity].
    + destruct (Z.leb_spec Q (2 * (P mod Q))); [|lia].
      destruct (Z.eqb_spec (2 * (P mod Q)) Q); [lia|reflexivity].
Qed.

(** One step to the right doubles the denominator. *)
Lemma shr_1_rec_of (P Q : Z) :
  0 <= P -> 0 < Q -> shr_1 (rec_of P Q) = rec_of P (2 * Q).
Proof.
  intros HP HQ. rewrite !rec_of_fields by lia.
  pose proof (Z.mod_pos_bound P Q HQ) as Hr.
  pose proof (Z.div_mod P Q ltac:(lia)) as HPQ.
  pose proof (Z.div_pos P Q HP HQ) as Hm.
  set (m := P / Q) in *. set (r := P mod Q) in *.
  pose proof (Z.div_mod m 2 ltac:(lia)) as Hm2.
  pose proof (Z.mod_pos_bound m 2 ltac:(lia)) as Hb.
  assert (Hq : P / (2 * Q) = m / 2).
  { symmetry. apply Z.div_unique with (r := (m mod 2) * Q + r); nia. }
  assert (Hrem : P mod (2 * Q) = (m mod 2) * Q + r).
  { symmetry. apply Z.mod_unique with (q := m / 2); nia. }
  rewrite Hq, Hrem.
  assert (Hshr : forall rb sb,
            shr_1 {| shr_m := m; shr_r := rb; shr_s := sb |}
            = {| shr_m := m / 2; shr_r := Z.odd m; shr_s := rb || sb |}).
  { intros rb sb. unfold shr_1.
    destruct m as [|p|p]; [reflexivity| |lia].
    destruct p as [p|p|]; cbn [Z.odd].
    - f_equal. rewrite Pos2Z.inj_xI. apply Z.div_unique with (r := 1); lia.
    - f_equal. rewrite Pos2Z.inj_xO. apply Z.div_unique with (r := 0); lia.
    - reflexivity. }
  rewrite Hshr. clear Hshr.
  assert (Hodd : Z.odd m = (m mod 2 =? 1)).
  { rewrite Zmod_odd. destruct (Z.odd m); reflexivity. }
  rewrite Hodd.
  assert (Hcase : m mod 2 = 0 \/ m mod 2 = 1) by lia.
  destruct Hcase as [He|He]; rewrite He;
    [change (0 =? 1) with false; rewrite Z.mul_0_l, Z.add_0_l
    |change (1 =? 1) with true].
  - f_equal.
    + destruct (Z.leb_spec (2 * Q) (2 * r)); [lia|reflexivity].
    + destruct (Z.leb_spec Q (2 * r)); destruct (Z.eqb_spec r 0);
        destruct (Z.eqb_spec (2 * r) Q); destruct (Z.eqb_spec (2 * r) (2 * Q));
        cbn [negb andb orb]; try reflexivity; lia.
  - rewrite Z.mul_1_l. f_equal.
    + destruct (Z.leb_spec (2 * Q) (2 * (Q + r))); [reflexivity|lia].
    + destruct (Z.leb_spec Q (2 * r)); destruct (Z.eqb_spec r 0);
        destruct (Z.eqb_spec (2 * r) Q); destruct (Z.eqb_spec (Q + r) 0);
        destruct (Z.eqb_spec (2 * (Q + r)) (2 * Q));
        cbn [negb andb orb]; try reflexivity; lia.
Qed.

Lemma iter_shr_rec_of (n : positive) :
  forall P Q, 0 <= P -> 0 < Q ->
    iter_pos shr_1 n (rec_of P Q) = rec_of P (Q * 2 ^ Z.pos n).
Proof.
  induction n as [n IH|n IH|]; intros P Q HP HQ; simpl iter_pos.
  - assert (Hpow : 0 < 2 ^ Z.pos n) by (apply Z.pow_pos_nonneg; lia).
    rewrite shr_1_rec_of, IH, IH by nia.
    f_equal. rewrite Pos2Z.inj_xI.
    replace (2 * Z.pos n + 1) with (1 + Z.pos n + Z.pos n) by lia.
    rewrite !Z.pow_add_r by lia. lia.
  - assert (Hpow : 0 < 2 ^ Z.pos n) by (apply Z.pow_pos_nonneg; lia).
    rewrite IH, IH by nia.
    f_equal. change (Z.pos n~0) with (2 * Z.pos n).
    replace (2 * Z.pos n) with (Z.pos n + Z.pos n) by lia.
    rewrite !Z.pow_add_r by lia. lia.
  - rewrite shr_1_rec_of by assumption. f_equal. lia.
Qed.

Lemma rnd_spec (P Q : Z) :
  0 < Q ->
  rnd P Q
  = P / Q + (if (Q <? 2 * (P mod Q)) || ((2 * (P mod Q) =? Q) && Z.odd (P / Q))
             then 1 else 0).
Proof.
  intros HQ. unfold rnd, loc_of, round_nearest_even.
  pose proof (Z.mod_pos_bound P Q HQ) as Hr.
  destruct (Z.eqb_spec (P mod Q) 0) as [H0|H0].
  - rewrite H0.
    destruct (Z.ltb_spec Q (2 * 0)); [lia|]. destruct (Z.eqb_spec (2 * 0) Q); [lia|].
    cbn [orb andb]. lia.
  - destruct (Z.compare_spec (2 * (P mod Q)) Q) as [He|Hl|Hg].
    + rewrite He, Z.ltb_irrefl, Z.eqb_refl. cbn [orb andb].
      rewrite <- Z.negb_odd. destruct (Z.odd (P / Q)); cbn [negb]; lia.
    + destruct (Z.ltb_spec Q (2 * (P mod Q))); [lia|].
      destruct (Z.eqb_spec (2 * (P mod Q)) Q); [lia|]. cbn [orb andb]. lia.
    + destruct (Z.ltb_spec Q (2 * (P mod Q))); [|lia]. cbn [orb andb]. lia.
Qed.

Lemma rnd_bounds (P Q : Z) : 0 < Q -> P / Q <= rnd P Q <= P / Q + 1.
Proof.
  intros HQ. rewrite rnd_spec by exact HQ.
  destruct ((Q <? 2 * (P mod Q)) || ((2 * (P mod Q) =? Q) && Z.odd (P / Q))); lia.
Qed.

Lemma rnd_mono (P1 P2 Q : Z) :
  0 < Q -> P1 <= P2 -> rnd P1 Q <= rnd P2 Q.
Proof.
  intros HQ Hle.
  pose proof (Z.div_le_mono P1 P2 Q HQ Hle) as Hm.
  pose proof (rnd_bounds P1 Q HQ). pose proof (rnd_bounds P2 Q HQ).
  destruct (Z.eq_dec (P1 / Q) (P2 / Q)) as [Heq|Hne]; [|lia].
  rewrite !rnd_spec by exact HQ. rewrite <- Heq.
  pose proof (Z.div_mod P1 Q ltac:(lia)). pose proof (Z.div_mod P2 Q ltac:(lia)).
  assert (Hr : P1 mod Q <= P2 mod Q) by nia.
  destruct (Z.ltb_spec Q (2 * (P1 mod Q))); destruct (Z.ltb_spec Q (2 * (P2 mod Q)));
    destruct (Z.eqb_spec (2 * (P1 mod Q)) Q); destruct (Z.eqb_spec (2 * (P2 mod Q)) Q);
    destruct (Z.odd (P1 / Q)); cbn [orb andb]; lia.
Qed.

Lemma rnd_scale (P Q c : Z) : 0 < c -> 0 < Q -> rnd (P * c) (Q * c) = rnd P Q.
Proof.
  intros Hc HQ. unfold rnd.
  pose proof (rec_of_scale P Q c Hc HQ) as H. unfold rec_of in H.
  apply (f_equal (fun r => round_nearest_even (shr_m r) (loc_of_shr_record r))) in H.
  rewrite !shr_record_of_loc_m, !shr_record_of_loc_inj_loc in H. exact H.
Qed.

Lemma Zdigits2_unique (z k : Z) :
  0 < k -> 2 ^ (k - 1) <= z < 2 ^ k -> Zdigits2 z = k.
Proof.
  intros Hk Hz.
  assert (0 < 2 ^ (k - 1)) by (apply Z.pow_pos_nonneg; lia).
  destruct z as [|p|p]; try lia.
  simpl Zdigits2.
  pose proof (digits2_pos_bounds p) as [Hlo Hhi].
  set (d := Z.pos (digits2_pos p)) in *.
  destruct (Z.lt_trichotomy d k) as [Hlt|[Heq|Hgt]]; [|exact Heq|].
  - assert (2 ^ d <= 2 ^ (k - 1)) by (apply Z.pow_le_mono_r; lia). lia.
  - assert (2 ^ k <= 2 ^ (d - 1)) by (apply Z.pow_le_mono_r; lia). lia.
Qed.

Lemma Zdigits2_bounds (z : Z) :
  0 < z -> 2 ^ (Zdigits2 z - 1) <= z < 2 ^ Zdigits2 z /\ 0 < Zdigits2 z.
Proof.
  destruct z as [|p|p]; try lia. intros _. simpl Zdigits2.
  split; [apply digits2_pos_bounds|lia].
Qed.

(** Shifting the record of [P / Q] to the format exponent. *)
Lemma shr_fexp_rec_of (P Q e : Z) :
  0 <= P -> 0 < Q -> 2 ^ 52 <= P / Q -> - 1000 <= e ->
  let n := Zdigits2 (P / Q) - 53 in
  0 <= n
  /\ shr_fexp Float64.prec Float64.emax (P / Q) e (loc_of Q (P mod Q))
     = (rec_of P (Q * 2 ^ n), e + n).
Proof.
  intros HP HQ Hm He n.
  destruct (Zdigits2_bounds (P / Q) ltac:(lia)) as [[Hlo Hhi] Hd].
  assert (Hn : 0 <= n).
  { unfold n. destruct (Z.le_gt_cases 53 (Zdigits2 (P / Q))) as [H|H]; [lia|].
    exfalso.
    assert (2 ^ Zdigits2 (P / Q) <= 2 ^ 52) by (apply Z.pow_le_mono_r; lia). lia. }
  split; [exact Hn|].
  unfold shr_fexp, shr.
  assert (Hf : fexp Float64.prec Float64.emax (Zdigits2 (P / Q) + e) - e = n).
  { unfold fexp, emin, Float64.prec, Float64.emax, n. lia. }
  rewrite Hf. fold (rec_of P Q).
  destruct n as [|k|k] eqn:Hk; [| |lia].
  - rewrite Z.pow_0_r, Z.mul_1_r, Z.add_0_r. reflexivity.
  - rewrite iter_shr_rec_of by assumption. reflexivity.
Qed.

Lemma shr_m_rec_of (P Q : Z) : shr_m (rec_of P Q) = P / Q.
Proof. unfold rec_of. apply shr_record_of_loc_m. Qed.

Lemma round_rec_of (P Q : Z) :
  round_nearest_even (shr_m (rec_of P Q)) (loc_of_shr_record (rec_of P Q)) = rnd P Q.
Proof.
  unfold rec_of, rnd. rewrite shr_record_of_loc_m, shr_record_of_loc_inj_loc. reflexivity.
Qed.

(** The rounded mantissa has 53 bits, or is [2^53]. *)
Lemma rnd_53_bits (P Q : Z) :
  0 <= P -> 0 < Q -> 2 ^ 52 <= P / Q ->
  2 ^ 52 <= rnd P (Q * 2 ^ (Zdigits2 (P / Q) - 53)) <= 2 ^ 53.
Proof.
  intros HP HQ Hm.
  destruct (shr_fexp_rec_of P Q 0 HP HQ Hm ltac:(lia)) as [Hn _].
  destruct (Zdigits2_bounds (P / Q) ltac:(lia)) as [[Hlo Hhi] Hd].
  set (n := Zdigits2 (P / Q) - 53) in *.
  assert (Hpow : 0 < 2 ^ n) by (apply Z.pow_pos_nonneg; lia).
  pose proof (rnd_bounds P (Q * 2 ^ n) ltac:(nia)) as Hb.
  rewrite <- Z.div_div in Hb by lia.
  assert (H52 : 2 ^ (Zdigits2 (P / Q) - 1) = 2 ^ 52 * 2 ^ n).
  { rewrite <- Z.pow_add_r by lia. f_equal. unfold n. lia. }
  assert (H53 : 2 ^ Zdigits2 (P / Q) = 2 ^ 53 * 2 ^ n).
  { rewrite <- Z.pow_add_r by lia. f_equal. unfold n. lia. }
  assert (Hq : 2 ^ 52 <= P / Q / 2 ^ n < 2 ^ 53).
  { split.
    - apply Z.div_le_lower_bound; lia.
    - apply Z.div_lt_upper_bound; lia. }
  lia.
Qed.

(** What [binary_round_aux] computes on the record of a quotient of at
    least 53 bits. *)
Lemma binary_round_aux_rn (s : bool) (P Q e : Z) :
  0 <= P -> 0 < Q -> 2 ^ 52 <= P / Q ->
  - 1000 <= e -> e + Zdigits2 (P / Q) <= 1000 ->
  binary_round_aux Float64.prec Float64.emax s (P / Q) e (loc_of Q (P mod Q))
  = rn_float s P Q e.
Proof.
  intros HP HQ Hm He Hhi.
  destruct (shr_fexp_rec_of P Q e HP HQ Hm He) as [Hn Hshr].
  pose proof (rnd_53_bits P Q HP HQ Hm) as Hr.
  unfold binary_round_aux, rn_float. rewrite Hshr, round_rec_of.
  set (n := Zdigits2 (P / Q) - 53) in *.
  set (m' := rnd P (Q * 2 ^ n)) in *.
  destruct (Z.ltb_spec m' (2 ^ 53)) as [Hlt|Hge].
  - assert (Hd : Zdigits2 m' = 53) by (apply Zdigits2_unique; [lia|split; [exact (proj1 Hr)|exact Hlt]]).
    unfold shr_fexp, shr. rewrite Hd.
    replace (fexp Float64.prec Float64.emax (53 + (e + n)) - (e + n)) with 0
      by (unfold fexp, emin, Float64.prec, Float64.emax; lia).
    cbn [shr_record_of_loc shr_m].
    destruct m' as [|p|p]; try lia.
    replace (e + n <=? Float64.emax - Float64.prec) with true
      by (symmetry; apply Z.leb_le; unfold Float64.emax, Float64.prec, n; lia).
    reflexivity.
  - assert (Hm' : m' = 2 ^ 53) by lia. rewrite Hm'.
    unfold shr_fexp, shr.
    change (Zdigits2 (2 ^ 53)) with 54.
    replace (fexp Float64.prec Float64.emax (54 + (e + n)) - (e + n)) with 1
      by (unfold fexp, emin, Float64.prec, Float64.emax; lia).
    cbn [shr_record_of_loc iter_pos]. 
    change (shr_1 {| shr_m := 2 ^ 53; shr_r := false; shr_s := false |})
      with {| shr_m := 2 ^ 52; shr_r := false; shr_s := false |}.
    cbn [shr_m]. change (2 ^ 52) with (Z.pos (Z.to_pos (2 ^ 52))) at 1.
    cbv iota beta.
    replace (e + n + 1 <=? Float64.emax - Float64.prec) with true
      by (symmetry; apply Z.leb_le; unfold Float64.emax, Float64.prec, n; lia).
    reflexivity.
Qed.

(** *** Order of normal numbers *)

Lemma quotient_digits (P Q j : Z) :
  0 < Q -> 0 < j -> 2 ^ (j - 1) * Q <= P < 2 ^ j * Q -> Zdigits2 (P / Q) = j.
Proof.
  intros HQ Hj [Hlo Hhi]. apply Zdigits2_unique; [exact Hj|]. split.
  - apply Z.div_le_lower_bound; lia.
  - apply Z.div_lt_upper_bound; lia.
Qed.

Lemma quotient_digits_inv (P Q : Z) :
  0 < Q -> 0 < P / Q ->
  2 ^ (Zdigits2 (P / Q) - 1) * Q <= P < 2 ^ Zdigits2 (P / Q) * Q.
Proof.
  intros HQ Hm.
  destruct (Zdigits2_bounds (P / Q) Hm) as [[Hlo Hhi] _].
  pose proof (Z.div_mod P Q ltac:(lia)) as HPQ.
  pose proof (Z.mod_pos_bound P Q HQ) as Hr.
  split; nia.
Qed.

Lemma Zdigits2_mono (x y : Z) : 0 < x -> x <= y -> Zdigits2 x <= Zdigits2 y.
Proof.
  intros Hx Hxy.
  destruct (Zdigits2_bounds x Hx) as [[Hlo _] Hdx].
  destruct (Zdigits2_bounds y ltac:(lia)) as [[_ Hhi] Hdy].
  destruct (Z.le_gt_cases (Zdigits2 x) (Zdigits2 y)) as [H|H]; [exact H|].
  exfalso.
  assert (2 ^ Zdigits2 y <= 2 ^ (Zdigits2 x - 1)) by (apply Z.pow_le_mono_r; lia).
  lia.
Qed.

(** The value [P / Q * 2^e] can be written with a numerator scaled up and
    an exponent scaled down. *)
Lemma rn_float_scale (s : bool) (P Q e k : Z) :
  0 < Q -> 2 ^ 52 <= P / Q -> 0 <= k ->
  rn_float s (P * 2 ^ k) Q (e - k) = rn_float s P Q e.
Proof.
  intros HQ Hm Hk. unfold rn_float.
  assert (Hpow : 0 < 2 ^ k) by (apply Z.pow_pos_nonneg; lia).
  assert (Hm0 : 0 < P / Q) by lia.
  destruct (Zdigits2_bounds (P / Q) Hm0) as [[_ Hhi'] Hd].
  pose proof (quotient_digits_inv P Q HQ Hm0) as [Hlo Hhi].
  assert (H53 : 53 <= Zdigits2 (P / Q)).
  { destruct (Z.le_gt_cases 53 (Zdigits2 (P / Q))) as [H|H]; [exact H|].
    exfalso.
    assert (2 ^ Zdigits2 (P / Q) <= 2 ^ 52) by (apply Z.pow_le_mono_r; lia). lia. }
  assert (Hdig : Zdigits2 (P * 2 ^ k / Q) = Zdigits2 (P / Q) + k).
  { apply quotient_digits; [exact HQ|lia|].
    replace (Zdigits2 (P / Q) + k - 1) with (Zdigits2 (P / Q) - 1 + k) by lia.
    rewrite !Z.pow_add_r by lia. split; nia. }
  rewrite Hdig.
  replace (Zdigits2 (P / Q) + k - 53) with (Zdigits2 (P / Q) - 53 + k) by lia.
  rewrite Z.pow_add_r by lia.
  rewrite Z.mul_assoc, rnd_scale
    by (try apply Z.mul_pos_pos; try apply Z.pow_pos_nonneg; lia).
  replace (e - k + (Zdigits2 (P / Q) - 53 + k)) with (e + (Zdigits2 (P / Q) - 53)) by lia.
  reflexivity.
Qed.

Lemma digits_at_least_53 (z : Z) : 2 ^ 52 <= z -> 53 <= Zdigits2 z.
Proof.
  intros Hz. destruct (Zdigits2_bounds z ltac:(lia)) as [[_ Hhi] _].
  destruct (Z.le_gt_cases 53 (Zdigits2 z)) as [H|H]; [exact H|].
  exfalso. assert (2 ^ Zdigits2 z <= 2 ^ 52) by (apply Z.pow_le_mono_r; lia). lia.
Qed.

(** The result of the rounding is a normal number whose exponent is the
    format exponent of the quotient, or the next one. *)
Lemma rn_float_normal (P Q e B : Z) :
  0 <= P -> 0 < Q -> 2 ^ 52 <= P / Q ->
  - B <= e + (Zdigits2 (P / Q) - 53) -> e + (Zdigits2 (P / Q) - 53) + 1 <= B ->
  normal_in B (rn_float false P Q e)
  /\ e + (Zdigits2 (P / Q) - 53) <= fexpo (rn_float false P Q e)
     <= e + (Zdigits2 (P / Q) - 53) + 1.
Proof.
  intros HP HQ Hm Hlo Hhi.
  pose proof (rnd_53_bits P Q HP HQ Hm) as Hr.
  unfold rn_float, normal_in.
  destruct (Z.ltb_spec (rnd P (Q * 2 ^ (Zdigits2 (P / Q) - 53))) (2 ^ 53)) as [Hlt|Hge];
    cbn [fmant fexpo].
  - rewrite !Z2Pos.id by lia. repeat split; lia.
  - change (Z.pos (Z.to_pos (2 ^ 52))) with (2 ^ 52). repeat split; lia.
Qed.

(** Rounding is monotone in the numerator. *)
Lemma rn_float_mono (P1 P2 Q e : Z) :
  0 <= P1 -> P1 <= P2 -> 0 < Q -> 2 ^ 52 <= P1 / Q ->
  nle (rn_float false P1 Q e) (rn_float false P2 Q e).
Proof.
  intros HP1 Hle HQ Hm1.
  pose proof (Z.div_le_mono P1 P2 Q HQ Hle) as Hm.
  assert (Hm2 : 2 ^ 52 <= P2 / Q) by lia.
  pose proof (rnd_53_bits P1 Q HP1 HQ Hm1) as Hr1.
  pose proof (rnd_53_bits P2 Q ltac:(lia) HQ Hm2) as Hr2.
  pose proof (Zdigits2_mono (P1 / Q) (P2 / Q) ltac:(lia) Hm) as Hd.
  pose proof (digits_at_least_53 _ Hm1) as H53.
  unfold nle, rn_float.
  set (n1 := Zdigits2 (P1 / Q) - 53) in *.
  set (n2 := Zdigits2 (P2 / Q) - 53) in *.
  assert (Hcase : n1 = n2 \/ n1 < n2) by lia.
  destruct Hcase as [Heq|Hlt].
  - rewrite <- Heq in *.
    assert (Hpow : 0 < 2 ^ n1) by (apply Z.pow_pos_nonneg; lia).
    pose proof (rnd_mono P1 P2 (Q * 2 ^ n1) ltac:(nia) Hle) as Hrm.
    destruct (Z.ltb_spec (rnd P1 (Q * 2 ^ n1)) (2 ^ 53));
      destruct (Z.ltb_spec (rnd P2 (Q * 2 ^ n1)) (2 ^ 53)); cbn [fmant fexpo];
      rewrite ?Z2Pos.id by lia; lia.
  - destruct (Z.ltb_spec (rnd P1 (Q * 2 ^ n1)) (2 ^ 53));
      destruct (Z.ltb_spec (rnd P2 (Q * 2 ^ n2)) (2 ^ 53)); cbn [fmant fexpo];
      rewrite ?Z2Pos.id by lia; change (Z.pos (Z.to_pos (2 ^ 52))) with (2 ^ 52); lia.
Qed.

Lemma rn_float_opp (P Q e : Z) :
  rn_float true P Q e = SFopp (rn_float false P Q e).
Proof.
  unfold rn_float.
  destruct (rnd P (Q * 2 ^ (Zdigits2 (P / Q) - 53)) <? 2 ^ 53); reflexivity.
Qed.

(** The order of normal numbers is the order [SFleb] computes. *)
Lemma nle_SFleb (B : Z) (f g : spec_float) :
  normal_in B f -> normal_in B g -> nle f g -> SFleb f g = true.
Proof.
  intros [Hf [Hmf _]] [Hg [Hmg _]] Hle.
  rewrite Hf, Hg. unfold SFleb, SFcompare.
  destruct Hle as [Hlt | [Heq Hm]].
  - rewrite (proj2 (Z.compare_lt_iff _ _) Hlt). reflexivity.
  - rewrite Heq, Z.compare_refl.
    change (Pos.compare_cont Eq (Z.to_pos (fmant f)) (Z.to_pos (fmant g)))
      with (Pos.compare (Z.to_pos (fmant f)) (Z.to_pos (fmant g))).
    rewrite <- Z2Pos.inj_compare by lia.
    destruct (Z.compare_spec (fmant f) (fmant g)); try reflexivity. lia.
Qed.

Lemma nle_SFleb_opp (B : Z) (f g : spec_float) :
  normal_in B f -> normal_in B g -> nle f g -> SFleb (SFopp g) (SFopp f) = true.
Proof.
  intros [Hf [Hmf _]] [Hg [Hmg _]] Hle.
  rewrite Hf, Hg. unfold SFleb, SFcompare, SFopp. cbn [negb].
  destruct Hle as [Hlt | [Heq Hm]].
  - rewrite (proj2 (Z.compare_gt_iff _ _) Hlt). reflexivity.
  - rewrite Heq, Z.compare_refl.
    change (Pos.compare_cont Eq (Z.to_pos (fmant g)) (Z.to_pos (fmant f)))
      with (Pos.compare (Z.to_pos (fmant g)) (Z.to_pos (fmant f))).
    rewrite <- Z2Pos.inj_compare by lia.
    destruct (Z.compare_spec (fmant g) (fmant f)); try reflexivity. lia.
Qed.

(** *** The three operations of the percentage as roundings *)

Lemma binary_round_rn (s : bool) (p : positive) :
  Z.pos p < 2 ^ 64 ->
  binary_round Float64.prec Float64.emax s p 0
  = rn_float s (Z.pos p * 2 ^ 53) 1 (- 53).
Proof.
  intros Hp. unfold binary_round, shl_align.
  pose proof (digits2_pos_bounds p) as [Hlo Hhi].
  set (d := Z.pos (digits2_pos p)) in *.
  assert (Hd : 0 < d <= 64).
  { split; [unfold d; lia|].
    destruct (Z.le_gt_cases d 64) as [H|H]; [exact H|]. exfalso.
    assert (2 ^ 64 <= 2 ^ (d - 1)) by (apply Z.pow_le_mono_r; lia). lia. }
  replace (fexp Float64.prec Float64.emax (d + 0)) with (d - 53)
    by (unfold fexp, emin, Float64.prec, Float64.emax; lia).
  assert (Hexact : forall z, 0 < z -> loc_Exact = loc_of 1 (z mod 1) /\ z = z / 1).
  { intros z Hz. rewrite Z.mod_1_r, Z.div_1_r. split; reflexivity. }
  destruct (d - 53 - 0) as [|k|k] eqn:Hk.
  - (* exactly 53 bits *)
    destruct (Hexact (Z.pos p) ltac:(lia)) as [Hl Hq].
    rewrite Hl. rewrite Hq at 1.
    assert (H52 : 2 ^ 52 <= Z.pos p) by (replace (d - 1) with 52 in Hlo by lia; exact Hlo).
    rewrite binary_round_aux_rn; rewrite ?Z.div_1_r; try lia.
    + rewrite <- (rn_float_scale s (Z.pos p) 1 0 53) by (rewrite ?Z.div_1_r; lia).
      reflexivity.
    + simpl Zdigits2. fold d. lia.
  - (* more than 53 bits *)
    destruct (Hexact (Z.pos p) ltac:(lia)) as [Hl Hq].
    rewrite Hl. rewrite Hq at 1.
    assert (H52 : 2 ^ 52 <= Z.pos p).
    { assert (2 ^ 52 <= 2 ^ (d - 1)) by (apply Z.pow_le_mono_r; lia). lia. }
    rewrite binary_round_aux_rn; rewrite ?Z.div_1_r; try lia.
    + rewrite <- (rn_float_scale s (Z.pos p) 1 0 53) by (rewrite ?Z.div_1_r; lia).
      reflexivity.
    + simpl Zdigits2. fold d. lia.
  - (* fewer than 53 bits: the mantissa is shifted left first *)
    rewrite pos_iter_xO.
    assert (Hkd : Z.pos k = 53 - d) by lia.
    assert (Hpow : 0 < 2 ^ Z.pos k) by (apply Z.pow_pos_nonneg; lia).
    assert (H52 : 2 ^ 52 <= Z.pos p * 2 ^ Z.pos k).
    { replace 52 with (d - 1 + Z.pos k) by lia. rewrite Z.pow_add_r by lia. nia. }
    destruct (Hexact (Z.pos p * 2 ^ Z.pos k) ltac:(lia)) as [Hl Hq].
    rewrite Hl. rewrite Hq at 1.
    assert (H53 : Z.pos p * 2 ^ Z.pos k < 2 ^ 53).
    { replace 53 with (d + Z.pos k) by lia. rewrite Z.pow_add_r by lia. nia. }
    rewrite binary_round_aux_rn; rewrite ?Z.div_1_r; try lia.
    + rewrite <- (rn_float_scale s (Z.pos p * 2 ^ Z.pos k) 1 (d - 53) d)
        by (rewrite ?Z.div_1_r; lia).
      f_equal; [|lia].
      rewrite <- Z.mul_assoc, <- Z.pow_add_r by lia. do 2 f_equal. lia.
    + rewrite (Zdigits2_unique (Z.pos p * 2 ^ Z.pos k) 53); lia.
Qed.

Lemma div_rn (sx sc : bool) (mx mc : positive) (ex ec : Z) :
  2 ^ 52 <= Z.pos mx < 2 ^ 53 ->
  2 ^ 52 <= Z.pos mc < 2 ^ 53 ->
  - 400 <= ex <= 400 -> - 400 <= ec <= 400 ->
  Float64.div (S754_finite sx mx ex) (S754_finite sc mc ec)
  = rn_float (xorb sx sc) (Z.pos mx * 2 ^ 53) (Z.pos mc) (ex - ec - 53).
Proof.
  intros Hmx Hmc Hex Hec.
  unfold Float64.div, SFdiv, SFdiv_core_binary.
  rewrite (Zdigits2_unique (Z.pos mx) 53), (Zdigits2_unique (Z.pos mc) 53) by lia.
  replace (53 + ex - (53 + ec)) with (ex - ec) by lia.
  replace (Z.min (fexp Float64.prec Float64.emax (ex - ec)) (ex - ec))
    with (ex - ec - 53)
    by (unfold fexp, emin, Float64.prec, Float64.emax; lia).
  replace (ex - ec - (ex - ec - 53)) with 53 by lia.
  rewrite Z.shiftl_mul_pow2 by lia.
  rewrite (surjective_pairing (Z.div_eucl (Z.pos mx * 2 ^ 53) (Z.pos mc))).
  change (fst (Z.div_eucl (Z.pos mx * 2 ^ 53) (Z.pos mc)))
    with (Z.pos mx * 2 ^ 53 / Z.pos mc).
  change (snd (Z.div_eucl (Z.pos mx * 2 ^ 53) (Z.pos mc)))
    with ((Z.pos mx * 2 ^ 53) mod Z.pos mc).
  rewrite new_location_loc_of by (try apply Z.mod_pos_bound; lia).
  assert (Hq : 2 ^ 52 <= Z.pos mx * 2 ^ 53 / Z.pos mc < 2 ^ 54).
  { split.
    - apply Z.div_le_lower_bound; [lia|]. nia.
    - apply Z.div_lt_upper_bound; [lia|].
      change (2 ^ 54) with (2 ^ 52 * 4). change (2 ^ 53) with (2 ^ 52 * 2) at 1. nia. }
  apply binary_round_aux_rn; try lia.
  assert (Zdigits2 (Z.pos mx * 2 ^ 53 / Z.pos mc) <= 54); [|lia].
  destruct (Zdigits2_bounds (Z.pos mx * 2 ^ 53 / Z.pos mc) ltac:(lia)) as [[Hlo _] _].
  destruct (Z.le_gt_cases (Zdigits2 (Z.pos mx * 2 ^ 53 / Z.pos mc)) 54) as [H|H];
    [exact H|].
  exfalso.
  assert (2 ^ 54 <= 2 ^ (Zdigits2 (Z.pos mx * 2 ^ 53 / Z.pos mc) - 1))
    by (apply Z.pow_le_mono_r; lia).
  lia.
Qed.

Lemma mul_rn (sx sh : bool) (mx mh : positive) (ex eh : Z) :
  2 ^ 52 <= Z.pos mx < 2 ^ 53 ->
  2 ^ 52 <= Z.pos mh < 2 ^ 53 ->
  - 400 <= ex <= 400 -> - 400 <= eh <= 400 ->
  Float64.mul (S754_finite sx mx ex) (S754_finite sh mh eh)
  = rn_float (xorb sx sh) (Z.pos mx * Z.pos mh) 1 (ex + eh).
Proof.
  intros Hmx Hmh Hex Heh.
  unfold Float64.mul, SFmul.
  rewrite Pos2Z.inj_mul.
  assert (Hp : 2 ^ 104 <= Z.pos mx * Z.pos mh < 2 ^ 106).
  { change (2 ^ 104) with (2 ^ 52 * 2 ^ 52). change (2 ^ 106) with (2 ^ 53 * 2 ^ 53).
    split; nia. }
  assert (H52 : 2 ^ 52 <= Z.pos mx * Z.pos mh).
  { assert (2 ^ 52 <= 2 ^ 104) by (apply Z.pow_le_mono_r; lia). lia. }
  replace loc_Exact with (loc_of 1 ((Z.pos mx * Z.pos mh) mod 1))
    by (rewrite Z.mod_1_r; reflexivity).
  rewrite <- (Z.div_1_r (Z.pos mx * Z.pos mh)) at 1.
  apply binary_round_aux_rn; rewrite ?Z.div_1_r; try lia.
  assert (Zdigits2 (Z.pos mx * Z.pos mh) <= 106); [|lia].
  destruct (Zdigits2_bounds (Z.pos mx * Z.pos mh) ltac:(lia)) as [[Hlo _] _].
  destruct (Z.le_gt_cases (Zdigits2 (Z.pos mx * Z.pos mh)) 106) as [H|H]; [exact H|].
  exfalso.
  assert (2 ^ 106 <= 2 ^ (Zdigits2 (Z.pos mx * Z.pos mh) - 1))
    by (apply Z.pow_le_mono_r; lia).
  lia.
Qed.

(** *** Monotonicity of the percentage *)

Lemma digits_le (z k : Z) : 0 < z -> 0 <= k -> z < 2 ^ k -> Zdigits2 z <= k.
Proof.
  intros Hz Hk Hlt.
  destruct (Zdigits2_bounds z Hz) as [[Hlo _] _].
  destruct (Z.le_gt_cases (Zdigits2 z) k) as [H|H]; [exact H|]. exfalso.
  assert (2 ^ k <= 2 ^ (Zdigits2 z - 1)) by (apply Z.pow_le_mono_r; lia). lia.
Qed.

Lemma normal_in_weaken (B B' : Z) (f : spec_float) :
  B <= B' -> normal_in B f -> normal_in B' f.
Proof. unfold normal_in. intros HB [H1 [H2 H3]]. repeat split; try assumption; lia. Qed.

Lemma normal_in_finite (B : Z) (f : spec_float) :
  normal_in B f ->
  exists m, f = S754_finite false m (fexpo f) /\ Z.pos m = fmant f.
Proof.
  intros [Hf [Hm _]]. exists (Z.to_pos (fmant f)).
  split; [exact Hf|]. apply Z2Pos.id. lia.
Qed.

Lemma nle_scaled (B : Z) (f g : spec_float) :
  normal_in B f -> normal_in B g -> nle f g ->
  0 <= fexpo g - fexpo f
  /\ fmant f <= fmant g * 2 ^ (fexpo g - fexpo f).
Proof.
  intros [_ [Hmf _]] [_ [Hmg _]] [Hlt | [Heq Hm]].
  - split; [lia|].
    assert (2 ^ 1 <= 2 ^ (fexpo g - fexpo f)) by (apply Z.pow_le_mono_r; lia).
    change (2 ^ 1) with 2 in *. change (2 ^ 53) with (2 ^ 52 * 2) in *. nia.
  - rewrite Heq, Z.sub_diag. change (2 ^ 0) with 1. lia.
Qed.

Lemma of_int_pos (a : Z) :
  0 < a < 2 ^ 64 ->
  Float64.of_int a = rn_float false (a * 2 ^ 53) 1 (- 53)
  /\ normal_in 64 (Float64.of_int a).
Proof.
  intros Ha.
  assert (Heq : Float64.of_int a = rn_float false (a * 2 ^ 53) 1 (- 53)).
  { destruct a as [|p|p]; try lia.
    unfold Float64.of_int, binary_normalize. apply binary_round_rn. lia. }
  split; [exact Heq|]. rewrite Heq.
  assert (H52 : 2 ^ 52 <= a * 2 ^ 53) by (change (2 ^ 53) with (2 ^ 52 * 2); nia).
  assert (Hhi : a * 2 ^ 53 < 2 ^ 117) by (change (2 ^ 117) with (2 ^ 64 * 2 ^ 53); nia).
  pose proof (digits_at_least_53 _ H52).
  pose proof (digits_le (a * 2 ^ 53) 117 ltac:(lia) ltac:(lia) Hhi).
  apply rn_float_normal; rewrite ?Z.div_1_r; lia.
Qed.

Lemma of_int_neg (a : Z) :
  0 < a < 2 ^ 64 -> Float64.of_int (- a) = SFopp (Float64.of_int a).
Proof.
  intros Ha. destruct a as [|p|p]; try lia.
  change (- Z.pos p) with (Z.neg p).
  unfold Float64.of_int, binary_normalize.
  rewrite !binary_round_rn by lia. apply rn_float_opp.
Qed.

Lemma of_int_mono (a b : Z) :
  0 < a -> a <= b -> b < 2 ^ 64 -> nle (Float64.of_int a) (Float64.of_int b).
Proof.
  intros Ha Hab Hb.
  destruct (of_int_pos a ltac:(lia)) as [-> _].
  destruct (of_int_pos b ltac:(lia)) as [-> _].
  apply rn_float_mono; rewrite ?Z.div_1_r; lia.
Qed.

Section Stages.
Variables X Y C : spec_float.
Hypothesis HX : normal_in 200 X.
Hypothesis HY : normal_in 200 Y.
Hypothesis HC : normal_in 64 C.
Hypothesis Hle : nle X Y.

Lemma div_stage :
  normal_in 400 (Float64.div X C)
  /\ normal_in 400 (Float64.div Y C)
  /\ nle (Float64.div X C) (Float64.div Y C)
  /\ Float64.div (SFopp X) C = SFopp (Float64.div X C).
Proof.
  destruct (nle_scaled 200 X Y HX HY Hle) as [Hk Hm].
  destruct (normal_in_finite _ _ HX) as [mx [EX Hmx]].
  destruct (normal_in_finite _ _ HY) as [my [EY Hmy]].
  destruct (normal_in_finite _ _ HC) as [mc [EC Hmc]].
  destruct HX as [_ [HmX HeX]]. destruct HY as [_ [HmY HeY]].
  destruct HC as [_ [HmC HeC]].
  rewrite EX, EY, EC. cbn [SFopp].
  rewrite !div_rn by lia. cbn [xorb negb].
  rewrite Hmx, Hmy, Hmc.
  set (Q := fmant C) in *.
  assert (Hq : forall m, 2 ^ 52 <= m < 2 ^ 53 ->
             2 ^ 52 <= m * 2 ^ 53 / Q
             /\ 53 <= Zdigits2 (m * 2 ^ 53 / Q) <= 54).
  { intros m Hmm.
    assert (H1 : 2 ^ 52 <= m * 2 ^ 53 / Q) by (apply Z.div_le_lower_bound; [lia|nia]).
    assert (H2 : m * 2 ^ 53 / Q < 2 ^ 54).
    { apply Z.div_lt_upper_bound; [lia|].
      change (2 ^ 54) with (2 ^ 52 * 4). change (2 ^ 53) with (2 ^ 52 * 2) at 1. nia. }
    split; [exact H1|]. split; [apply digits_at_least_53; exact H1|].
    apply digits_le; lia. }
  destruct (Hq (fmant X) HmX) as [HqX HdX].
  destruct (Hq (fmant Y) HmY) as [HqY HdY].
  split; [|split; [|split]].
  - apply rn_float_normal; lia.
  - apply rn_float_normal; lia.
  - rewrite <- (rn_float_scale false (fmant Y * 2 ^ 53) Q (fexpo Y - fexpo C - 53)
                               (fexpo Y - fexpo X)) by lia.
    replace (fexpo Y - fexpo C - 53 - (fexpo Y - fexpo X))
      with (fexpo X - fexpo C - 53) by lia.
    apply rn_float_mono; lia || nia.
  - apply rn_float_opp.
Qed.

Lemma mul_stage :
  normal_in 400 (Float64.mul X C)
  /\ normal_in 400 (Float64.mul Y C)
  /\ nle (Float64.mul X C) (Float64.mul Y C)
  /\ Float64.mul (SFopp X) C = SFopp (Float64.mul X C).
Proof.
  destruct (nle_scaled 200 X Y HX HY Hle) as [Hk Hm].
  destruct (normal_in_finite _ _ HX) as [mx [EX Hmx]].
  destruct (normal_in_finite _ _ HY) as [my [EY Hmy]].
  destruct (normal_in_finite _ _ HC) as [mc [EC Hmc]].
  destruct HX as [_ [HmX HeX]]. destruct HY as [_ [HmY HeY]].
  destruct HC as [_ [HmC HeC]].
  rewrite EX, EY, EC. cbn [SFopp].
  rewrite !mul_rn by lia. cbn [xorb negb].
  rewrite Hmx, Hmy, Hmc.
  set (Q := fmant C) in *.
  assert (Hq : forall m, 2 ^ 52 <= m < 2 ^ 53 ->
             2 ^ 52 <= m * Q / 1
             /\ 105 <= Zdigits2 (m * Q / 1) <= 106).
  { intros m Hmm. rewrite Z.div_1_r.
    assert (H1 : 2 ^ 104 <= m * Q) by (change (2 ^ 104) with (2 ^ 52 * 2 ^ 52); nia).
    assert (H2 : m * Q < 2 ^ 106) by (change (2 ^ 106) with (2 ^ 53 * 2 ^ 53); nia).
    assert (2 ^ 52 <= 2 ^ 104) by (apply Z.pow_le_mono_r; lia).
    split; [lia|]. split; [|apply digits_le; lia].
    destruct (Zdigits2_bounds (m * Q) ltac:(lia)) as [[_ Hhi] _].
    destruct (Z.le_gt_cases 105 (Zdigits2 (m * Q))) as [H'|H']; [exact H'|]. exfalso.
    assert (2 ^ Zdigits2 (m * Q) <= 2 ^ 104) by (apply Z.pow_le_mono_r; lia). lia. }
  destruct (Hq (fmant X) HmX) as [HqX HdX].
  destruct (Hq (fmant Y) HmY) as [HqY HdY].
  split; [|split; [|split]].
  - apply rn_float_normal; lia.
  - apply rn_float_normal; lia.
  - rewrite <- (rn_float_scale false (fmant Y * Q) 1 (fexpo Y + fexpo C)
                               (fexpo Y - fexpo X)) by lia.
    replace (fexpo Y + fexpo C - (fexpo Y - fexpo X))
      with (fexpo X + fexpo C) by lia.
    apply rn_float_mono; rewrite ?Z.div_1_r; lia || nia.
  - apply rn_float_opp.
Qed.

End Stages.

Lemma nle_refl (f : spec_float) : nle f f.
Proof. right. split; [reflexivity|lia]. Qed.

(** The percentage of a positive difference is a normal number, and it
    grows with the difference. *)
Lemma pct_pos (a b c : Z) :
  0 < a -> a <= b -> b < 2 ^ 64 -> 0 < c < 2 ^ 64 ->
  normal_in 400 (pct a c) /\ normal_in 400 (pct b c)
  /\ nle (pct a c) (pct b c)
  /\ pct (- a) c = SFopp (pct a c).
Proof.
  intros Ha Hab Hb Hc. unfold pct.
  destruct (of_int_pos a ltac:(lia)) as [_ Na].
  destruct (of_int_pos b ltac:(lia)) as [_ Nb].
  destruct (of_int_pos c Hc) as [_ Nc].
  destruct (of_int_pos 100 ltac:(lia)) as [_ Nh].
  pose proof (of_int_mono a b Ha Hab Hb) as Hab'.
  destruct (div_stage _ _ _ (normal_in_weaken 64 200 _ ltac:(lia) Na)
              (normal_in_weaken 64 200 _ ltac:(lia) Nb) Nc Hab')
    as [Da [Db [Dab Dopp]]].
  assert (Hbound : forall x, 0 < x < 2 ^ 64 ->
            normal_in 200 (Float64.div (Float64.of_int x) (Float64.of_int c))).
  { intros x Hx.
    destruct (of_int_pos x Hx) as [_ Nx].
    destruct (normal_in_finite _ _ Nx) as [mx [EX Hmx]].
    destruct (normal_in_finite _ _ Nc) as [mc [EC Hmc]].
    destruct Nx as [_ [HmX HeX]]. destruct Nc as [_ [HmC HeC]].
    rewrite EX, EC, div_rn by lia. cbn [xorb]. rewrite Hmx, Hmc.
    assert (H1 : 2 ^ 52 <= fmant (Float64.of_int x) * 2 ^ 53 / fmant (Float64.of_int c))
      by (apply Z.div_le_lower_bound; [lia|nia]).
    assert (H2 : fmant (Float64.of_int x) * 2 ^ 53 / fmant (Float64.of_int c) < 2 ^ 54).
    { apply Z.div_lt_upper_bound; [lia|].
      change (2 ^ 54) with (2 ^ 52 * 4). change (2 ^ 53) with (2 ^ 52 * 2) at 1. nia. }
    pose proof (digits_at_least_53 _ H1).
    assert (Zdigits2 (fmant (Float64.of_int x) * 2 ^ 53 / fmant (Float64.of_int c)) <= 54)
      by (apply digits_le; lia).
    apply rn_float_normal; lia. }
  destruct (mul_stage _ _ _ (Hbound a ltac:(lia)) (Hbound b ltac:(lia)) Nh Dab)
    as [Ma [Mb [Mab Mopp]]].
  split; [exact Ma|]. split; [exact Mb|]. split; [exact Mab|].
  rewrite of_int_neg by lia. rewrite Dopp. exact Mopp.
Qed.

Lemma pct_zero (c : Z) : 0 < c < 2 ^ 64 -> pct 0 c = S754_zero false.
Proof.
  intros Hc. unfold pct.
  destruct (of_int_pos c Hc) as [_ Nc].
  destruct (normal_in_finite _ _ Nc) as [mc [EC _]].
  rewrite EC. reflexivity.
Qed.

(** For a positive divisor the percentage never decreases when the
    dividend grows. *)
Lemma pct_mono (a b c : Z) :
  - 2 ^ 64 < a -> a <= b -> b < 2 ^ 64 -> 0 < c < 2 ^ 64 ->
  SFleb (pct a c) (pct b c) = true.
Proof.
  intros Ha Hab Hb Hc.
  assert (Hsign : forall x, - 2 ^ 64 < x < 2 ^ 64 ->
            (0 < x /\ normal_in 400 (pct x c))
            \/ (x = 0 /\ pct x c = S754_zero false)
            \/ (x < 0 /\ normal_in 400 (pct (- x) c)
                /\ pct x c = SFopp (pct (- x) c))).
  { intros x Hx. destruct (Z.lt_trichotomy x 0) as [Hn|[Hz|Hp]].
    - right. right. split; [exact Hn|].
      destruct (pct_pos (- x) (- x) c ltac:(lia) ltac:(lia) ltac:(lia) Hc)
        as [N [_ [_ Ho]]].
      split; [exact N|]. rewrite Z.opp_involutive in Ho. exact Ho.
    - right. left. split; [exact Hz|]. subst x. apply pct_zero, Hc.
    - left. split; [exact Hp|].
      destruct (pct_pos x x c Hp ltac:(lia) ltac:(lia) Hc) as [N _]. exact N. }
  assert (Hpos_form : forall f, normal_in 400 f ->
            exists m e, f = S754_finite false m e).
  { intros f [Hf _]. eauto. }
  destruct (Hsign a ltac:(lia)) as [[Ha0 Na]|[[Ha0 Za]|[Ha0 [Na Oa]]]];
    destruct (Hsign b ltac:(lia)) as [[Hb0 Nb]|[[Hb0 Zb]|[Hb0 [Nb Ob]]]]; try lia.
  - destruct (pct_pos a b c Ha0 Hab Hb Hc) as [_ [_ [Hn _]]].
    exact (nle_SFleb 400 _ _ Na Nb Hn).
  - rewrite Za. destruct (Hpos_form _ Nb) as [m [e ->]]. reflexivity.
  - rewrite Za, Zb. reflexivity.
  - rewrite Oa.
    destruct (Hpos_form _ Na) as [m [e ->]]. destruct (Hpos_form _ Nb) as [m' [e' ->]].
    reflexivity.
  - rewrite Oa, Zb. destruct (Hpos_form _ Na) as [m [e ->]]. reflexivity.
  - rewrite Oa, Ob.
    destruct (pct_pos (- b) (- a) c ltac:(lia) ltac:(lia) ltac:(lia) Hc)
      as [_ [_ [Hn _]]].
    exact (nle_SFleb_opp 400 _ _ Nb Na Hn).
Qed.

(** The conversion of a non-zero integer of less than 64 bits is a
    finite, non-zero float64. *)
Lemma of_int_finite (z : Z) :
  z <> 0 -> - 2 ^ 64 < z < 2 ^ 64 ->
  exists s m e, Float64.of_int z = S754_finite s m e.
Proof.
  intros Hz Hr.
  destruct (Z.lt_trichotomy z 0) as [Hn|[H0|Hp]]; [|contradiction|].
  - destruct (of_int_pos (- z) ltac:(lia)) as [_ [Hf _]].
    pose proof (of_int_neg (- z) ltac:(lia)) as Ho.
    rewrite Z.opp_involutive in Ho. rewrite Ho, Hf. cbn [SFopp]. eauto.
  - destruct (of_int_pos z ltac:(lia)) as [_ [Hf _]]. rewrite Hf. eauto.
Qed.

Lemma wrap64_nonzero (z : Z) : z <> 0 -> - 2 ^ 64 < z < 2 ^ 64 -> wrap64 z <> 0.
Proof.
  intros Hz Hr Hw.
  pose proof (wrap64_mod z) as Hm. rewrite Hw in Hm. simpl (0 mod _) in Hm.
  symmetry in Hm. apply Z.mod_divide in Hm; [|lia].
  destruct Hm as [k Hk]. nia.
Qed.

(** Division by a zero float64 gives a NaN or an infinity, and stays one
    when multiplied by 100. *)
Lemma div_by_zero_unguarded (x : Float64.t) (sg : bool) :
  Float64.is_nan_or_inf
    (Float64.mul (Float64.div x (S754_zero sg)) (Float64.of_int 100)) = true.
Proof. destruct x as [s|s| |s m e]; reflexivity. Qed.

(** The progress line of a round that fetched its batch carries
    [percentage_of] at the new [lastProcessed]. *)
Lemma main_iter_reports (lib : GoLib) (config : Config) (processor : BlockProcessor)
      (currentBlock : Z) (st st' : LoopState) (w w' : World) :
  main_iter lib config processor currentBlock st w = Returned st' w' ->
  (exists e w1, st' = st /\ w' = log_world (LogFetchError e) w1)
  \/ (exists w2 startBlock nblocks batchInserts,
        w' = log_world
               (LogProgress
                  (percentage_of (lastProcessed st') (GenesisBlock config) currentBlock)
                  startBlock nblocks batchInserts
                  (totalProcessed st') (totalInserts st')) w2).
Proof.
  unfold main_iter.
  destruct (batch_range config currentBlock (lastProcessed st)) as [s c].
  destruct (retryWithBackoff _ _ (fetch_operation config s c) (w, []))
    as [[w1 blocks] [e|]].
  - intros [= <- <-]. left. eauto.
  - destruct (process_blocks lib processor blocks (lastProcessed st) 0
                (totalProcessed st) w1) as [[[lp bi] tp] w2|msg w2]; [|discriminate].
    intros [= <- <-]. right. simpl. eauto 6.
Qed.

(** C9, amended. The percentage a round reports is
    [float64(lastProcessed - genesis) / float64(current - genesis) * 100]
    in IEEE 754 double arithmetic, and there is no guard: when the
    current height equals the genesis height it is a NaN or an infinity,
    whatever [lastProcessed] is; when the two differ and [lastProcessed]
    has reached the current height it is exactly 100; and when the
    current height is above the genesis height, and the differences of
    heights fit 64 bits, it does not decrease when [lastProcessed] does
    not decrease. *)
Theorem percentage_has_no_guard (lastProcessed genesisBlock currentBlock : Z) :
  in_int64 genesisBlock ->
  in_int64 currentBlock ->
  percentage_of lastProcessed genesisBlock currentBlock
  = Float64.mul
      (Float64.div (Float64.of_int (sub lastProcessed genesisBlock))
                   (Float64.of_int (sub currentBlock genesisBlock)))
      (Float64.of_int 100)
  /\ (currentBlock = genesisBlock ->
      Float64.is_nan_or_inf
        (percentage_of lastProcessed genesisBlock currentBlock) = true)
  /\ (currentBlock <> genesisBlock ->
      lastProcessed = currentBlock ->
      percentage_of lastProcessed genesisBlock currentBlock = Float64.of_int 100)
  /\ (genesisBlock < currentBlock ->
      in_int64 (currentBlock - genesisBlock) ->
      in_int64 (lastProcessed - genesisBlock) ->
      forall lastProcessed',
        lastProcessed <= lastProcessed' ->
        in_int64 (lastProcessed' - genesisBlock) ->
        SFleb (percentage_of lastProcessed genesisBlock currentBlock)
              (percentage_of lastProcessed' genesisBlock currentBlock) = true).
Proof.
  intros HG HT. split; [reflexivity|]. split; [|split].
  - intros ->. unfold percentage_of, sub at 2.
    rewrite Z.sub_diag. change (Float64.of_int (wrap64 0)) with (S754_zero false).
    apply div_by_zero_unguarded.
  - intros Hne ->. unfold percentage_of.
    destruct (of_int_finite (sub currentBlock genesisBlock)) as [s [m [e Hx]]].
    + unfold sub. apply wrap64_nonzero; [lia|].
      unfold in_int64, min_int64, max_int64 in *. lia.
    + pose proof (wrap64_range (currentBlock - genesisBlock)) as Hr.
      unfold sub, in_int64, min_int64, max_int64 in *. lia.
    + rewrite Hx, div_self. reflexivity.
  - intros Hlt Hc Ha lastProcessed' Hle Hb.
    change (SFleb (pct (sub lastProcessed genesisBlock) (sub currentBlock genesisBlock))
                  (pct (sub lastProcessed' genesisBlock) (sub currentBlock genesisBlock))
            = true).
    unfold sub. rewrite !wrap64_small by assumption.
    unfold in_int64, min_int64, max_int64 in *.
    apply pct_mono; lia.
Qed.

Lemma percentage_has_no_guard_witness :
  Float64.is_nan_or_inf (percentage_of 50 100 100) = true
  /\ percentage_of 103 100 103 = Float64.of_int 100
  /\ SFleb (percentage_of 101 100 103) (percentage_of 102 100 103) = true.
Proof.
  pose proof (percentage_has_no_guard 50 100 100) as [_ [Hzero _]];
    [unfold in_int64, min_int64, max_int64; lia..|].
  pose proof (percentage_has_no_guard 103 100 103) as [_ [_ [Hfull _]]];
    [unfold in_int64, min_int64, max_int64; lia..|].
  pose proof (percentage_has_no_guard 101 100 103) as [_ [_ [_ Hmono]]];
    [unfold in_int64, min_int64, max_int64; lia..|].
  split; [|split].
  - apply Hzero. reflexivity.
  - apply Hfull; [lia|reflexivity].
  - apply Hmono; unfold in_int64, min_int64, max_int64; lia.
Defined.

(** C9 as stated fails twice. With the current height at the genesis
    height the percentage is minus infinity below it and a NaN at it, not
    100; and with the current height below the genesis height the
    percentage goes down, from 180 to 160, when [lastProcessed] goes up
    from 10 to 20. *)
Lemma percentage_not_guarded_nor_monotone :
  percentage_of 50 100 100 = S754_infinity true
  /\ percentage_of 100 100 100 = S754_nan
  /\ percentage_of 50 100 100 <> Float64.of_int 100
  /\ percentage_of 100 100 100 <> Float64.of_int 100
  /\ percentage_of 10 100 50 = Float64.of_int 180
  /\ percentage_of 20 100 50 = Float64.of_int 160
  /\ SFltb (percentage_of 20 100 50) (percentage_of 10 100 50) = true.
Proof.
  repeat split; try reflexivity; vm_compute; discriminate.
Qed.

(** ** The end-to-end scenario of the specification *)

Example end_to_end_scenario :
  exists st w,
    run RefLib.lib scenario_config 5 (world_of scenario_env (Some (store_table [])))
    = Finished st w
    /\ lastProcessed st = 103
    /\ variance st = 0
    /\ totalProcessed st = 1
    /\ requested w = [(101, 3)]
    /\ option_map rows (db w)
       = Some [ {| url := "@bob/post"; author := "bob"; permlink := "post";
                   title := "Post"; tags := scenario_tags; block_num := 103;
                   timestamp := "2020-03-20T00:00:00" |} ].
Proof.
  eexists. eexists. split; [vm_compute; reflexivity|].
  repeat split.
Qed.

(** * Further properties *)

(** ** The key of a post *)

Lemma append_slash_inj (a a' p p' : string) :
  has_byte "/" a = false ->
  has_byte "/" a' = false ->
  (a ++ String "/" p = a' ++ String "/" p')%string ->
  a = a' /\ p = p'.
Proof.
  revert a'. induction a as [|x a IH]; intros [|x' a'] Ha Ha' Heq; simpl in *.
  - injection Heq as <-. auto.
  - injection Heq as <- _. rewrite Ascii.eqb_refl in Ha'. discriminate.
  - injection Heq as -> _. rewrite Ascii.eqb_refl in Ha. discriminate.
  - injection Heq as <- Heq.
    apply orb_false_elim in Ha as [_ Ha]. apply orb_false_elim in Ha' as [_ Ha'].
    destruct (IH a' Ha Ha' Heq) as [-> ->]. auto.
Qed.

Lemma append_assoc (a b c : string) : ((a ++ b) ++ c = a ++ (b ++ c))%string.
Proof. induction a as [|x a IH]; simpl; [reflexivity|]. rewrite IH. reflexivity. Qed.

(** X1. The key "@author/permlink" determines the author and the permlink
    as long as authors hold no slash; with a slash in the author it does
    not: the author "a/b" with the permlink "c" and the author "a" with
    the permlink "b/c" get the same key. *)
Theorem constructAuthorPerm_key :
  (forall a p a' p',
      has_byte "/" a = false ->
      has_byte "/" a' = false ->
      constructAuthorPerm a p = constructAuthorPerm a' p' ->
      a = a' /\ p = p')
  /\ (forall a b c,
         constructAuthorPerm (a ++ "/" ++ b) c = constructAuthorPerm a (b ++ "/" ++ c))%string.
Proof.
  split.
  - intros a p a' p' Ha Ha' Heq. unfold constructAuthorPerm in Heq.
    simpl in Heq. injection Heq as Heq.
    exact (append_slash_inj a a' p p' Ha Ha' Heq).
  - intros a b c. unfold constructAuthorPerm. simpl.
    rewrite append_assoc. reflexivity.
Qed.

Lemma constructAuthorPerm_key_witness :
  has_byte "/" "alice" = false
  /\ constructAuthorPerm "alice" "hello-world" = "@alice/hello-world"
  /\ ("alice" = "alice" /\ "hello-world" = "hello-world")
  /\ constructAuthorPerm "a/b" "c" = constructAuthorPerm "a" "b/c".
Proof.
  split; [reflexivity|]. split; [reflexivity|]. split.
  - apply (proj1 constructAuthorPerm_key "alice" "hello-world" "alice" "hello-world");
      reflexivity.
  - apply (proj2 constructAuthorPerm_key "a" "b" "c").
Defined.

(** ** More on retryWithBackoff *)

Lemma retry_first_success {St : Type} `{Runtime St}
      (operation : St -> St * option error) (n d : Z) (s s1 : St) :
  1 <= n ->
  operation s = (s1, None) ->
  retryWithBackoff n d operation s = (s1, None).
Proof.
  intros Hn Hop. unfold retryWithBackoff.
  destruct (Z.to_nat n) as [|k] eqn:Hk; [lia|].
  simpl. rewrite Hop. reflexivity.
Qed.

(** A run in which every attempt fails, followed through an invariant
    [Inv k lastErr s] of the state after [k] failed attempts. *)
Section RetryExhausted.
Context {St : Type} `{Runtime St}.
Variable operation : St -> St * option error.
Variable n d : Z.
Variable attempts : nat.
Variable Inv : nat -> option error -> St -> Prop.
Hypothesis attempt_fails :
  forall k lastErr s,
    (k < attempts)%nat ->
    Inv k lastErr s ->
    exists s1 e,
      operation s = (s1, Some e)
      /\ Inv (S k) (Some e)
             (rt_sleep (mul d (shl1 (Z.of_nat k)))
                (rt_log (LogAttemptFailed (Z.of_nat k + 1) n e
                                          (mul d (shl1 (Z.of_nat k)))) s1)).

(** After the failed attempts the loop goes on with the attempts that are
    left. *)
Lemma retry_loop_after_failures (rest fuel : nat) :
  forall k lastErr s,
    (k + fuel = attempts)%nat ->
    Inv k lastErr s ->
    exists s' lastErr',
      retry_loop (fuel + rest) n d operation (Z.of_nat k) lastErr s
      = retry_loop rest n d operation (Z.of_nat attempts) lastErr' s'
      /\ Inv attempts lastErr' s'.
Proof.
  induction fuel as [|fuel IH]; intros k lastErr s Hk Hinv.
  - exists s, lastErr. simpl. replace attempts with k by lia. auto.
  - destruct (attempt_fails k lastErr s ltac:(lia) Hinv) as [s1 [e [Hop Hinv1]]].
    simpl retry_loop. rewrite Hop.
    replace (Z.of_nat k + 1) with (Z.of_nat (S k)) in * by lia.
    apply IH; [lia|exact Hinv1].
Qed.

Lemma retry_loop_exhausts (fuel : nat) :
  forall k lastErr s,
    (k + fuel = attempts)%nat ->
    Inv k lastErr s ->
    exists s' lastErr',
      retry_loop fuel n d operation (Z.of_nat k) lastErr s
      = (s', Some (retry_exhausted n lastErr'))
      /\ Inv attempts lastErr' s'.
Proof.
  intros k lastErr s Hk Hinv.
  destruct (retry_loop_after_failures 0 fuel k lastErr s Hk Hinv)
    as [s' [le [Hrun Hinv']]].
  exists s', le. rewrite Nat.add_0_r in Hrun. rewrite Hrun. auto.
Qed.

End RetryExhausted.

Lemma backoff_delays_S (d : Z) (k : nat) :
  backoff_delays d (S k) = backoff_delays d k ++ [mul d (shl1 (Z.of_nat k))].
Proof. unfold backoff_delays. rewrite seq_S, map_app. reflexivity. Qed.

Lemma delay_wrapped (d i : Z) : 0 <= i -> mul d (shl1 i) = wrap64 (d * 2 ^ i).
Proof.
  intros Hi. unfold mul, shl1.
  rewrite wrap64_mul_r, Z.shiftl_mul_pow2, Z.mul_1_l by assumption. reflexivity.
Qed.

Lemma delay_vanishes (d i : Z) : 64 <= i -> wrap64 (d * 2 ^ i) = 0.
Proof.
  intros Hi. replace i with (64 + (i - 64)) by lia.
  rewrite Z.pow_add_r by lia.
  transitivity (wrap64 0); [|reflexivity]. apply wrap64_congr.
  replace (d * (2 ^ 64 * 2 ^ (i - 64))) with (d * 2 ^ (i - 64) * 2 ^ 64) by lia.
  rewrite Z.mod_mul by lia. reflexivity.
Qed.

Lemma wrapped_attempts_nth (d : Z) (errs : list error) :
  forall (i : Z) (k : nat),
    (k < List.length errs)%nat ->
    nth (2 * k + 1) (wrapped_attempts d errs i) (Invoked None)
    = Slept (wrap64 (d * 2 ^ (i + Z.of_nat k))).
Proof.
  induction errs as [|e rest IH]; intros i k Hk; simpl in Hk; [lia|].
  destruct k as [|k].
  - simpl. rewrite Z.add_0_r. reflexivity.
  - replace (2 * S k + 1)%nat with (S (S (2 * k + 1))) by lia.
    cbn [wrapped_attempts nth]. rewrite IH by lia.
    replace (i + 1 + Z.of_nat k) with (i + Z.of_nat (S k)) by lia. reflexivity.
Qed.

Section RetryWrapped.
Context {St : Type} `{Runtime St}.
Variable operation : St -> St * option error.
Hypothesis always_fails : forall s, snd (operation s) <> None.

Lemma retry_loop_wrapped_trace (fuel : nat) :
  forall (n d i : Z) (lastErr : option error) (o : Observed St),
    0 <= i ->
    exists errs,
      List.length errs = fuel
      /\ obs_trace (fst (retry_loop fuel n d (observe operation) i lastErr o))
         = obs_trace o ++ wrapped_attempts d errs i.
Proof.
  induction fuel as [|fuel IH]; intros n d i lastErr o Hi.
  - exists []. simpl. rewrite app_nil_r. auto.
  - pose proof (always_fails (obs_state o)) as Hf.
    destruct (operation (obs_state o)) as [s1 [e|]] eqn:Hop; [|contradiction].
    rewrite (retry_loop_failed_step operation fuel n d i lastErr o s1 e Hop).
    match goal with
    | |- context [retry_loop fuel n d _ ?i1 ?le ?o1] =>
        destruct (IH n d i1 le o1 ltac:(lia)) as [errs [Hlen Htr]]
    end.
    exists (e :: errs). split; [simpl; lia|].
    rewrite Htr. simpl obs_trace. rewrite delay_wrapped by assumption.
    rewrite <- !app_assoc. reflexivity.
Qed.

End RetryWrapped.

(** X2. Without any bound on the delays: when every attempt fails, the
    attempts are followed by the sleeps [d * 2^i] reduced to 64 bits, and
    from the failed attempt number 64 on (counted from 0) the sleep is
    zero: the helper retries without waiting. *)
Theorem backoff_overflow {St : Type} `{Runtime St}
        (operation : St -> St * option error) (n d : Z) (s : St) :
  (forall s0, snd (operation s0) <> None) ->
  let out :=
    retryWithBackoff n d (observe operation) {| obs_state := s; obs_trace := [] |} in
  (exists errs,
      List.length errs = Z.to_nat n
      /\ obs_trace (fst out) = wrapped_attempts d errs 0)
  /\ (forall k : nat,
         (64 <= k < Z.to_nat n)%nat ->
         nth (2 * k + 1) (obs_trace (fst out)) (Invoked None) = Slept 0).
Proof.
  intros Hfail out.
  destruct (retry_loop_wrapped_trace operation Hfail (Z.to_nat n) n d 0 None
              {| obs_state := s; obs_trace := [] |} ltac:(lia)) as [errs [Hlen Htr]].
  simpl in Htr. fold (retryWithBackoff n d (observe operation)
                        {| obs_state := s; obs_trace := [] |}) in Htr.
  fold out in Htr.
  split.
  - exists errs. auto.
  - intros k Hk. rewrite Htr, wrapped_attempts_nth by lia.
    rewrite delay_vanishes by lia. reflexivity.
Qed.

Lemma backoff_overflow_witness :
  let out :=
    retryWithBackoff 66 Second (observe always_failing)
                     {| obs_state := fresh_world; obs_trace := [] |} in
  snd (always_failing fresh_world) <> None
  /\ nth 1 (obs_trace (fst out)) (Invoked None) = Slept 1000000000
  /\ nth (2 * 64 + 1) (obs_trace (fst out)) (Invoked None) = Slept 0.
Proof.
  split; [discriminate|]. split; [vm_compute; reflexivity|].
  apply (proj2 (backoff_overflow always_failing 66 Second fresh_world
                  ltac:(intros s0; discriminate)) 64%nat).
  change (Z.to_nat 66) with 66%nat. lia.
Defined.

(** X3. With no attempt allowed ([MaxRetries <= 0]) the helper never
    invokes its operation and still reports a failure, whose last error is
    nil; [main] then stops in [log.Fatal] before it has touched the
    database or the API. *)
Theorem no_attempt_allowed (lib : GoLib) (config : Config) (fuel : nat) (w : World) :
  MaxRetries config <= 0 ->
  (forall (St : Type) (R : Runtime St) (operation : St -> St * option error)
          (d : Z) (s : St),
      retryWithBackoff (MaxRetries config) d operation s
      = (s, Some (retry_exhausted (MaxRetries config) None)))
  /\ run lib config fuel w
     = Fatal "Error initializing database:"
             (retry_exhausted (MaxRetries config) None) w.
Proof.
  intros Hn.
  assert (Hgen : forall (St : Type) (R : Runtime St)
                        (operation : St -> St * option error) (d : Z) (s : St),
             retryWithBackoff (MaxRetries config) d operation s
             = (s, Some (retry_exhausted (MaxRetries config) None))).
  { intros St R operation d s. unfold retryWithBackoff.
    replace (Z.to_nat (MaxRetries config)) with 0%nat by lia. reflexivity. }
  split; [exact Hgen|].
  unfold run. rewrite Hgen. reflexivity.
Qed.

Lemma no_attempt_allowed_witness :
  let config := {| HiveAPIURL := "https://api.hive.blog"; GenesisBlock := 41818753;
                   BatchSize := 1000; DBPath := "blocks.db"; MaxRetries := 0;
                   RetryDelay := mul Second 2 |} in
  MaxRetries config <= 0
  /\ run RefLib.lib config 1 fresh_world
     = Fatal "Error initializing database:" (retry_exhausted 0 None) fresh_world.
Proof.
  cbv zeta. split; [simpl; lia|].
  apply (no_attempt_allowed RefLib.lib
           {| HiveAPIURL := "https://api.hive.blog"; GenesisBlock := 41818753;
              BatchSize := 1000; DBPath := "blocks.db"; MaxRetries := 0;
              RetryDelay := mul Second 2 |} 1 fresh_world).
  simpl. lia.
Defined.

(** ** The start of [main] *)

Lemma find_none_forallb {A : Type} (f : A -> bool) (l : list A) :
  forallb f l = true -> find (fun c => negb (f c)) l = None.
Proof.
  induction l as [|x l IH]; simpl; [reflexivity|].
  intros Hf. apply andb_true_iff in Hf as [Hx Hl]. rewrite Hx. simpl. apply IH, Hl.
Qed.

Lemma prepare_accepted (config : Config) (w : World) (t : Table) :
  db w = Some t ->
  accepts_insert t = true ->
  sql_fault (env w) (tick w) = None ->
  NewBlockProcessor config w = (with_tick w, inr (processor_of config)).
Proof.
  intros Hdb Hacc Hsql. unfold accepts_insert in Hacc.
  apply andb_true_iff in Hacc as [Hcols Huniq].
  unfold NewBlockProcessor, db_Prepare. rewrite Hsql. simpl db. rewrite Hdb.
  rewrite (find_none_forallb _ _ Hcols), Huniq. reflexivity.
Qed.

Lemma accepts_insert_block_num (t : Table) :
  accepts_insert t = true -> has_column t "block_num" = true.
Proof.
  unfold accepts_insert, insert_columns. intros Hacc.
  apply andb_true_iff in Hacc as [Hcols _]. simpl in Hcols.
  repeat (apply andb_true_iff in Hcols as [? Hcols]). assumption.
Qed.

Lemma accepts_insert_author (t : Table) :
  accepts_insert t = true -> has_column t "author" = true.
Proof.
  unfold accepts_insert, insert_columns. intros Hacc.
  apply andb_true_iff in Hacc as [Hcols _]. simpl in Hcols.
  repeat (apply andb_true_iff in Hcols as [? Hcols]). assumption.
Qed.

Lemma accepts_insert_indexed (t : Table) :
  accepts_insert (with_schema_indexes t) = accepts_insert t.
Proof.
  unfold accepts_insert, with_schema_indexes.
  rewrite !add_index_uniques. f_equal.
  induction insert_columns as [|c cs IH]; simpl; [reflexivity|].
  rewrite !has_column_add_index, IH. reflexivity.
Qed.

Lemma stored_height_indexed (g : Z) (t : Table) :
  stored_height g (with_schema_indexes t) = stored_height g t.
Proof. unfold stored_height, with_schema_indexes. rewrite !add_index_rows. reflexivity. Qed.

(** On a store that has the columns of the insert statement, with a
    database that does not fail, [initDB] succeeds at the first attempt:
    the table gets the indexes of the schema that it has not. *)
Lemma initDB_first_attempt (config : Config) (w : World) (t : Table) :
  db w = Some t ->
  accepts_insert t = true ->
  no_sql_fault (env w) ->
  1 <= MaxRetries config ->
  retryWithBackoff (MaxRetries config) (RetryDelay config) initDB w
  = (with_db (Some (with_schema_indexes t)) (with_tick (with_tick (with_tick w))), None).
Proof.
  intros Hdb Hacc Hsql Hn. apply retry_first_success; [exact Hn|].
  apply initDB_keeps; try apply Hsql;
    [exact Hdb|apply accepts_insert_block_num, Hacc|apply accepts_insert_author, Hacc].
Qed.

Lemma bootstrap_reads (config : Config) (w : World) (t : Table) (head a b : Z) :
  api_head (env w) (tick w) = inr head ->
  sql_fault (env w) (S (tick w)) = None ->
  db w = Some t ->
  has_column t "block_num" = true ->
  bootstrap_operation config (w, (a, b))
  = ((with_tick (with_tick w), (head, stored_height (GenesisBlock config) t)), None).
Proof.
  intros Hhead Hsql Hdb Hcol.
  unfold bootstrap_operation, getLatestBlock. rewrite Hhead.
  unfold getLastProcessedBlock. simpl env. simpl tick. rewrite Hsql.
  simpl db. rewrite Hdb, Hcol. simpl negb. cbv iota.
  unfold stored_height. destruct (max_block_num (rows t)); reflexivity.
Qed.

(** On a store that has the columns of the insert statement, with a
    database that does not fail and an API that gives the chain head,
    [main] enters its batch loop after four interactions. *)
Lemma run_enters_loop (lib : GoLib) (config : Config) (fuel : nat) (w : World)
      (t : Table) (head : Z) :
  db w = Some t ->
  accepts_insert t = true ->
  no_sql_fault (env w) ->
  api_head (env w) (tick w + 4)%nat = inr head ->
  1 <= MaxRetries config ->
  let st := initial_state config head (stored_height (GenesisBlock config) t) in
  run lib config fuel w
  = main_loop lib fuel config (processor_of config) head st
      (log_world (LogStart head (lastProcessed st) (variance st))
         (with_tick (with_tick (with_tick
            (with_db (Some (with_schema_indexes t))
               (with_tick (with_tick (with_tick w)))))))).
Proof.
  intros Hdb Hacc Hsql Hhead Hn st.
  set (t1 := with_schema_indexes t).
  set (w1 := with_db (Some t1) (with_tick (with_tick (with_tick w)))).
  assert (Hacc1 : accepts_insert t1 = true)
    by (unfold t1; rewrite accepts_insert_indexed; exact Hacc).
  assert (H1 : retryWithBackoff (MaxRetries config) (RetryDelay config) initDB w
               = (w1, None))
    by (apply initDB_first_attempt; assumption).
  assert (H2 : NewBlockProcessor config w1 = (with_tick w1, inr (processor_of config))).
  { apply (prepare_accepted config w1 t1); [reflexivity|exact Hacc1|apply Hsql]. }
  assert (H3 : retryWithBackoff (MaxRetries config) (RetryDelay config)
                 (bootstrap_operation config) (with_tick w1, (0, 0))
               = ((with_tick (with_tick (with_tick w1)),
                   (head, stored_height (GenesisBlock config) t)), None)).
  { apply retry_first_success; [exact Hn|].
    rewrite <- (stored_height_indexed (GenesisBlock config) t). fold t1.
    apply (bootstrap_reads config (with_tick w1) t1).
    - simpl. rewrite <- Hhead. f_equal. lia.
    - apply Hsql.
    - reflexivity.
    - apply accepts_insert_block_num, Hacc1. }
  unfold run. rewrite H1, H2, H3. reflexivity.
Qed.

(** X4. When the chain head is not above the height the store resumes
    from, [main] returns at once: it sends no range request, hands no row
    to the store, does not sleep, leaves the table as it is but for the
    indexes of the schema, which [initDB] adds when they are not there,
    and logs the start and the completion with zero blocks and zero
    posts. *)
Theorem up_to_date_store_is_left_alone (lib : GoLib) (config : Config) (fuel : nat)
        (w : World) (t : Table) (head : Z) :
  db w = Some t ->
  accepts_insert t = true ->
  no_sql_fault (env w) ->
  api_head (env w) (tick w + 4)%nat = inr head ->
  1 <= MaxRetries config ->
  let st := initial_state config head (stored_height (GenesisBlock config) t) in
  variance st <= 0 ->
  exists w',
    run lib config fuel w = Finished st w'
    /\ db w' = Some (with_schema_indexes t)
    /\ requested w' = requested w
    /\ executed w' = executed w
    /\ slept w' = slept w
    /\ logged w'
       = logged w ++ [LogStart head (lastProcessed st) (variance st); LogComplete 0 0].
Proof.
  intros Hdb Hacc Hsql Hhead Hn st Hvar.
  rewrite (run_enters_loop lib config fuel w t head Hdb Hacc Hsql Hhead Hn).
  fold st.
  assert (Htp : totalProcessed st = 0) by reflexivity.
  assert (Hti : totalInserts st = 0) by reflexivity.
  assert (Hv : (variance st >? 0) = false) by (rewrite Z.gtb_ltb; apply Z.ltb_ge, Hvar).
  clearbody st.
  assert (Hloop : forall w0,
             main_loop lib fuel config (processor_of config) head st w0
             = Finished st (log_world (LogComplete 0 0) w0)).
  { intros w0. destruct fuel; simpl main_loop; rewrite Hv, Htp, Hti; reflexivity. }
  rewrite Hloop. eexists. split; [reflexivity|].
  simpl. rewrite <- app_assoc. repeat split; reflexivity.
Qed.

Lemma up_to_date_store_is_left_alone_witness :
  let w := world_of (serving_env 41818945 []) (Some (store_table [post_row])) in
  exists w',
    run RefLib.lib DefaultConfig 0 w
    = Finished (initial_state DefaultConfig 41818945 41818945) w'
    /\ db w' = Some (store_table [post_row])
    /\ requested w' = requested w
    /\ executed w' = executed w
    /\ slept w' = slept w
    /\ logged w' = logged w ++ [LogStart 41818945 41818945 0; LogComplete 0 0].
Proof.
  apply (up_to_date_store_is_left_alone RefLib.lib DefaultConfig 0
           (world_of (serving_env 41818945 []) (Some (store_table [post_row])))
           (store_table [post_row]) 41818945).
  - reflexivity.
  - reflexivity.
  - intros k. reflexivity.
  - reflexivity.
  - simpl. lia.
  - vm_compute. discriminate.
Defined.

(** ** Failures at the start *)





(** X6. On a store that has the columns of the insert statement, when
    the request for the chain head fails at every one of the
    [MaxRetries >= 1] attempts, [main] stops in [log.Fatal] with the error
    of the last attempt; every attempt asked for the head only (the store
    is not read once the head request has failed), no range request was
    sent and no row was handed to the store; the table is the one found,
    with the indexes of the schema. *)
Theorem unreachable_head_is_fatal (lib : GoLib) (config : Config) (fuel : nat)
        (w : World) (t : Table) (e : nat -> error) :
  db w = Some t ->
  accepts_insert t = true ->
  no_sql_fault (env w) ->
  1 <= MaxRetries config ->
  (forall k, (tick w + 4 <= k < tick w + 4 + Z.to_nat (MaxRetries config))%nat ->
             api_head (env w) k = inl (e k)) ->
  exists w',
    run lib config fuel w
    = Fatal ""
            (retry_exhausted (MaxRetries config)
               (Some (Errorf "error getting latest block: %v"
                        [ArgError (Some (e (tick w + 4 + Z.to_nat (MaxRetries config) - 1)%nat))])))
            w'
    /\ tick w' = (tick w + 4 + Z.to_nat (MaxRetries config))%nat
    /\ db w' = Some (with_schema_indexes t)
    /\ slept w' = slept w ++ backoff_delays (RetryDelay config)
                                            (Z.to_nat (MaxRetries config))
    /\ requested w' = requested w
    /\ executed w' = executed w.
Proof.
  intros Hdb Hacc Hsql Hn Hfault.
  set (N := Z.to_nat (MaxRetries config)) in *.
  set (Inv := fun (k : nat) (le : option error) (s : World * (Z * Z)) =>
         env (fst s) = env w /\ tick (fst s) = (tick w + 4 + k)%nat
         /\ db (fst s) = Some (with_schema_indexes t)
         /\ slept (fst s) = slept w ++ backoff_delays (RetryDelay config) k
         /\ requested (fst s) = requested w /\ executed (fst s) = executed w
         /\ (forall k', k = S k' ->
               le = Some (Errorf "error getting latest block: %v"
                            [ArgError (Some (e (tick w + 4 + k')%nat))]))).
  destruct (retry_loop_exhausts (bootstrap_operation config)
              (MaxRetries config) (RetryDelay config) N Inv)
    with (fuel := N) (k := 0%nat) (lastErr := @None error)
         (s := (with_tick (with_db (Some (with_schema_indexes t))
                             (with_tick (with_tick (with_tick w)))), (0, 0)))
    as [[w' vars] [le [Hrun Hinv]]].
  - intros k le [s [a b]] Hk (Henv & Htick & Hdbs & Hsl & Hreq & Hex & _).
    simpl fst in *.
    exists (with_tick s, (0, b)),
           (Errorf "error getting latest block: %v" [ArgError (Some (e (tick s)))]).
    split.
    + unfold bootstrap_operation, getLatestBlock.
      rewrite Henv, Hfault by lia. reflexivity.
    + unfold Inv. simpl. rewrite backoff_delays_S, Hsl, <- app_assoc, Htick.
      repeat split; try assumption; try lia.
      intros k' [= <-]. reflexivity.
  - lia.
  - unfold Inv. simpl. rewrite app_nil_r. repeat split; try lia.
  - destruct Hinv as (Henv & Htick & Hdbs & Hsl & Hreq & Hex & Hle).
    simpl fst in *.
    exists w'.
    set (t1 := with_schema_indexes t) in *.
    set (w1 := with_db (Some t1) (with_tick (with_tick (with_tick w)))) in *.
    assert (H1 : retryWithBackoff (MaxRetries config) (RetryDelay config) initDB w
                 = (w1, None))
      by (apply initDB_first_attempt; assumption).
    assert (H2 : NewBlockProcessor config w1 = (with_tick w1, inr (processor_of config))).
    { apply (prepare_accepted config w1 t1); [reflexivity| |apply Hsql].
      unfold t1. rewrite accepts_insert_indexed. exact Hacc. }
    unfold run. rewrite H1, H2.
    unfold retryWithBackoff. fold N.
    change 0 with (Z.of_nat 0) at 1. rewrite Hrun. destruct vars as [a b].
    rewrite (Hle (N - 1)%nat) by (unfold N; lia).
    replace (tick w + 4 + (N - 1))%nat with (tick w + 4 + N - 1)%nat by (unfold N; lia).
    repeat split; assumption.
Qed.

Lemma unreachable_head_is_fatal_witness :
  exists w',
    run RefLib.lib DefaultConfig 1 (world_of quiet_env (Some (store_table [])))
    = Fatal ""
            (retry_exhausted 3
               (Some (Errorf "error getting latest block: %v" [ArgError (Some offline)])))
            w'
    /\ tick w' = 7%nat
    /\ db w' = Some (store_table [])
    /\ slept w' = [] ++ backoff_delays (mul Second 2) 3
    /\ requested w' = []
    /\ executed w' = [].
Proof.
  apply (unreachable_head_is_fatal RefLib.lib DefaultConfig 1
           (world_of quiet_env (Some (store_table []))) (store_table [])
           (fun _ => offline)).
  - reflexivity.
  - reflexivity.
  - intros k. reflexivity.
  - simpl. lia.
  - intros k _. reflexivity.
Defined.

(** ** Rounds that make no progress *)

Lemma fetch_first_answer (config : Config) (s c n d : Z) (w : World)
      (bs0 bs : list Block) :
  1 <= n ->
  api_range (env w) (tick w) s c = inr bs ->
  retryWithBackoff n d (fetch_operation config s c) (w, bs0)
  = ((with_tick (note_request (s, c) w), bs), None).
Proof.
  intros Hn Hapi. apply retry_first_success; [exact Hn|].
  unfold fetch_operation, getBlockRange. simpl fst. rewrite Hapi. reflexivity.
Qed.

(** A fetch whose every attempt is refused. *)
Lemma fetch_refused (config : Config) (s c n d : Z) (w : World) (bs0 : list Block) :
  (forall k s c, exists err, api_range (env w) k s c = inl err) ->
  exists w' bs' err,
    retryWithBackoff n d (fetch_operation config s c) (w, bs0) = ((w', bs'), Some err)
    /\ env w' = env w
    /\ db w' = db w
    /\ executed w' = executed w
    /\ requested w' = requested w ++ repeat (s, c) (Z.to_nat n)
    /\ slept w' = slept w ++ backoff_delays d (Z.to_nat n).
Proof.
  intros Hdown.
  set (Inv := fun (k : nat) (le : option error) (st : World * list Block) =>
         env (fst st) = env w /\ db (fst st) = db w
         /\ executed (fst st) = executed w
         /\ requested (fst st) = requested w ++ repeat (s, c) k
         /\ slept (fst st) = slept w ++ backoff_delays d k).
  destruct (retry_loop_exhausts (fetch_operation config s c) n d (Z.to_nat n) Inv)
    with (fuel := Z.to_nat n) (k := 0%nat) (lastErr := @None error) (s := (w, bs0))
    as [[w' bs'] [le [Hrun Hinv]]].
  - intros k le [w0 b0] Hk (Henv & Hdb & Hex & Hreq & Hsl). simpl fst in *.
    destruct (Hdown (tick w0) s c) as [err Herr].
    exists (with_tick (note_request (s, c) w0), []), err. split.
    + unfold fetch_operation, getBlockRange. simpl fst. rewrite Henv, Herr. reflexivity.
    + unfold Inv. simpl. rewrite backoff_delays_S, Hsl, Hreq, <- !app_assoc.
      rewrite <- repeat_cons.
      repeat split; assumption.
  - lia.
  - unfold Inv. simpl. rewrite !app_nil_r. repeat split.
  - destruct Hinv as (Henv & Hdb & Hex & Hreq & Hsl). simpl fst in *.
    exists w', bs', (retry_exhausted n le). unfold retryWithBackoff.
    change 0 with (Z.of_nat 0). rewrite Hrun. repeat split; assumption.
Qed.

(** X7. When every range request is refused, the batch loop never ends
    and never gives up: however long it is observed it is still in the
    state it started in, it has repeated the same request [MaxRetries]
    times per round with the same sleeps, and it has stored nothing. *)
Theorem refused_fetch_is_retried_forever (lib : GoLib) (config : Config)
        (processor : BlockProcessor) (currentBlock : Z) (st : LoopState) (fuel : nat) :
  forall w,
    0 < variance st ->
    (forall k s c, exists err, api_range (env w) k s c = inl err) ->
    exists w',
      main_loop lib fuel config processor currentBlock st w = Looping st w'
      /\ db w' = db w
      /\ executed w' = executed w
      /\ requested w'
         = requested w ++ repeat (batch_range config currentBlock (lastProcessed st))
                                 (fuel * Z.to_nat (MaxRetries config))
      /\ slept w'
         = slept w ++ stalled_sleeps (RetryDelay config)
                                     (Z.to_nat (MaxRetries config)) fuel.
Proof.
  induction fuel as [|fuel IH]; intros w Hvar Hdown.
  - exists w. simpl main_loop.
    replace (variance st >? 0) with true by (symmetry; rewrite Z.gtb_ltb; apply Z.ltb_lt, Hvar).
    simpl. rewrite !app_nil_r. repeat split.
  - simpl main_loop.
    replace (variance st >? 0) with true by (symmetry; rewrite Z.gtb_ltb; apply Z.ltb_lt, Hvar).
    unfold main_iter.
    destruct (batch_range config currentBlock (lastProcessed st)) as [s c] eqn:Hrange.
    destruct (fetch_refused config s c (MaxRetries config) (RetryDelay config) w []
                Hdown) as [w1 [bs1 [err [Hrun [Henv [Hdb [Hex [Hreq Hsl]]]]]]]].
    rewrite Hrun.
    destruct (IH (log_world (LogFetchError err) w1) Hvar) as [w' [Hloop [Hdb' [Hex' [Hreq' Hsl']]]]].
    { simpl. rewrite Henv. exact Hdown. }
    exists w'. rewrite Hloop. simpl in Hdb', Hex', Hreq', Hsl'.
    split; [reflexivity|]. split; [congruence|]. split; [congruence|]. split.
    + rewrite Hreq', Hreq, <- app_assoc, <- repeat_app. reflexivity.
    + rewrite Hsl', Hsl, <- app_assoc. reflexivity.
Qed.

Lemma refused_fetch_is_retried_forever_witness :
  let st := initial_state DefaultConfig 41819000 41818753 in
  let w := world_of quiet_env (Some (store_table [])) in
  exists w',
    main_loop RefLib.lib 2 DefaultConfig default_processor 41819000 st w = Looping st w'
    /\ db w' = db w
    /\ executed w' = executed w
    /\ requested w' = requested w ++ repeat (41818754, 247) (2 * 3)
    /\ slept w' = slept w ++ stalled_sleeps (mul Second 2) 3 2.
Proof.
  apply (refused_fetch_is_retried_forever RefLib.lib DefaultConfig default_processor
           41819000 (initial_state DefaultConfig 41819000 41818753) 2
           (world_of quiet_env (Some (store_table [])))).
  - vm_compute. reflexivity.
  - intros k s c. exists offline. reflexivity.
Defined.

Lemma process_blocks_sentinels (lib : GoLib) (processor : BlockProcessor)
      (bs : list Block) (lp bi tp : Z) (w : World) :
  forallb (fun b => String.eqb (BlockNum b) "0") bs = true ->
  process_blocks lib processor bs lp bi tp w = Returned (lp, bi, tp) w.
Proof.
  induction bs as [|b rest IH]; simpl; [reflexivity|].
  intros Hall. apply andb_true_iff in Hall as [Hb Hrest].
  rewrite Hb. apply IH, Hrest.
Qed.

(** X8. When every range request is answered without error by no block
    at all, or by sentinel blocks "0" only, the batch loop does not end
    either: each round sends the same request once, does not sleep, stores
    nothing and leaves the state of the loop as it was. *)
Theorem empty_answer_is_asked_again_forever (lib : GoLib) (config : Config)
        (processor : BlockProcessor) (currentBlock : Z) (st : LoopState) (fuel : nat) :
  forall w,
    0 < variance st ->
    variance st = sub currentBlock (lastProcessed st) ->
    in_int64 (totalInserts st) ->
    1 <= MaxRetries config ->
    (forall k s c, exists bs,
        api_range (env w) k s c = inr bs
        /\ forallb (fun b => String.eqb (BlockNum b) "0") bs = true) ->
    exists w',
      main_loop lib fuel config processor currentBlock st w = Looping st w'
      /\ db w' = db w
      /\ executed w' = executed w
      /\ slept w' = slept w
      /\ requested w'
         = requested w ++ repeat (batch_range config currentBlock (lastProcessed st)) fuel.
Proof.
  induction fuel as [|fuel IH]; intros w Hvar Hcons Hti Hn Hempty.
  - exists w. simpl main_loop.
    replace (variance st >? 0) with true by (symmetry; rewrite Z.gtb_ltb; apply Z.ltb_lt, Hvar).
    simpl. rewrite !app_nil_r. repeat split.
  - simpl main_loop.
    replace (variance st >? 0) with true by (symmetry; rewrite Z.gtb_ltb; apply Z.ltb_lt, Hvar).
    unfold main_iter.
    destruct (batch_range config currentBlock (lastProcessed st)) as [s c] eqn:Hrange.
    destruct (Hempty (tick w) s c) as [bs [Hapi Hall]].
    rewrite (fetch_first_answer config s c _ _ w [] bs Hn Hapi).
    rewrite (process_blocks_sentinels lib processor bs _ _ _ _ Hall).
    assert (Hst : {| lastProcessed := lastProcessed st;
                     variance := sub currentBlock (lastProcessed st);
                     totalProcessed := totalProcessed st;
                     totalInserts := add (totalInserts st) 0 |} = st).
    { unfold add. rewrite Z.add_0_r, wrap64_small by exact Hti.
      rewrite <- Hcons. destruct st; reflexivity. }
    rewrite Hst.
    match goal with
    | |- context [main_loop lib fuel config processor currentBlock st ?w1] =>
        destruct (IH w1 Hvar Hcons Hti Hn) as [w' [Hloop [Hdb' [Hex' [Hsl' Hreq']]]]]
    end.
    { simpl. exact Hempty. }
    exists w'. rewrite Hloop. simpl in Hdb', Hex', Hreq', Hsl'.
    split; [reflexivity|]. split; [congruence|]. split; [congruence|].
    split; [congruence|].
    rewrite Hreq', <- app_assoc. reflexivity.
Qed.

Lemma empty_answer_is_asked_again_forever_witness :
  let st := initial_state DefaultConfig 41819000 41818753 in
  let w := world_of empty_env (Some (store_table [])) in
  exists w',
    main_loop RefLib.lib 3 DefaultConfig default_processor 41819000 st w = Looping st w'
    /\ db w' = db w
    /\ executed w' = executed w
    /\ slept w' = slept w
    /\ requested w' = requested w ++ repeat (41818754, 247) 3.
Proof.
  apply (empty_answer_is_asked_again_forever RefLib.lib DefaultConfig default_processor
           41819000 (initial_state DefaultConfig 41819000 41818753) 3
           (world_of empty_env (Some (store_table [])))).
  - vm_compute. reflexivity.
  - reflexivity.
  - vm_compute. split; intros Hc; discriminate Hc.
  - simpl. lia.
  - intros k s c. exists []. split; reflexivity.
Defined.

(** ** The processor as a sequence of inserts *)

Lemma insert_rows_app (bp : BlockProcessor) (xs ys : list Row) :
  forall c w,
    insert_rows bp (xs ++ ys) c w
    = let '(w1, (n, err)) := insert_rows bp xs c w in
      match err with
      | Some e => (w1, (n, Some e))
      | None => insert_rows bp ys n w1
      end.
Proof.
  induction xs as [|x xs IH]; intros c w; simpl.
  - reflexivity.
  - destruct (retryWithBackoff _ _ (stmt_Exec (bp_stmt bp) x) w) as [w1 [e|]].
    + reflexivity.
    + apply IH.
Qed.

Section InsertRows.
Variable lib : GoLib.
Variable bp : BlockProcessor.
Variable block : Block.
Variable blockNum : Z.

Lemma process_ops_insert_rows (ops : list Operation) :
  forall c w,
    process_ops lib bp block blockNum ops c w
    = insert_rows bp (posts_of lib blockNum block ops) c w.
Proof.
  induction ops as [|op rest IH]; intros c w; [reflexivity|].
  unfold posts_of. simpl process_ops. simpl filter. unfold is_top_level_post at 1.
  destruct (String.eqb (OpType op) "comment_operation"); simpl negb; cbv iota;
    [destruct (String.eqb (ParentAuthor (Value op)) ""); simpl negb; cbv iota|].
  - simpl andb. cbv iota. simpl map. simpl insert_rows.
    destruct (retryWithBackoff _ _ _ w) as [w1 [e|]]; [reflexivity|].
    apply IH.
  - simpl andb. cbv iota. apply IH.
  - simpl andb. cbv iota. apply IH.
Qed.

Lemma process_txs_insert_rows (txs : list Transaction) :
  forall c w,
    process_txs lib bp block blockNum txs c w
    = insert_rows bp (posts_of lib blockNum block (flat_map Operations txs)) c w.
Proof.
  induction txs as [|tx rest IH]; intros c w; [reflexivity|].
  simpl process_txs. simpl flat_map.
  unfold posts_of. rewrite filter_app, map_app.
  fold (posts_of lib blockNum block (Operations tx)).
  fold (posts_of lib blockNum block (flat_map Operations rest)).
  rewrite insert_rows_app, process_ops_insert_rows.
  destruct (insert_rows bp (posts_of lib blockNum block (Operations tx)) c w)
    as [w1 [n [e|]]]; [reflexivity|].
  apply IH.
Qed.

End InsertRows.

Lemma processBlock_insert_rows (lib : GoLib) (bp : BlockProcessor) (block : Block)
      (w : World) (h : Z) :
  block_height block = Some h ->
  processBlock lib bp block w
  = let (w1, r) := insert_rows bp (posts_of lib h block (all_operations block)) 0 w in
    Returned r w1.
Proof.
  intros Hh. destruct (block_height_inv _ _ Hh) as [hex [Hs Hp]].
  unfold processBlock. rewrite Hs, Hp, process_txs_insert_rows. reflexivity.
Qed.

Lemma posts_of_timestamp (lib : GoLib) (h : Z) (b1 b2 : Block) (ops : list Operation) :
  Timestamp b1 = Timestamp b2 -> posts_of lib h b1 ops = posts_of lib h b2 ops.
Proof.
  intros Ht. unfold posts_of. apply map_ext. intros op. unfold row_of.
  rewrite Ht. reflexivity.
Qed.

(** X9. [processBlock] sees a block as the sequence of its top-level
    posts: two blocks with the same identifier and timestamp and the same
    top-level posts in the same order, however these are grouped into
    transactions and whatever other operations stand between them, are
    processed alike in every world. *)
Theorem transactions_are_flattened (lib : GoLib) (bp : BlockProcessor)
        (b1 b2 : Block) (w : World) :
  BlockNum b1 = BlockNum b2 ->
  Timestamp b1 = Timestamp b2 ->
  filter is_top_level_post (all_operations b1)
  = filter is_top_level_post (all_operations b2) ->
  processBlock lib bp b1 w = processBlock lib bp b2 w.
Proof.
  intros Hid Hts Hops.
  unfold processBlock. rewrite <- Hid.
  destruct (slice_to_8 (BlockNum b1)) as [hex|]; [|reflexivity].
  destruct (Strconv.ParseInt hex 16 32) as [h [e|]]; [reflexivity|].
  rewrite !process_txs_insert_rows.
  fold (all_operations b1). fold (all_operations b2).
  rewrite (posts_of_timestamp lib h b1 b2 _ Hts).
  unfold posts_of. rewrite Hops. reflexivity.
Qed.

Lemma transactions_are_flattened_witness :
  BlockNum mixed_block = BlockNum mixed_block_flat
  /\ Transactions mixed_block <> Transactions mixed_block_flat
  /\ forall w,
      processBlock RefLib.lib default_processor mixed_block w
      = processBlock RefLib.lib default_processor mixed_block_flat w.
Proof.
  split; [reflexivity|]. split; [discriminate|].
  intros w.
  apply (transactions_are_flattened RefLib.lib default_processor
           mixed_block mixed_block_flat w); reflexivity.
Defined.

(** ** Inserts that are accepted and inserts that are refused *)

Lemma exec_accepted_at (stmt : Stmt) (r : Row) (n d : Z) (w : World) (t : Table) :
  1 <= n ->
  sql_fault (env w) (tick w) = None ->
  db w = Some t ->
  retryWithBackoff n d (stmt_Exec stmt r) w = (exec_accepted r t w, None).
Proof.
  intros Hn Hsql Hdb. apply retry_first_success; [exact Hn|].
  unfold stmt_Exec. rewrite Hsql. simpl. rewrite Hdb. reflexivity.
Qed.

Lemma exec_refused (stmt : Stmt) (r : Row) (n d : Z) (w : World) (e : nat -> error) :
  1 <= n ->
  (forall k, (tick w <= k < tick w + Z.to_nat n)%nat -> sql_fault (env w) k = Some (e k)) ->
  exists w',
    retryWithBackoff n d (stmt_Exec stmt r) w
    = (w', Some (retry_exhausted n (Some (e (tick w + Z.to_nat n - 1)%nat))))
    /\ env w' = env w
    /\ tick w' = (tick w + Z.to_nat n)%nat
    /\ db w' = db w
    /\ executed w' = executed w ++ repeat r (Z.to_nat n)
    /\ slept w' = slept w ++ backoff_delays d (Z.to_nat n)
    /\ requested w' = requested w.
Proof.
  intros Hn Hfault.
  set (N := Z.to_nat n) in *.
  set (Inv := fun (k : nat) (le : option error) (s : World) =>
         env s = env w /\ tick s = (tick w + k)%nat /\ db s = db w
         /\ executed s = executed w ++ repeat r k
         /\ slept s = slept w ++ backoff_delays d k
         /\ requested s = requested w
         /\ (forall k', k = S k' -> le = Some (e (tick w + k')%nat))).
  destruct (retry_loop_exhausts (stmt_Exec stmt r) n d N Inv)
    with (fuel := N) (k := 0%nat) (lastErr := @None error) (s := w)
    as [w' [le [Hrun Hinv]]].
  - intros k le s Hk (Henv & Htick & Hdb & Hex & Hsl & Hreq & _).
    exists (with_tick (note_exec r s)), (e (tick s)). split.
    + unfold stmt_Exec. rewrite Henv, Hfault by lia. reflexivity.
    + unfold Inv. simpl.
      rewrite backoff_delays_S, Hsl, Hex, <- !app_assoc, Htick, <- repeat_cons.
      repeat split; try assumption; try lia.
      intros k' [= <-]. reflexivity.
  - lia.
  - unfold Inv. simpl. rewrite !app_nil_r. repeat split; try lia.
  - destruct Hinv as (Henv & Htick & Hdb & Hex & Hsl & Hreq & Hle).
    exists w'. unfold retryWithBackoff. fold N.
    change 0 with (Z.of_nat 0). rewrite Hrun.
    rewrite (Hle (N - 1)%nat) by (unfold N; lia).
    replace (tick w + (N - 1))%nat with (tick w + N - 1)%nat by (unfold N; lia).
    repeat split; assumption.
Qed.

(** Rows that the database accepts one after the other. *)
Lemma insert_rows_accepted (bp : BlockProcessor) (rs : list Row) :
  forall (c : Z) (w : World) (t : Table),
    1 <= MaxRetries (bp_config bp) ->
    (forall k, (tick w <= k < tick w + List.length rs)%nat ->
               sql_fault (env w) k = None) ->
    db w = Some t ->
    in_int64 c ->
    exists w',
      insert_rows bp rs c w = (w', (wrap64 (c + Z.of_nat (List.length rs)), None))
      /\ env w' = env w
      /\ tick w' = (tick w + List.length rs)%nat
      /\ db w' = Some (store_all rs t)
      /\ executed w' = executed w ++ rs
      /\ slept w' = slept w
      /\ requested w' = requested w
      /\ logged w' = logged w.
Proof.
  induction rs as [|r rest IH]; intros c w t Hn Hsql Hdb Hc.
  - exists w. simpl. rewrite Z.add_0_r, wrap64_small, app_nil_r, Nat.add_0_r by assumption.
    repeat split; assumption.
  - simpl insert_rows.
    assert (Hnow : sql_fault (env w) (tick w) = None) by (apply Hsql; simpl; lia).
    rewrite (exec_accepted_at _ r _ _ w t Hn Hnow Hdb).
    destruct (IH (add c 1) (exec_accepted r t w) (insert_or_ignore r t) Hn)
      as [w' (Hrun & Henv & Htick & Hdb' & Hex & Hsl & Hreq & Hlg)].
    + intros k Hk. simpl in Hk |- *. apply Hsql. simpl. lia.
    + reflexivity.
    + apply wrap64_range.
    + exists w'. rewrite Hrun. simpl in Henv, Htick, Hex, Hsl, Hreq, Hlg.
      split; [|split; [|split; [|split; [|split; [|split; [|split]]]]]];
        try assumption.
      * f_equal. f_equal. unfold add. rewrite wrap64_add_l. f_equal.
        simpl List.length. lia.
      * rewrite Htick. simpl. lia.
      * rewrite Hex, <- app_assoc. reflexivity.
Qed.

Lemma block_height_not_sentinel (b : Block) (h : Z) :
  block_height b = Some h -> String.eqb (BlockNum b) "0" = false.
Proof.
  intros Hh. destruct (String.eqb (BlockNum b) "0") eqn:Heq; [|reflexivity].
  apply String.eqb_eq in Heq. unfold block_height in Hh. rewrite Heq in Hh.
  discriminate.
Qed.

(** X10. An insert that is refused at every attempt ends the processing
    of its block: the posts before it are stored and stay stored, the
    post itself was handed to the store [MaxRetries] times with a sleep
    after each, the posts after it are not tried, and the error carries
    the count of the posts before it; the batch loop then logs the block
    and moves on without adding that count to its count of posts, without
    counting the block and without moving [lastProcessed]. *)
Theorem refused_insert_ends_the_block (lib : GoLib) (bp : BlockProcessor)
        (block : Block) (w : World) (t : Table) (h : Z)
        (pre : list Row) (r : Row) (post : list Row) (e : nat -> error) :
  block_height block = Some h ->
  posts_of lib h block (all_operations block) = pre ++ r :: post ->
  db w = Some t ->
  1 <= MaxRetries (bp_config bp) ->
  let j := List.length pre in
  let n := Z.to_nat (MaxRetries (bp_config bp)) in
  (forall k, (tick w <= k < tick w + j)%nat -> sql_fault (env w) k = None) ->
  (forall k, (tick w + j <= k < tick w + j + n)%nat -> sql_fault (env w) k = Some (e k)) ->
  let err :=
    Errorf "error inserting post: %v"
           [ArgError (Some (retry_exhausted (MaxRetries (bp_config bp))
                                            (Some (e (tick w + j + n - 1)%nat))))] in
  exists w',
    processBlock lib bp block w = Returned (wrap64 (Z.of_nat j), Some err) w'
    /\ db w' = Some (store_all pre t)
    /\ executed w' = executed w ++ pre ++ repeat r n
    /\ slept w' = slept w ++ backoff_delays (RetryDelay (bp_config bp)) n
    /\ forall lp bi tp,
        process_blocks lib bp [block] lp bi tp w
        = Returned (lp, bi, tp) (log_world (LogBlockError (BlockNum block) err) w').
Proof.
  intros Hh Hposts Hdb Hn j n Hok Hfault err.
  destruct (insert_rows_accepted bp pre 0 w t Hn Hok Hdb
              ltac:(unfold in_int64, min_int64, max_int64; lia))
    as [w1 (Hrun1 & Henv1 & Htick1 & Hdb1 & Hex1 & Hsl1 & Hreq1 & Hlg1)].
  destruct (exec_refused (bp_stmt bp) r (MaxRetries (bp_config bp))
              (RetryDelay (bp_config bp)) w1 e Hn)
    as [w' (Hrun2 & Henv2 & Htick2 & Hdb2 & Hex2 & Hsl2 & Hreq2)].
  { intros k Hk. rewrite Henv1. apply Hfault. fold n in Hk. unfold j. lia. }
  assert (Hblock : processBlock lib bp block w
                   = Returned (wrap64 (Z.of_nat j), Some err) w').
  { rewrite (processBlock_insert_rows lib bp block w h Hh), Hposts, insert_rows_app.
    rewrite Hrun1. simpl insert_rows. rewrite Hrun2.
    unfold err. rewrite Htick1. fold n. fold j. reflexivity. }
  exists w'. split; [exact Hblock|].
  split; [congruence|]. split; [rewrite Hex2, Hex1, <- app_assoc; reflexivity|].
  split; [rewrite Hsl2, Hsl1; reflexivity|].
  intros lp bi tp. simpl process_blocks.
  rewrite (block_height_not_sentinel block h Hh), Hblock. reflexivity.
Qed.

Lemma refused_insert_ends_the_block_witness :
  let w := world_of failing_after_one (Some (store_table [])) in
  let first := row_of RefLib.lib 41818945 mixed_block post_value in
  let second := row_of RefLib.lib 41818945 mixed_block second_value in
  let err :=
    Errorf "error inserting post: %v"
           [ArgError (Some (retry_exhausted 3 (Some locked)))] in
  exists w',
    processBlock RefLib.lib default_processor mixed_block w
    = Returned (wrap64 (Z.of_nat 1), Some err) w'
    /\ db w' = Some (store_all [first] (store_table []))
    /\ executed w' = executed w ++ [first] ++ repeat second 3
    /\ slept w' = slept w ++ backoff_delays (mul Second 2) 3
    /\ forall lp bi tp,
        process_blocks RefLib.lib default_processor [mixed_block] lp bi tp w
        = Returned (lp, bi, tp)
                   (log_world (LogBlockError (BlockNum mixed_block) err) w').
Proof.
  apply (refused_insert_ends_the_block RefLib.lib default_processor mixed_block
           (world_of failing_after_one (Some (store_table []))) (store_table [])
           41818945
           [row_of RefLib.lib 41818945 mixed_block post_value]
           (row_of RefLib.lib 41818945 mixed_block second_value)
           [row_of RefLib.lib 41818945 mixed_block third_value]
           (fun _ => locked)).
  - reflexivity.
  - reflexivity.
  - reflexivity.
  - simpl. lia.
  - intros k Hk. simpl in Hk. replace k with 0%nat by lia. reflexivity.
  - intros k Hk. simpl in Hk. simpl.
    destruct (k <? 1)%nat eqn:Hlt; [apply Nat.ltb_lt in Hlt; lia|reflexivity].
Defined.

(** ** What reaches the store, in every world *)

Lemma grown_by_refl (rs : list Row) (w : World) : grown_by rs w w.
Proof.
  split.
  - exists []. rewrite app_nil_r. split; [reflexivity|]. intros x [].
  - destruct (db w) as [t|]; [|exact I].
    repeat split. exists []. rewrite app_nil_r. split; [reflexivity|]. intros x [].
Qed.

Lemma grown_by_trans (rs : list Row) (w1 w2 w3 : World) :
  grown_by rs w1 w2 -> grown_by rs w2 w3 -> grown_by rs w1 w3.
Proof.
  intros [[n1 [He1 Hi1]] Hd1] [[n2 [He2 Hi2]] Hd2]. split.
  - exists (n1 ++ n2). rewrite He2, He1, app_assoc. split; [reflexivity|].
    apply incl_app; assumption.
  - destruct (db w1) as [t1|], (db w2) as [t2|], (db w3) as [t3|];
      try contradiction; try exact I.
    destruct Hd1 as (Hc1 & Hu1 & Hx1 & a1 & Hr1 & Ha1).
    destruct Hd2 as (Hc2 & Hu2 & Hx2 & a2 & Hr2 & Ha2).
    split; [congruence|]. split; [congruence|]. split; [congruence|].
    exists (a1 ++ a2). rewrite Hr2, Hr1, app_assoc. split; [reflexivity|].
    apply incl_app; assumption.
Qed.

Lemma stmt_Exec_grown (rs : list Row) (stmt : Stmt) (r : Row) (w : World) :
  In r rs -> grown_by rs w (fst (stmt_Exec stmt r w)).
Proof.
  intros Hr.
  assert (Hone : incl [r] rs) by (intros x [<-|[]]; exact Hr).
  assert (Hnil : incl (@nil Row) rs) by (intros x []).
  unfold stmt_Exec.
  destruct (sql_fault (env w) (tick w)) as [e|]; simpl.
  - split; simpl.
    + exists [r]. auto.
    + destruct (db w); [|exact I]. repeat split.
      exists []. rewrite app_nil_r. auto.
  - destruct (db w) as [t|] eqn:Hdb; simpl.
    + split; simpl.
      * exists [r]. auto.
      * rewrite Hdb. unfold insert_or_ignore.
        destruct (has_url (url r) (rows t)); simpl.
        -- repeat split. exists []. rewrite app_nil_r. auto.
        -- repeat split. exists [r]. auto.
    + split; simpl.
      * exists [r]. auto.
      * rewrite Hdb. exact I.
Qed.

Lemma sleep_grown (rs : list Row) (d : Z) (w : World) : grown_by rs w (sleep_world d w).
Proof.
  split; simpl.
  - exists []. rewrite app_nil_r. split; [reflexivity|]. intros x [].
  - destruct (db w); [|exact I]. repeat split.
    exists []. rewrite app_nil_r. split; [reflexivity|]. intros x [].
Qed.

Lemma log_grown (rs : list Row) (l : LogLine) (w : World) : grown_by rs w (log_world l w).
Proof.
  split; simpl.
  - exists []. rewrite app_nil_r. split; [reflexivity|]. intros x [].
  - destruct (db w); [|exact I]. repeat split.
    exists []. rewrite app_nil_r. split; [reflexivity|]. intros x [].
Qed.

Lemma retry_exec_grown (rs : list Row) (stmt : Stmt) (r : Row) (n d : Z) (w : World) :
  In r rs -> grown_by rs w (fst (retryWithBackoff n d (stmt_Exec stmt r) w)).
Proof.
  intros Hr. unfold retryWithBackoff.
  apply (retry_loop_preserves (grown_by rs w)).
  - intros s Hs. eapply grown_by_trans; [exact Hs|]. apply stmt_Exec_grown, Hr.
  - intros d0 s Hs. eapply grown_by_trans; [exact Hs|]. apply sleep_grown.
  - intros l s Hs. eapply grown_by_trans; [exact Hs|]. apply log_grown.
  - apply grown_by_refl.
Qed.

Lemma insert_rows_grown (bp : BlockProcessor) (rs : list Row) (todo : list Row) :
  forall c w, incl todo rs -> grown_by rs w (fst (insert_rows bp todo c w)).
Proof.
  induction todo as [|r rest IH]; intros c w Hincl; simpl.
  - apply grown_by_refl.
  - pose proof (retry_exec_grown rs (bp_stmt bp) r (MaxRetries (bp_config bp))
                  (RetryDelay (bp_config bp)) w (Hincl r (or_introl eq_refl))) as Hg.
    destruct (retryWithBackoff _ _ (stmt_Exec (bp_stmt bp) r) w) as [w1 [e|]];
      simpl in *; [exact Hg|].
    eapply grown_by_trans; [exact Hg|]. apply IH.
    intros x Hx. apply Hincl. right. exact Hx.
Qed.

(** The count after the loop is the count before it plus the number of
    rows whose insert succeeded. *)
Lemma insert_rows_count (bp : BlockProcessor) (rs : list Row) :
  forall c w,
    in_int64 c ->
    exists k : nat,
      (k <= List.length rs)%nat
      /\ fst (snd (insert_rows bp rs c w)) = wrap64 (c + Z.of_nat k)
      /\ (snd (snd (insert_rows bp rs c w)) = None -> k = List.length rs).
Proof.
  induction rs as [|r rest IH]; intros c w Hc; simpl.
  - exists 0%nat. rewrite Z.add_0_r, wrap64_small by exact Hc. auto.
  - destruct (retryWithBackoff _ _ (stmt_Exec (bp_stmt bp) r) w) as [w1 [e|]]; simpl.
    + exists 0%nat. rewrite Z.add_0_r, wrap64_small by exact Hc.
      split; [lia|]. split; [reflexivity|discriminate].
    + destruct (IH (add c 1) w1 (wrap64_range _)) as [k [Hk [Hcount Hall]]].
      exists (S k). split; [lia|]. split.
      * rewrite Hcount. unfold add. rewrite wrap64_add_l. f_equal. lia.
      * intros Hnone. rewrite (Hall Hnone). reflexivity.
Qed.

(** What the retried insert of one row does, in every world: the row is
    handed to the store some number of times; when the insert succeeds
    there was a table, the row went through the insert once, and it was
    handed over at least once; when it fails the table is the one found. *)
Lemma retry_loop_exec (stmt : Stmt) (r : Row) (n d : Z) (fuel : nat) :
  forall i le w w' res,
    retry_loop fuel n d (stmt_Exec stmt r) i le w = (w', res) ->
    exists j : nat,
      executed w' = executed w ++ repeat r j
      /\ requested w' = requested w
      /\ match res with
         | None =>
             (1 <= j)%nat
             /\ exists t, db w = Some t /\ db w' = Some (insert_or_ignore r t)
         | Some e => db w' = db w /\ exists le', e = retry_exhausted n le'
         end.
Proof.
  induction fuel as [|fuel IH]; intros i le w w' res Hrun.
  - simpl in Hrun. injection Hrun as <- <-.
    exists 0%nat. simpl. rewrite app_nil_r. repeat split. exists le. reflexivity.
  - simpl retry_loop in Hrun. unfold stmt_Exec at 1 in Hrun.
    assert (Hfail : forall e,
               retry_loop fuel n d (stmt_Exec stmt r) (i + 1) (Some e)
                 (rt_sleep (mul d (shl1 i))
                    (rt_log (LogAttemptFailed (i + 1) n e (mul d (shl1 i)))
                       (with_tick (note_exec r w)))) = (w', res) ->
               exists j : nat,
                 executed w' = executed w ++ repeat r j
                 /\ requested w' = requested w
                 /\ match res with
                    | None =>
                        (1 <= j)%nat
                        /\ exists t, db w = Some t /\ db w' = Some (insert_or_ignore r t)
                    | Some e => db w' = db w /\ exists le', e = retry_exhausted n le'
                    end).
    { intros e He. apply IH in He as [j (Hex & Hreq & Hout)].
      simpl in Hex, Hreq, Hout.
      exists (S j). rewrite Hex, Hreq, <- app_assoc.
      split; [reflexivity|]. split; [reflexivity|].
      destruct res as [e'|]; [exact Hout|].
      destruct Hout as [_ Hdb]. cbv beta iota. split; [lia|exact Hdb]. }
    destruct (sql_fault (env w) (tick w)) as [e|]; [exact (Hfail e Hrun)|].
    change (db (with_tick (note_exec r w))) with (db w) in Hrun.
    destruct (db w) as [t|] eqn:Hdb.
    + injection Hrun as <- <-.
      exists 1%nat. simpl. split; [reflexivity|]. split; [reflexivity|].
      split; [lia|]. exists t. split; reflexivity.
    + destruct (Hfail _ Hrun) as [j (Hex & Hreq & Hout)].
      exists j. split; [exact Hex|]. split; [exact Hreq|]. exact Hout.
Qed.

(** The loops of [processBlock] in every world: the first [k] rows went
    through the insert, each handed to the store at least once; when
    there is a row after them its insert was refused after its retries,
    and no row after that one was looked at. *)
Lemma insert_rows_outcome (bp : BlockProcessor) (rs : list Row) :
  forall c w,
    in_int64 c ->
    exists (k : nat) (js : list nat),
      (k <= List.length rs)%nat
      /\ fst (snd (insert_rows bp rs c w)) = wrap64 (c + Z.of_nat k)
      /\ (snd (snd (insert_rows bp rs c w)) = None <-> k = List.length rs)
      /\ executed (fst (insert_rows bp rs c w)) = executed w ++ handed_over rs js
      /\ List.length js = match snd (snd (insert_rows bp rs c w)) with
                          | Some _ => S k
                          | None => k
                          end
      /\ Forall (fun j => (1 <= j)%nat) (firstn k js)
      /\ requested (fst (insert_rows bp rs c w)) = requested w
      /\ (forall t, db w = Some t ->
            db (fst (insert_rows bp rs c w)) = Some (store_all (firstn k rs) t))
      /\ (db w = None -> db (fst (insert_rows bp rs c w)) = None /\ k = 0%nat)
      /\ (forall e, snd (snd (insert_rows bp rs c w)) = Some e ->
            exists le,
              e = Errorf "error inserting post: %v"
                    [ArgError (Some (retry_exhausted (MaxRetries (bp_config bp)) le))]).
Proof.
  induction rs as [|r rest IH]; intros c w Hc.
  - exists 0%nat, []. unfold handed_over. simpl.
    rewrite Z.add_0_r, wrap64_small, app_nil_r by exact Hc.
    repeat split; auto; discriminate.
  - simpl insert_rows.
    destruct (retryWithBackoff _ _ (stmt_Exec (bp_stmt bp) r) w) as [w1 res] eqn:Hrun.
    destruct (retry_loop_exec _ _ _ _ _ _ _ _ _ _ Hrun) as [j (Hex & Hreq & Hout)].
    destruct res as [e|].
    + destruct Hout as [Hdb [le Hle]].
      exists 0%nat, [j]. unfold handed_over. simpl. rewrite combine_nil. simpl.
      rewrite Z.add_0_r, wrap64_small, app_nil_r by exact Hc.
      split; [lia|]. split; [reflexivity|]. split; [split; [discriminate|lia]|].
      split; [exact Hex|]. split; [reflexivity|]. split; [constructor|].
      split; [exact Hreq|]. split; [intros t Ht; rewrite Hdb; exact Ht|].
      split; [intros Hn; rewrite Hdb; auto|].
      intros e0 [= <-]. exists le. rewrite Hle. reflexivity.
    + destruct Hout as [Hj [t [Ht Hdb1]]].
      destruct (IH (add c 1) w1 (wrap64_range _))
        as [k [js (Hk & Hcount & Hiff & Hex' & Hlen & Hall & Hreq' & Hdb' & Hnone & Herr)]].
      exists (S k), (j :: js).
      split; [simpl; lia|].
      split; [rewrite Hcount; unfold add; rewrite wrap64_add_l; f_equal; lia|].
      split; [rewrite Hiff; simpl; split; lia|].
      split; [rewrite Hex', Hex; unfold handed_over; simpl; rewrite <- !app_assoc;
              reflexivity|].
      split; [simpl; rewrite Hlen; destruct (snd (snd (insert_rows bp rest _ w1)));
              reflexivity|].
      split; [simpl; constructor; assumption|].
      split; [congruence|].
      split; [intros t0 Ht0; rewrite (Hdb' _ Hdb1); simpl; congruence|].
      split; [intros Hn; congruence|exact Herr].
Qed.

Lemma handed_over_incl (rs : list Row) :
  forall js, incl (handed_over rs js) (firstn (List.length js) rs).
Proof.
  induction rs as [|r rest IH]; intros [|j js]; simpl; try (intros x []).
  unfold handed_over. simpl. intros x Hin. apply in_app_or in Hin as [Hin|Hin].
  - left. symmetry. exact (repeat_spec _ _ _ Hin).
  - right. exact (IH js x Hin).
Qed.

Lemma handed_over_covers (rs : list Row) :
  forall k js,
    (k <= List.length js)%nat ->
    Forall (fun j => (1 <= j)%nat) (firstn k js) ->
    incl (firstn k rs) (handed_over rs js).
Proof.
  induction rs as [|r rest IH]; intros k js Hk Hall.
  - destruct k; intros x [].
  - destruct k as [|k]; [intros x []|].
    destruct js as [|j js]; [simpl in Hk; lia|].
    simpl in Hall. inversion Hall as [|? ? Hj Hrest]; subst.
    unfold handed_over. simpl. intros x [<-|Hin]; apply in_or_app.
    + left. destruct j; [lia|]. left. reflexivity.
    + right. apply (IH k js); [simpl in Hk; lia|exact Hrest|exact Hin].
Qed.

Lemma handed_over_once (rs : list Row) :
  handed_over rs (repeat 1%nat (List.length rs)) = rs.
Proof.
  unfold handed_over. induction rs as [|r rest IH]; simpl; [reflexivity|].
  rewrite IH. reflexivity.
Qed.

Lemma firstn_le_incl {A : Type} (l : list A) :
  forall a b, (a <= b)%nat -> incl (firstn a l) (firstn b l).
Proof.
  induction l as [|x l IH]; intros a b Hab.
  - rewrite !firstn_nil. apply incl_refl.
  - destruct a as [|a]; [intros y []|].
    destruct b as [|b]; [lia|].
    simpl. intros y [<-|Hy]; [left; reflexivity|].
    right. apply (IH a b); [lia|exact Hy].
Qed.

(** X11. Whatever the database and the world do, [processBlock] on a
    block with a well-formed identifier returns, and the count it returns
    is the number [k] of posts whose insert succeeded: these are the first
    [k] top-level posts of the block, the table is the one found with
    exactly these put through the insert in order (and there is none when
    there was no table), and there is an error exactly when a top-level
    post is left, whose insert was then refused after its retries. Every
    row handed to the store is the row of one of the first [k] posts, each
    of which was handed over, or of the post that was refused; no request
    is sent; the table keeps its schema and its rows and gets rows of
    such posts at its end at most. *)
Theorem only_top_level_posts_reach_the_store (lib : GoLib) (bp : BlockProcessor)
        (block : Block) (w : World) (h : Z) :
  block_height block = Some h ->
  let posts := posts_of lib h block (all_operations block) in
  exists count err w' (k : nat),
    processBlock lib bp block w = Returned (count, err) w'
    /\ (k <= List.length posts)%nat
    /\ count = wrap64 (Z.of_nat k)
    /\ (err = None <-> k = List.length posts)
    /\ (forall e, err = Some e ->
          exists le,
            e = Errorf "error inserting post: %v"
                  [ArgError (Some (retry_exhausted (MaxRetries (bp_config bp)) le))])
    /\ (exists new,
          executed w' = executed w ++ new
          /\ incl (firstn k posts) new
          /\ incl new (firstn (S k) posts)
          /\ incl new posts)
    /\ (forall t, db w = Some t ->
          db w' = Some (store_all (firstn k posts) t)
          /\ exists added,
              db w' = Some {| columns := columns t; uniques := uniques t;
                              indexes := indexes t; rows := rows t ++ added |}
              /\ incl added posts)
    /\ (db w = None -> db w' = None /\ k = 0%nat)
    /\ requested w' = requested w.
Proof.
  intros Hh posts.
  rewrite (processBlock_insert_rows lib bp block w h Hh). fold posts.
  pose proof (insert_rows_grown bp posts posts 0 w (incl_refl _)) as [_ Hgrown].
  destruct (insert_rows_outcome bp posts 0 w
              ltac:(unfold in_int64, min_int64, max_int64; lia))
    as [k [js (Hk & Hcount & Hiff & Hex & Hlen & Hall & Hreq & Hdb & Hnone & Herr)]].
  destruct (insert_rows bp posts 0 w) as [w' [count err]]. simpl in *.
  exists count, err, w', k. split; [reflexivity|].
  split; [exact Hk|]. split; [exact Hcount|]. split; [exact Hiff|].
  split; [exact Herr|].
  assert (Hjs : (k <= List.length js <= S k)%nat) by (destruct err; lia).
  split; [|split; [|split; [exact Hnone|exact Hreq]]].
  - exists (handed_over posts js). split; [exact Hex|].
    split; [apply handed_over_covers; [lia|exact Hall]|].
    assert (Hin : incl (handed_over posts js) (firstn (S k) posts)).
    { intros x Hx. apply handed_over_incl in Hx.
      apply (firstn_le_incl posts (List.length js) (S k)); [lia|exact Hx]. }
    split; [exact Hin|].
    intros x Hx. apply Hin in Hx.
    rewrite <- (firstn_skipn (S k) posts). apply in_or_app. left. exact Hx.
  - intros t Ht. split; [apply Hdb, Ht|].
    rewrite Ht in Hgrown. destruct (db w') as [t'|]; [|contradiction].
    destruct Hgrown as (Hc & Hu & Hi & added & Hr & Hincl).
    exists added. split; [|exact Hincl].
    f_equal. destruct t' as [c' u' i' r']. simpl in *. subst. reflexivity.
Qed.

Lemma only_top_level_posts_reach_the_store_witness :
  let w := world_of failing_after_one (Some (store_table [])) in
  let posts := posts_of RefLib.lib 41818945 mixed_block (all_operations mixed_block) in
  List.length (all_operations mixed_block) = 5%nat
  /\ List.length posts = 3%nat
  /\ (exists e w0,
         processBlock RefLib.lib default_processor mixed_block w = Returned (1, Some e) w0)
  /\ exists count err w' (k : nat),
      processBlock RefLib.lib default_processor mixed_block w = Returned (count, err) w'
      /\ (k <= List.length posts)%nat
      /\ count = wrap64 (Z.of_nat k)
      /\ (err = None <-> k = List.length posts)
      /\ (forall e, err = Some e ->
            exists le,
              e = Errorf "error inserting post: %v"
                    [ArgError (Some (retry_exhausted (MaxRetries DefaultConfig) le))])
      /\ (exists new,
            executed w' = executed w ++ new
            /\ incl (firstn k posts) new
            /\ incl new (firstn (S k) posts)
            /\ incl new posts)
      /\ (forall t, db w = Some t ->
            db w' = Some (store_all (firstn k posts) t)
            /\ exists added,
                db w' = Some {| columns := columns t; uniques := uniques t;
                                indexes := indexes t; rows := rows t ++ added |}
                /\ incl added posts)
      /\ (db w = None -> db w' = None /\ k = 0%nat)
      /\ requested w' = requested w.
Proof.
  split; [reflexivity|]. split; [reflexivity|].
  split; [eexists; eexists; reflexivity|].
  apply (only_top_level_posts_reach_the_store RefLib.lib default_processor mixed_block
           (world_of failing_after_one (Some (store_table []))) 41818945).
  reflexivity.
Defined.

(** ** The extraction, in every world *)



(** ** Invariants of the batch loop *)

(** A property of the world that the insert, the range request, the sleep
    and the log keep is kept by the batch loop, however it ends. *)
Section WorldInvariant.
Variable P : World -> Prop.
Hypothesis P_exec : forall stmt r w, P w -> P (fst (stmt_Exec stmt r w)).
Hypothesis P_request : forall r w, P w -> P (with_tick (note_request r w)).
Hypothesis P_sleep : forall d w, P w -> P (sleep_world d w).
Hypothesis P_log : forall l w, P w -> P (log_world l w).
Variable lib : GoLib.
Variable processor : BlockProcessor.

Lemma insert_rows_keeps (rs : list Row) :
  forall c w, P w -> P (fst (insert_rows processor rs c w)).
Proof.
  induction rs as [|r rest IH]; intros c w Hw; simpl; [exact Hw|].
  assert (Hr : P (fst (retryWithBackoff (MaxRetries (bp_config processor))
                         (RetryDelay (bp_config processor))
                         (stmt_Exec (bp_stmt processor) r) w))).
  { unfold retryWithBackoff. apply (retry_loop_preserves P); auto. }
  destruct (retryWithBackoff _ _ (stmt_Exec (bp_stmt processor) r) w) as [w1 [e|]];
    simpl in *; [exact Hr|].
  apply IH, Hr.
Qed.

Lemma processBlock_keeps (block : Block) (w : World) :
  P w -> P (outcome_world (processBlock lib processor block w)).
Proof.
  intros Hw. unfold processBlock.
  destruct (slice_to_8 (BlockNum block)) as [hex|]; [|exact Hw].
  destruct (Strconv.ParseInt hex 16 32) as [h [e|]]; [exact Hw|].
  rewrite process_txs_insert_rows.
  pose proof (insert_rows_keeps
                (posts_of lib h block (flat_map Operations (Transactions block))) 0 w Hw)
    as Hk.
  destruct (insert_rows processor _ 0 w) as [w1 r]. exact Hk.
Qed.

Lemma process_blocks_keeps (blocks : list Block) :
  forall lp bi tp w,
    P w -> P (outcome_world (process_blocks lib processor blocks lp bi tp w)).
Proof.
  induction blocks as [|block rest IH]; intros lp bi tp w Hw; simpl; [exact Hw|].
  destruct (String.eqb (BlockNum block) "0"); [apply IH, Hw|].
  pose proof (processBlock_keeps block w Hw) as Hb.
  destruct (processBlock lib processor block w) as [[n [e|]] w1|msg w1]; simpl in Hb.
  - apply IH, P_log, Hb.
  - destruct (slice_to_8 (BlockNum block)) as [hex|]; [|exact Hb].
    destruct (Strconv.ParseInt hex 16 32) as [h e]. apply IH, Hb.
  - exact Hb.
Qed.

Lemma main_iter_keeps (config : Config) (currentBlock : Z) (st : LoopState) (w : World) :
  P w -> P (outcome_world (main_iter lib config processor currentBlock st w)).
Proof.
  intros Hw. unfold main_iter.
  destruct (batch_range config currentBlock (lastProcessed st)) as [s c].
  assert (Hf : P (fst (fst (retryWithBackoff (MaxRetries config) (RetryDelay config)
                              (fetch_operation config s c) (w, []))))).
  { unfold retryWithBackoff.
    apply (retry_loop_preserves (fun x : World * list Block => P (fst x))).
    - intros [w0 b0] H0. unfold fetch_operation, getBlockRange. simpl fst in *.
      destruct (api_range (env w0) (tick w0) s c); simpl; apply P_request, H0.
    - intros d0 x Hx. simpl. apply P_sleep, Hx.
    - intros l x Hx. simpl. apply P_log, Hx.
    - exact Hw. }
  destruct (retryWithBackoff _ _ (fetch_operation config s c) (w, []))
    as [[w1 blocks] [e|]]; simpl in Hf.
  - simpl. apply P_log, Hf.
  - pose proof (process_blocks_keeps blocks (lastProcessed st) 0 (totalProcessed st)
                  w1 Hf) as Hb.
    destruct (process_blocks lib processor blocks (lastProcessed st) 0
                (totalProcessed st) w1) as [[[lp bi] tp] w2|msg w2]; simpl in *.
    + apply P_log, Hb.
    + exact Hb.
Qed.

Lemma main_loop_keeps (config : Config) (currentBlock : Z) (fuel : nat) :
  forall st w,
    P w -> P (run_world (main_loop lib fuel config processor currentBlock st w)).
Proof.
  induction fuel as [|fuel IH]; intros st w Hw; simpl.
  - destruct (variance st >? 0); simpl; [exact Hw|apply P_log, Hw].
  - destruct (variance st >? 0); simpl; [|apply P_log, Hw].
    pose proof (main_iter_keeps config currentBlock st w Hw) as Hi.
    destruct (main_iter lib config processor currentBlock st w) as [st1 w1|msg w1];
      simpl in *.
    + apply IH, Hi.
    + exact Hi.
Qed.

End WorldInvariant.

Lemma has_url_false (u : string) (rs : list Row) :
  has_url u rs = false -> ~ In u (map url rs).
Proof.
  induction rs as [|r rs IH]; simpl; intros Hf; [tauto|].
  apply orb_false_elim in Hf as [Hr Hrs].
  intros [Heq|Hin].
  - rewrite Heq, String.eqb_refl in Hr. discriminate.
  - exact (IH Hrs Hin).
Qed.

Lemma insert_or_ignore_extends (t0 : Table) (r : Row) (t : Table) :
  extends_table t0 t -> extends_table t0 (insert_or_ignore r t).
Proof.
  intros (Hc & Hu & Hi & [added Hr] & Hnd). unfold insert_or_ignore.
  destruct (has_url (url r) (rows t)) eqn:Hhas.
  - repeat split; try assumption. exists added. exact Hr.
  - repeat split; simpl; try assumption.
    + exists (added ++ [r]). rewrite Hr, app_assoc. reflexivity.
    + rewrite map_app. simpl.
      apply NoDup_app.
      * exact Hnd.
      * constructor; [intros []|constructor].
      * intros u Hin [<-|[]]. exact (has_url_false _ _ Hhas Hin).
Qed.

(** X12. Whatever the API answers and whenever the database fails, and
    however the batch loop ends or goes on, a table whose keys are
    pairwise distinct stays one: it keeps its schema, every row it had
    stays where it was, rows are added at the end only, and no key occurs
    twice. *)
Theorem store_only_grows (lib : GoLib) (config : Config) (processor : BlockProcessor)
        (currentBlock : Z) (fuel : nat) (st : LoopState) (w : World) (t : Table) :
  db w = Some t ->
  NoDup (map url (rows t)) ->
  exists t',
    db (run_world (main_loop lib fuel config processor currentBlock st w)) = Some t'
    /\ columns t' = columns t
    /\ uniques t' = uniques t
    /\ indexes t' = indexes t
    /\ (exists added, rows t' = rows t ++ added)
    /\ NoDup (map url (rows t')).
Proof.
  intros Hdb Hnd.
  apply (main_loop_keeps (fun w0 => exists t', db w0 = Some t' /\ extends_table t t')).
  - intros stmt r w0 [t' [Hdb' Hext]]. unfold stmt_Exec.
    destruct (sql_fault (env w0) (tick w0)); simpl.
    + exists t'. auto.
    + rewrite Hdb'. simpl. exists (insert_or_ignore r t'). split; [reflexivity|].
      apply insert_or_ignore_extends, Hext.
  - intros r w0 H0. exact H0.
  - intros d w0 H0. exact H0.
  - intros l w0 H0. exact H0.
  - exists t. split; [exact Hdb|]. repeat split; try assumption.
    exists []. rewrite app_nil_r. reflexivity.
Qed.

Lemma store_only_grows_witness :
  let w := world_of erratic_env (Some (store_table [post_row])) in
  let st := initial_state DefaultConfig 41818945 41818944 in
  NoDup (map url [post_row])
  /\ exists t',
      db (run_world (main_loop RefLib.lib 4 DefaultConfig default_processor
                               41818945 st w)) = Some t'
      /\ columns t' = columns (store_table [post_row])
      /\ uniques t' = uniques (store_table [post_row])
      /\ indexes t' = indexes (store_table [post_row])
      /\ (exists added, rows t' = rows (store_table [post_row]) ++ added)
      /\ NoDup (map url (rows t')).
Proof.
  assert (Hnd : NoDup (map url [post_row])).
  { constructor; [intros []|constructor]. }
  split; [exact Hnd|].
  apply (store_only_grows RefLib.lib DefaultConfig default_processor 41818945 4
           (initial_state DefaultConfig 41818945 41818944)
           (world_of erratic_env (Some (store_table [post_row])))
           (store_table [post_row])).
  - reflexivity.
  - exact Hnd.
Defined.

(** ** Heights in block identifiers *)

Lemma string_length_append (s r : string) :
  String.length (s ++ r)%string = (String.length s + String.length r)%nat.
Proof. induction s as [|c s IH]; simpl; [reflexivity|]. rewrite IH. reflexivity. Qed.

Lemma substring_prefix (s r : string) :
  substring 0 (String.length s) (s ++ r)%string = s.
Proof.
  induction s as [|c s IH]; simpl.
  - destruct r; reflexivity.
  - rewrite IH. reflexivity.
Qed.

Lemma hex_of_length (n : nat) : forall h, String.length (hex_of n h) = n.
Proof.
  induction n as [|n IH]; intros h; simpl; [reflexivity|].
  rewrite string_length_append, IH. simpl. lia.
Qed.

Lemma slice_to_8_hex (h : Z) (rest : string) :
  slice_to_8 (hex_of 8 h ++ rest)%string = Some (hex_of 8 h).
Proof.
  unfold slice_to_8.
  rewrite string_length_append, hex_of_length.
  replace (8 + String.length rest <? 8)%nat with false
    by (symmetry; apply Nat.ltb_ge; lia).
  f_equal. rewrite <- (hex_of_length 8 h) at 1. apply substring_prefix.
Qed.

Lemma hex_digit_cases (d : Z) (P : Z -> Prop) :
  0 <= d < 16 ->
  P 0 -> P 1 -> P 2 -> P 3 -> P 4 -> P 5 -> P 6 -> P 7 ->
  P 8 -> P 9 -> P 10 -> P 11 -> P 12 -> P 13 -> P 14 -> P 15 -> P d.
Proof.
  intros Hd. intros.
  assert (Hc : d = 0 \/ d = 1 \/ d = 2 \/ d = 3 \/ d = 4 \/ d = 5 \/ d = 6 \/ d = 7
               \/ d = 8 \/ d = 9 \/ d = 10 \/ d = 11 \/ d = 12 \/ d = 13 \/ d = 14
               \/ d = 15) by lia.
  repeat (destruct Hc as [->|Hc]; [assumption|]). subst. assumption.
Qed.

Lemma digit_of_hex_digit (d : Z) :
  0 <= d < 16 -> Strconv.digit_of 16 (RefLib.hex_digit d) = Some d.
Proof. intros Hd. apply (hex_digit_cases d); [exact Hd|reflexivity..]. Qed.

Lemma hex_digit_no_sign (d : Z) :
  0 <= d < 16 ->
  Ascii.eqb (RefLib.hex_digit d) "+"%char = false
  /\ Ascii.eqb (RefLib.hex_digit d) "-"%char = false.
Proof. intros Hd. apply (hex_digit_cases d); [exact Hd|split; reflexivity..]. Qed.

Lemma hex_of_head (k : nat) :
  forall h, exists d r, 0 <= d < 16 /\ hex_of (S k) h = String (RefLib.hex_digit d) r.
Proof.
  induction k as [|k IH]; intros h.
  - exists (h mod 16), "". split; [apply Z.mod_pos_bound; lia|reflexivity].
  - destruct (IH (h / 16)) as [d [r [Hd Heq]]].
    exists d, (r ++ String (RefLib.hex_digit (h mod 16)) "")%string.
    split; [exact Hd|].
    change (hex_of (S (S k)) h)
      with (hex_of (S k) (h / 16) ++ String (RefLib.hex_digit (h mod 16)) "")%string.
    rewrite Heq. reflexivity.
Qed.

Lemma parse_digits_append (base maxVal : Z) (s r : string) :
  forall n,
    Strconv.parse_digits base maxVal (s ++ r)%string n
    = match Strconv.parse_digits base maxVal s n with
      | Strconv.UOk m => Strconv.parse_digits base maxVal r m
      | other => other
      end.
Proof.
  induction s as [|c s IH]; intros n; simpl; [reflexivity|].
  destruct (Strconv.digit_of base c) as [d|]; [|reflexivity].
  destruct (maxVal <? n * base + d); [reflexivity|]. apply IH.
Qed.

Lemma parse_digits_hex (maxVal : Z) (k : nat) :
  forall h n,
    0 <= h < 16 ^ Z.of_nat k ->
    0 <= n ->
    n * 16 ^ Z.of_nat k + h <= maxVal ->
    Strconv.parse_digits 16 maxVal (hex_of k h) n = Strconv.UOk (n * 16 ^ Z.of_nat k + h).
Proof.
  induction k as [|k IH]; intros h n Hh Hn Hmax.
  - simpl in *. f_equal. lia.
  - rewrite Nat2Z.inj_succ, Z.pow_succ_r in * by lia.
    assert (Hq : 0 <= h / 16 < 16 ^ Z.of_nat k).
    { split; [apply Z.div_pos; lia|apply Z.div_lt_upper_bound; lia]. }
    assert (Hr : 0 <= h mod 16 < 16) by (apply Z.mod_pos_bound; lia).
    assert (Hdm : h = 16 * (h / 16) + h mod 16) by (apply Z.div_mod; lia).
    simpl hex_of. rewrite parse_digits_append, IH by (try assumption; nia).
    simpl Strconv.parse_digits. rewrite digit_of_hex_digit by exact Hr.
    replace (maxVal <? (n * 16 ^ Z.of_nat k + h / 16) * 16 + h mod 16) with false
      by (symmetry; apply Z.ltb_ge; nia).
    f_equal. nia.
Qed.

Lemma ParseInt_hex8 (h : Z) :
  0 <= h < 2 ^ 32 ->
  Strconv.ParseInt (hex_of 8 h) 16 32
  = if h <? 2 ^ 31 then (h, None)
    else (2 ^ 31 - 1, Some (NumError "ParseInt" (hex_of 8 h) ErrRange)).
Proof.
  intros Hh.
  pose proof (parse_digits_hex (2 ^ 32 - 1) 8 h 0 ltac:(simpl; lia) ltac:(lia)
                ltac:(simpl; lia)) as Hp.
  rewrite Z.mul_0_l, Z.add_0_l in Hp.
  destruct (hex_of_head 7 h) as [d [r [Hd Heq]]].
  destruct (hex_digit_no_sign d Hd) as [Hplus Hminus].
  unfold Strconv.ParseInt. rewrite Heq in *.
  rewrite Hplus, Hminus. simpl orb. cbv iota.
  unfold Strconv.ParseUint. rewrite Hp.
  change (2 ^ (32 - 1)) with 2147483648. change (2 ^ 31) with 2147483648.
  simpl negb. simpl andb.
  destruct (h <? 2147483648) eqn:Hlt.
  - apply Z.ltb_lt in Hlt.
    replace (2147483648 <=? h) with false by (symmetry; apply Z.leb_gt; lia).
    reflexivity.
  - apply Z.ltb_ge in Hlt.
    replace (2147483648 <=? h) with true by (symmetry; apply Z.leb_le; lia).
    reflexivity.
Qed.

(** The height written at the head of an identifier is the height read
    from it. *)
Lemma block_height_hex (block : Block) (h : Z) (rest : string) :
  BlockNum block = (hex_of 8 h ++ rest)%string ->
  0 <= h < 2 ^ 31 ->
  block_height block = Some h.
Proof.
  intros Hid Hh. unfold block_height.
  rewrite Hid, slice_to_8_hex, ParseInt_hex8 by lia.
  replace (h <? 2 ^ 31) with true by (symmetry; apply Z.ltb_lt; lia).
  reflexivity.
Qed.

(** X13. For a block whose identifier starts with the eight hexadecimal
    digits of [h]: below 2^31 the height read from the identifier is [h],
    whatever follows the eight digits; from 2^31 on, [processBlock]
    refuses the block with a range error, count 0 and an untouched
    world. *)
Theorem height_is_read_from_eight_hex_digits (lib : GoLib) (bp : BlockProcessor)
        (block : Block) (w : World) (h : Z) (rest : string) :
  BlockNum block = (hex_of 8 h ++ rest)%string ->
  0 <= h < 2 ^ 32 ->
  (h < 2 ^ 31 -> block_height block = Some h)
  /\ (2 ^ 31 <= h ->
      processBlock lib bp block w
      = Returned (0, Some (Errorf "error converting block number from hex: %v"
                             [ArgError (Some (NumError "ParseInt" (hex_of 8 h)
                                                       ErrRange))])) w).
Proof.
  intros Hid Hh. split.
  - intros Hlt. apply (block_height_hex block h rest Hid). lia.
  - intros Hge. unfold processBlock.
    rewrite Hid, slice_to_8_hex, ParseInt_hex8 by exact Hh.
    replace (h <? 2 ^ 31) with false by (symmetry; apply Z.ltb_ge; lia).
    reflexivity.
Qed.

Lemma height_is_read_from_eight_hex_digits_witness :
  hex_of 8 41818945 = "027e1b41"
  /\ hex_of 8 2147483648 = "80000000"
  /\ block_height post_block = Some 41818945
  /\ processBlock RefLib.lib default_processor (block_with_id "80000000aaaaaaaa")
                  fresh_world
     = Returned (0, Some (Errorf "error converting block number from hex: %v"
                            [ArgError (Some (NumError "ParseInt" (hex_of 8 2147483648)
                                                      ErrRange))])) fresh_world.
Proof.
  split; [reflexivity|]. split; [reflexivity|]. split.
  - apply (proj1 (height_is_read_from_eight_hex_digits RefLib.lib default_processor
                    post_block fresh_world 41818945 "aaaaaaaa" eq_refl
                    ltac:(lia))).
    lia.
  - apply (proj2 (height_is_read_from_eight_hex_digits RefLib.lib default_processor
                    (block_with_id "80000000aaaaaaaa") fresh_world 2147483648
                    "aaaaaaaa" eq_refl ltac:(lia))).
    lia.
Defined.

(** ** The height the store resumes from *)

Lemma max_block_num_app (xs ys : list Row) :
  max_block_num (xs ++ ys)
  = match max_block_num xs, max_block_num ys with
    | None, m => m
    | Some a, None => Some a
    | Some a, Some b => Some (Z.max a b)
    end.
Proof.
  induction xs as [|x xs IH]; simpl.
  - destruct (max_block_num ys); reflexivity.
  - rewrite IH.
    destruct (max_block_num xs) as [a|], (max_block_num ys) as [b|];
      try reflexivity.
    f_equal. lia.
Qed.

Lemma max_block_num_const (h : Z) (rs : list Row) :
  Forall (fun r => block_num r = h) rs ->
  rs <> [] ->
  max_block_num rs = Some h.
Proof.
  induction rs as [|r rs IH]; intros Hall Hne; [contradiction|].
  inversion Hall as [|? ? Hr Hrs]; subst. simpl.
  destruct rs as [|r' rs'].
  - reflexivity.
  - rewrite IH by (try assumption; discriminate). f_equal. lia.
Qed.

(** The rows a sequence of inserts adds to a table. *)
Lemma store_all_rows (rs : list Row) :
  forall t,
    columns (store_all rs t) = columns t
    /\ exists added,
        rows (store_all rs t) = rows t ++ added
        /\ incl added rs
        /\ (forallb (fun r => has_url (url r) (rows t)) rs = true -> added = [])
        /\ (forallb (fun r => has_url (url r) (rows t)) rs = false -> added <> []).
Proof.
  induction rs as [|r rest IH]; intros t; simpl.
  - split; [reflexivity|]. exists []. rewrite app_nil_r.
    repeat split; try discriminate. intros x [].
  - destruct (IH (insert_or_ignore r t)) as [Hcols [added (Hrows & Hincl & Hnil & Hne)]].
    unfold store_all in *. simpl fold_left.
    unfold insert_or_ignore in *.
    destruct (has_url (url r) (rows t)) eqn:Hhas; simpl in *.
    + split; [exact Hcols|]. exists added.
      repeat split; try assumption.
      intros x Hx. right. apply Hincl, Hx.
    + split; [exact Hcols|]. exists (r :: added).
      rewrite Hrows, <- app_assoc. repeat split; try discriminate.
      intros x [<-|Hx]; [left; reflexivity|right; apply Hincl, Hx].
Qed.

Lemma posts_of_block_num (lib : GoLib) (h : Z) (block : Block) (ops : list Operation) :
  Forall (fun r => block_num r = h) (posts_of lib h block ops).
Proof.
  unfold posts_of. apply Forall_forall. intros r Hr.
  apply in_map_iff in Hr as [op [<- _]]. reflexivity.
Qed.

(** X14. After a block has been processed by a database that does not
    fail, the height the store would resume from is the one it had
    before when the block brought no new key (no top-level post, or
    posts that are stored already), and the larger of that stored maximum
    and the block's height when it brought one (the block's height on an
    empty table): the resume height follows the stored posts, not the
    processed blocks. *)
Theorem resume_height_follows_stored_posts (lib : GoLib) (bp : BlockProcessor)
        (block : Block) (w : World) (t : Table) (h g : Z) :
  block_height block = Some h ->
  no_sql_fault (env w) ->
  db w = Some t ->
  has_column t "block_num" = true ->
  1 <= MaxRetries (bp_config bp) ->
  let posts := posts_of lib h block (all_operations block) in
  let known := forallb (fun r => has_url (url r) (rows t)) posts in
  exists n w1,
    processBlock lib bp block w = Returned (n, None) w1
    /\ snd (getLastProcessedBlock g w1)
       = (if known then stored_height g t
          else match max_block_num (rows t) with
               | None => h
               | Some m => Z.max m h
               end,
          None).
Proof.
  intros Hh Hsql Hdb Hcol Hn posts known.
  destruct (processBlock_no_fault lib bp block w t h Hh Hsql Hdb Hn)
    as [w1 (Hrun & Henv & Hdb1 & _)].
  cbv zeta in Hrun, Hdb1. fold posts in Hrun, Hdb1.
  exists (wrap64 (Z.of_nat (List.length posts))), w1. split; [exact Hrun|].
  destruct (store_all_rows posts t) as [Hcols [added (Hrows & Hincl & Hnil & Hne)]].
  unfold getLastProcessedBlock. rewrite Henv, Hsql. simpl db. rewrite Hdb1.
  replace (has_column (store_all posts t) "block_num") with true
    by (unfold has_column in *; rewrite Hcols; symmetry; exact Hcol).
  simpl negb. cbv iota. rewrite Hrows, max_block_num_app.
  fold known in Hnil, Hne. unfold stored_height.
  destruct known.
  - rewrite (Hnil eq_refl). simpl.
    destruct (max_block_num (rows t)); reflexivity.
  - assert (Hadded : max_block_num added = Some h).
    { apply max_block_num_const; [|apply Hne; reflexivity].
      pose proof (posts_of_block_num lib h block (all_operations block)) as Hall.
      fold posts in Hall. rewrite Forall_forall in Hall |- *.
      intros r Hr. apply Hall, Hincl, Hr. }
    rewrite Hadded. destruct (max_block_num (rows t)); reflexivity.
Qed.

Lemma resume_height_follows_stored_posts_witness :
  let w := world_of quiet_env (Some (store_table [])) in
  (exists n w1,
      processBlock RefLib.lib default_processor post_block w = Returned (n, None) w1
      /\ snd (getLastProcessedBlock 41818753 w1) = (41818945, None))
  /\ (exists n w1,
         processBlock RefLib.lib default_processor comment_kind_block w
         = Returned (n, None) w1
         /\ snd (getLastProcessedBlock 41818753 w1) = (41818753, None)).
Proof.
  split.
  - apply (resume_height_follows_stored_posts RefLib.lib default_processor post_block
             (world_of quiet_env (Some (store_table []))) (store_table [])
             41818945 41818753).
    + reflexivity.
    + intros k. reflexivity.
    + reflexivity.
    + reflexivity.
    + simpl. lia.
  - apply (resume_height_follows_stored_posts RefLib.lib default_processor
             comment_kind_block
             (world_of quiet_env (Some (store_table []))) (store_table [])
             41818945 41818753).
    + reflexivity.
    + intros k. reflexivity.
    + reflexivity.
    + reflexivity.
    + simpl. lia.
Defined.

(** ** The batch loop on a chain that is served *)

Lemma wrap64_add_r (a b : Z) : wrap64 (a + wrap64 b) = wrap64 (a + b).
Proof. rewrite Z.add_comm, wrap64_add_l, Z.add_comm. reflexivity. Qed.

Lemma heights_app (a b : nat) :
  forall s, heights s (a + b) = heights s a ++ heights (s + Z.of_nat a) b.
Proof.
  induction a as [|a IH]; intros s.
  - simpl. rewrite Z.add_0_r. reflexivity.
  - simpl heights. rewrite IH. simpl. do 3 f_equal. lia.
Qed.

Lemma heights_length (n : nat) : forall s, List.length (heights s n) = n.
Proof. induction n as [|n IH]; intros s; simpl; [reflexivity|]. rewrite IH. reflexivity. Qed.

Lemma heights_in (n : nat) :
  forall s h, In h (heights s n) -> s <= h < s + Z.of_nat n.
Proof.
  induction n as [|n IH]; intros s h Hin; simpl in Hin; [contradiction|].
  destruct Hin as [<-|Hin]; [lia|]. apply IH in Hin. lia.
Qed.

Lemma last_cons {A : Type} (x : A) (l : list A) (d : A) : last (x :: l) d = last l x.
Proof.
  destruct l as [|y l]; [reflexivity|].
  change (last (x :: y :: l) d) with (last (y :: l) d).
  apply last_nonempty_default.
Qed.

Lemma last_heights (n : nat) :
  forall s d, last (heights s (S n)) d = s + Z.of_nat n.
Proof.
  induction n as [|n IH]; intros s d.
  - simpl. lia.
  - change (heights s (S (S n))) with (s :: heights (s + 1) (S n)).
    rewrite last_cons, IH. lia.
Qed.

Lemma store_all_app (xs ys : list Row) (t : Table) :
  store_all (xs ++ ys) t = store_all ys (store_all xs t).
Proof. unfold store_all. apply fold_left_app. Qed.

Section Chain.
Variable lib : GoLib.
Variable chain : Z -> Block.

(** A batch of well-formed blocks at the heights [hs], with a database
    that does not fail: every block is processed, [lastProcessed] ends at
    the last height, and the posts of all the blocks went through the
    insert in order. *)
Lemma process_blocks_chain (processor : BlockProcessor) (hs : list Z) :
  forall lp bi tp w t,
    (forall h, In h hs -> block_height (chain h) = Some h) ->
    no_sql_fault (env w) ->
    db w = Some t ->
    1 <= MaxRetries (bp_config processor) ->
    in_int64 bi ->
    in_int64 tp ->
    exists w',
      process_blocks lib processor (map chain hs) lp bi tp w
      = Returned (last hs lp,
                  wrap64 (bi + Z.of_nat (List.length (chain_posts lib chain hs))),
                  wrap64 (tp + Z.of_nat (List.length hs))) w'
      /\ env w' = env w
      /\ db w' = Some (store_all (chain_posts lib chain hs) t)
      /\ executed w' = executed w ++ chain_posts lib chain hs
      /\ requested w' = requested w
      /\ slept w' = slept w.
Proof.
  induction hs as [|h rest IH]; intros lp bi tp w t Hwf Hsql Hdb Hn Hbi Htp.
  - exists w. simpl. rewrite !Z.add_0_r, !wrap64_small, app_nil_r by assumption.
    repeat split; assumption.
  - assert (Hh : block_height (chain h) = Some h) by (apply Hwf; left; reflexivity).
    destruct (block_height_inv _ _ Hh) as [hex [Hs Hp]].
    destruct (insert_rows_accepted processor
                (posts_of lib h (chain h) (all_operations (chain h))) 0 w t Hn
                ltac:(intros k _; apply Hsql) Hdb
                ltac:(unfold in_int64, min_int64, max_int64; lia))
      as [w1 (Hrun & Henv & _ & Hdb1 & Hex & Hsl & Hreq & _)].
    assert (Hblock : processBlock lib processor (chain h) w
                     = Returned (wrap64 (Z.of_nat (List.length
                                   (posts_of lib h (chain h) (all_operations (chain h))))),
                                 None) w1).
    { rewrite (processBlock_insert_rows lib processor (chain h) w h Hh), Hrun.
      reflexivity. }
    destruct (IH h (add bi (wrap64 (Z.of_nat (List.length
                         (posts_of lib h (chain h) (all_operations (chain h)))))))
                (add tp 1) w1 _
                ltac:(intros h' Hin; apply Hwf; right; exact Hin)
                ltac:(rewrite Henv; exact Hsql) Hdb1 Hn
                (wrap64_range _) (wrap64_range _))
      as [w' (Hrun' & Henv' & Hdb' & Hex' & Hreq' & Hsl')].
    exists w'. simpl map. simpl process_blocks.
    rewrite (block_height_not_sentinel _ _ Hh), Hblock, Hs, Hp, Hrun'.
    unfold chain_posts. simpl flat_map. fold (chain_posts lib chain rest).
    split; [|split; [|split; [|split; [|split]]]].
    + rewrite last_cons. f_equal. f_equal; [f_equal|].
      * unfold add. rewrite wrap64_add_r, wrap64_add_l, length_app, Nat2Z.inj_add.
        f_equal. lia.
      * unfold add. rewrite wrap64_add_l. f_equal. simpl List.length. lia.
    + congruence.
    + rewrite Hdb', store_all_app. reflexivity.
    + rewrite Hex', Hex, app_assoc. reflexivity.
    + congruence.
    + congruence.
Qed.

Variable config : Config.
Variable processor : BlockProcessor.
Variable currentBlock : Z.
Hypothesis batch_positive : 1 <= BatchSize config.
Hypothesis batch_fits : currentBlock + BatchSize config <= max_int64.
Hypothesis fetch_attempted : 1 <= MaxRetries config.
Hypothesis insert_attempted : 1 <= MaxRetries (bp_config processor).

Lemma batch_range_min (lp : Z) :
  in_int32 lp ->
  lp < currentBlock ->
  in_int32 currentBlock ->
  batch_range config currentBlock lp
  = (lp + 1, Z.min (BatchSize config) (currentBlock - lp)).
Proof.
  intros Hlp Hlt Hcur. unfold batch_range, add, sub.
  unfold in_int32, min_int32, max_int32, max_int64 in *.
  rewrite (wrap64_small (lp + 1))
    by (unfold in_int64, min_int64, max_int64; lia).
  rewrite (wrap64_small (lp + 1 + BatchSize config))
    by (unfold in_int64, min_int64, max_int64; lia).
  rewrite (wrap64_small (currentBlock - (lp + 1)))
    by (unfold in_int64, min_int64, max_int64; lia).
  rewrite (wrap64_small (currentBlock - (lp + 1) + 1))
    by (unfold in_int64, min_int64, max_int64; lia).
  destruct (lp + 1 + BatchSize config >? currentBlock) eqn:Hgt; f_equal.
  - rewrite Z.gtb_ltb in Hgt. apply Z.ltb_lt in Hgt. lia.
  - rewrite Z.gtb_ltb in Hgt. apply Z.ltb_ge in Hgt. lia.
Qed.

(** One round on a served chain moves [lastProcessed] forward by the
    size of the batch. *)
Lemma main_iter_chain (st : LoopState) (w : World) (t : Table) :
  serves chain (env w) ->
  no_sql_fault (env w) ->
  db w = Some t ->
  in_int32 (lastProcessed st) ->
  lastProcessed st < currentBlock ->
  (forall h, lastProcessed st < h <= currentBlock -> block_height (chain h) = Some h) ->
  in_int64 (totalProcessed st) ->
  in_int64 (totalInserts st) ->
  let lp := lastProcessed st in
  let c := Z.min (BatchSize config) (currentBlock - lp) in
  let hs := heights (lp + 1) (Z.to_nat c) in
  exists w',
    main_iter lib config processor currentBlock st w
    = Returned {| lastProcessed := lp + c;
                  variance := currentBlock - (lp + c);
                  totalProcessed := wrap64 (totalProcessed st + c);
                  totalInserts :=
                    wrap64 (totalInserts st
                            + Z.of_nat (List.length (chain_posts lib chain hs))) |} w'
    /\ env w' = env w
    /\ db w' = Some (store_all (chain_posts lib chain hs) t)
    /\ executed w' = executed w ++ chain_posts lib chain hs
    /\ requested w' = requested w ++ [(lp + 1, c)]
    /\ slept w' = slept w.
Proof.
  intros Hserves Hsql Hdb Hlp Hlt Hwf Htp Hti lp c hs.
  assert (Hcur : in_int32 currentBlock).
  { apply (block_height_range (chain currentBlock)). apply Hwf. lia. }
  assert (Hc : 1 <= c <= currentBlock - lp) by (unfold c; fold lp in Hlt; lia).
  unfold main_iter. rewrite (batch_range_min _ Hlp Hlt Hcur). fold lp. fold c.
  rewrite (fetch_first_answer config (lp + 1) c _ _ w [] _ fetch_attempted
             (Hserves (tick w) (lp + 1) c)).
  fold hs.
  destruct (process_blocks_chain processor hs lp 0 (totalProcessed st)
              (with_tick (note_request (lp + 1, c) w)) t)
    as [w2 (Hrun & Henv & Hdb2 & Hex & Hreq & Hsl)].
  - intros h Hin. apply Hwf. unfold hs in Hin. apply heights_in in Hin. lia.
  - exact Hsql.
  - exact Hdb.
  - exact insert_attempted.
  - unfold in_int64, min_int64, max_int64; lia.
  - exact Htp.
  - rewrite Hrun.
    assert (Hlast : last hs lp = lp + c).
    { unfold hs. destruct (Z.to_nat c) as [|k] eqn:Hk; [lia|].
      rewrite last_heights. lia. }
    assert (Hlen : Z.of_nat (List.length hs) = c).
    { unfold hs. rewrite heights_length. lia. }
    rewrite Hlast, Hlen, Z.add_0_l.
    eexists. split.
    + f_equal. f_equal.
      * unfold sub. apply wrap64_small.
        unfold in_int32, min_int32, max_int32, in_int64, min_int64, max_int64 in *.
        lia.
      * unfold add. apply wrap64_add_r.
    + simpl. repeat split; try assumption.
Qed.

(** At the chain head the loop returns at once. *)
Lemma main_loop_at_head (fuel : nat) (st : LoopState) (w : World) :
  variance st <= 0 ->
  main_loop lib fuel config processor currentBlock st w
  = Finished st (log_world (LogComplete (totalProcessed st) (totalInserts st)) w).
Proof.
  intros Hv.
  assert (Hv0 : (variance st >? 0) = false)
    by (rewrite Z.gtb_ltb; apply Z.ltb_ge; lia).
  destruct fuel; simpl main_loop; rewrite Hv0; reflexivity.
Qed.

(** The batch loop on a served chain ends at the chain head. *)
Lemma main_loop_chain (fuel : nat) :
  forall (st : LoopState) (w : World) (t : Table),
    serves chain (env w) ->
    no_sql_fault (env w) ->
    db w = Some t ->
    in_int32 (lastProcessed st) ->
    lastProcessed st <= currentBlock ->
    variance st = currentBlock - lastProcessed st ->
    (forall h, lastProcessed st < h <= currentBlock -> block_height (chain h) = Some h) ->
    in_int64 (totalProcessed st) ->
    in_int64 (totalInserts st) ->
    (Z.to_nat (currentBlock - lastProcessed st) <= fuel)%nat ->
    let hs := heights (lastProcessed st + 1)
                      (Z.to_nat (currentBlock - lastProcessed st)) in
    exists st' w' new,
      main_loop lib fuel config processor currentBlock st w = Finished st' w'
      /\ lastProcessed st' = currentBlock
      /\ variance st' = 0
      /\ totalProcessed st' = wrap64 (totalProcessed st + (currentBlock - lastProcessed st))
      /\ totalInserts st'
         = wrap64 (totalInserts st + Z.of_nat (List.length (chain_posts lib chain hs)))
      /\ db w' = Some (store_all (chain_posts lib chain hs) t)
      /\ executed w' = executed w ++ chain_posts lib chain hs
      /\ slept w' = slept w
      /\ requested w' = requested w ++ new
      /\ requested_heights new = hs
      /\ Forall (fun r => 1 <= snd r <= BatchSize config) new.
Proof.
  assert (at_head : forall (fuel0 : nat) (st : LoopState) (w : World) (t : Table),
             db w = Some t ->
             variance st = currentBlock - lastProcessed st ->
             in_int64 (totalProcessed st) ->
             in_int64 (totalInserts st) ->
             lastProcessed st = currentBlock ->
             let hs := heights (lastProcessed st + 1)
                               (Z.to_nat (currentBlock - lastProcessed st)) in
             exists st' w' new,
               main_loop lib fuel0 config processor currentBlock st w = Finished st' w'
               /\ lastProcessed st' = currentBlock
               /\ variance st' = 0
               /\ totalProcessed st'
                  = wrap64 (totalProcessed st + (currentBlock - lastProcessed st))
               /\ totalInserts st'
                  = wrap64 (totalInserts st
                            + Z.of_nat (List.length (chain_posts lib chain hs)))
               /\ db w' = Some (store_all (chain_posts lib chain hs) t)
               /\ executed w' = executed w ++ chain_posts lib chain hs
               /\ slept w' = slept w
               /\ requested w' = requested w ++ new
               /\ requested_heights new = hs
               /\ Forall (fun r => 1 <= snd r <= BatchSize config) new).
  { intros fuel0 st w t Hdb Hvar Htp Hti Heq hs.
    exists st, (log_world (LogComplete (totalProcessed st) (totalInserts st)) w), [].
    unfold hs. replace (Z.to_nat (currentBlock - lastProcessed st)) with 0%nat by lia.
    replace (currentBlock - lastProcessed st) with 0 in * by lia.
    split; [apply main_loop_at_head; lia|].
    split; [exact Heq|]. split; [exact Hvar|].
    split; [rewrite Z.add_0_r, wrap64_small by exact Htp; reflexivity|].
    split; [simpl; rewrite Z.add_0_r, wrap64_small by exact Hti; reflexivity|].
    split; [exact Hdb|].
    split; [simpl; rewrite app_nil_r; reflexivity|].
    split; [reflexivity|].
    split; [simpl; rewrite app_nil_r; reflexivity|].
    split; [reflexivity|constructor]. }
  induction fuel as [|fuel IH];
    intros st w t Hserves Hsql Hdb Hlp Hle Hvar Hwf Htp Hti Hfuel hs.
  - apply (at_head 0%nat st w t); first [assumption|lia].
  - destruct (Z.eq_dec (lastProcessed st) currentBlock) as [Heq|Hneq].
    + apply (at_head (S fuel) st w t); first [assumption|lia].
    + assert (Hlt : lastProcessed st < currentBlock) by lia.
      set (lp := lastProcessed st) in *.
      set (c := Z.min (BatchSize config) (currentBlock - lp)).
      assert (Hc : 1 <= c <= currentBlock - lp) by (unfold c; lia).
      destruct (main_iter_chain st w t Hserves Hsql Hdb Hlp Hlt Hwf Htp Hti)
        as [w1 (Hiter & Henv1 & Hdb1 & Hex1 & Hreq1 & Hsl1)].
      fold lp in Hiter, Hdb1, Hex1, Hreq1. fold c in Hiter, Hdb1, Hex1, Hreq1.
      set (hs1 := heights (lp + 1) (Z.to_nat c)) in *.
      set (st1 := {| lastProcessed := lp + c;
                     variance := currentBlock - (lp + c);
                     totalProcessed := wrap64 (totalProcessed st + c);
                     totalInserts :=
                       wrap64 (totalInserts st
                               + Z.of_nat (List.length (chain_posts lib chain hs1))) |})
        in *.
      assert (Hcur : in_int32 currentBlock).
      { apply (block_height_range (chain currentBlock)). apply Hwf. lia. }
      destruct (IH st1 w1 (store_all (chain_posts lib chain hs1) t))
        as [st' [w' [new (Hloop & Hlast & Hv & Htp' & Hti' & Hdb' & Hex' & Hsl'
                          & Hreq' & Hcover & Hsizes)]]].
      * rewrite Henv1. exact Hserves.
      * rewrite Henv1. exact Hsql.
      * exact Hdb1.
      * simpl. unfold in_int32, min_int32, max_int32 in *. lia.
      * simpl. lia.
      * reflexivity.
      * simpl. intros h Hh. apply Hwf. lia.
      * apply wrap64_range.
      * apply wrap64_range.
      * simpl. lia.
      * simpl lastProcessed in *. simpl totalProcessed in *. simpl totalInserts in *.
        set (hs2 := heights (lp + c + 1) (Z.to_nat (currentBlock - (lp + c)))) in *.
        assert (Hhs : hs = hs1 ++ hs2).
        { unfold hs, hs1, hs2.
          replace (Z.to_nat (currentBlock - lp))
            with (Z.to_nat c + Z.to_nat (currentBlock - (lp + c)))%nat by lia.
          rewrite heights_app. do 2 f_equal. lia. }
        exists st', w', ((lp + 1, c) :: new).
        simpl main_loop.
        replace (variance st >? 0) with true
          by (symmetry; rewrite Z.gtb_ltb; apply Z.ltb_lt; lia).
        rewrite Hiter, Hloop.
        assert (Hposts : chain_posts lib chain hs
                         = chain_posts lib chain hs1 ++ chain_posts lib chain hs2).
        { rewrite Hhs. unfold chain_posts. apply flat_map_app. }
        split; [reflexivity|]. split; [exact Hlast|]. split; [exact Hv|].
        split; [|split; [|split; [|split; [|split; [|split; [|split]]]]]].
        -- rewrite Htp', wrap64_add_l. f_equal. lia.
        -- rewrite Hti', wrap64_add_l, Hposts, length_app, Nat2Z.inj_add.
           f_equal. lia.
        -- rewrite Hdb', Hposts, store_all_app. reflexivity.
        -- rewrite Hex', Hex1, Hposts, app_assoc. reflexivity.
        -- congruence.
        -- rewrite Hreq', Hreq1, <- app_assoc. reflexivity.
        -- unfold requested_heights in *. simpl flat_map. rewrite Hcover, Hhs.
           reflexivity.
        -- constructor; [simpl; lia|exact Hsizes].
Qed.

End Chain.

(** X15. On a store that has the columns of the insert statement, with a
    database that does not fail and an API that serves a chain whose
    blocks above the resume height carry their heights, [main] ends, after
    at most as many rounds as there are blocks to fetch: it returns with
    [lastProcessed] at the chain head, has counted every block between the
    resume height and the head once, has asked for each of these heights
    exactly once, in order, in requests of at most [BatchSize] blocks, has
    not slept, and the table is the one it found with the top-level posts
    of these blocks inserted in the order of the chain. *)
Theorem ingestion_reaches_the_head (lib : GoLib) (config : Config) (fuel : nat)
        (w : World) (t : Table) (head : Z) (chain : Z -> Block) :
  db w = Some t ->
  accepts_insert t = true ->
  no_sql_fault (env w) ->
  api_head (env w) (tick w + 4)%nat = inr head ->
  serves chain (env w) ->
  1 <= MaxRetries config ->
  1 <= BatchSize config ->
  head + BatchSize config <= max_int64 ->
  let lp := lastProcessed (initial_state config head
                             (stored_height (GenesisBlock config) t)) in
  in_int32 lp ->
  lp <= head ->
  (forall h, lp < h <= head -> block_height (chain h) = Some h) ->
  (Z.to_nat (head - lp) <= fuel)%nat ->
  let hs := heights (lp + 1) (Z.to_nat (head - lp)) in
  let posts := chain_posts lib chain hs in
  exists st' w' new,
    run lib config fuel w = Finished st' w'
    /\ lastProcessed st' = head
    /\ variance st' = 0
    /\ totalProcessed st' = head - lp
    /\ totalInserts st' = wrap64 (Z.of_nat (List.length posts))
    /\ db w' = Some (store_all posts (with_schema_indexes t))
    /\ executed w' = executed w ++ posts
    /\ slept w' = slept w
    /\ requested w' = requested w ++ new
    /\ requested_heights new = hs
    /\ Forall (fun r => 1 <= snd r <= BatchSize config) new.
Proof.
  intros Hdb Hacc Hsql Hhead Hserves Hn Hb Hfits lp Hlp Hle Hwf Hfuel hs posts.
  rewrite (run_enters_loop lib config fuel w t head Hdb Hacc Hsql Hhead Hn).
  set (st := initial_state config head (stored_height (GenesisBlock config) t)) in *.
  assert (Hhd : in_int32 head).
  { destruct (Z.eq_dec lp head) as [Heq|Hne]; [rewrite <- Heq; exact Hlp|].
    apply (block_height_range (chain head)). apply Hwf. lia. }
  assert (Hvar : variance st = head - lastProcessed st).
  { unfold st, initial_state. simpl. unfold sub. apply wrap64_small.
    unfold lp, st, initial_state in Hlp, Hle. simpl in Hlp, Hle.
    unfold in_int32, min_int32, max_int32, in_int64, min_int64, max_int64 in *. lia. }
  destruct (main_loop_chain lib chain config (processor_of config) head
              Hb Hfits Hn Hn fuel st
              (log_world (LogStart head (lastProcessed st) (variance st))
                 (with_tick (with_tick (with_tick
                    (with_db (Some (with_schema_indexes t))
                       (with_tick (with_tick (with_tick w))))))))
              (with_schema_indexes t))
    as [st' [w' [new (Hloop & Hlast & Hv & Htp & Hti & Hdb' & Hex & Hsl & Hreq
                      & Hcover & Hsizes)]]];
    try assumption; try reflexivity.
  - unfold in_int64, min_int64, max_int64. simpl. lia.
  - unfold in_int64, min_int64, max_int64. simpl. lia.
  - exists st', w', new. fold lp in Htp, Hti, Hdb', Hex, Hcover. fold hs in Hti, Hdb', Hex, Hcover.
    fold posts in Hti, Hdb', Hex.
    split; [exact Hloop|]. split; [exact Hlast|]. split; [exact Hv|].
    split; [|split; [|split; [|split; [|split; [|split; [|split]]]]]];
      try assumption.
    rewrite Htp. change (totalProcessed st) with 0. rewrite Z.add_0_l.
    apply wrap64_small.
    unfold in_int32, min_int32, max_int32, in_int64, min_int64, max_int64 in *. lia.
Qed.

Lemma ingestion_reaches_the_head_witness :
  let w := world_of (demo_env 105) (Some (store_table [])) in
  let posts := chain_posts RefLib.lib demo_chain (heights 101 5) in
  map author posts = ["00000065"; "00000066"; "00000067"; "00000068"; "00000069"]
  /\ requested (run_world (run RefLib.lib demo_config 5 w))
     = [(101, 2); (103, 2); (105, 1)]
  /\ exists st' w' new,
      run RefLib.lib demo_config 5 w = Finished st' w'
      /\ lastProcessed st' = 105
      /\ variance st' = 0
      /\ totalProcessed st' = 105 - 100
      /\ totalInserts st' = wrap64 (Z.of_nat (List.length posts))
      /\ db w' = Some (store_all posts (store_table []))
      /\ executed w' = executed w ++ posts
      /\ slept w' = slept w
      /\ requested w' = requested w ++ new
      /\ requested_heights new = heights 101 5
      /\ Forall (fun r => 1 <= snd r <= BatchSize demo_config) new.
Proof.
  split; [vm_compute; reflexivity|]. split; [vm_compute; reflexivity|].
  apply (ingestion_reaches_the_head RefLib.lib demo_config 5
           (world_of (demo_env 105) (Some (store_table []))) (store_table [])
           105 demo_chain).
  - reflexivity.
  - reflexivity.
  - intros k. reflexivity.
  - reflexivity.
  - intros k s c. reflexivity.
  - vm_compute. discriminate.
  - vm_compute. discriminate.
  - vm_compute. discriminate.
  - split; vm_compute; discriminate.
  - vm_compute. discriminate.
  - intros h Hh. change (100 < h <= 105) in Hh.
    apply (block_height_hex (demo_chain h) h "aaaaaaaa" eq_refl). lia.
  - change (Z.to_nat 5 <= 5)%nat. change (Z.to_nat 5) with 5%nat. lia.
Defined.

(** ** Failures that pass *)

(** An insert that is refused [k] times, with attempts left, and then
    accepted. *)
Lemma exec_recovers (stmt : Stmt) (r : Row) (n d : Z) (w : World) (t : Table)
      (k : nat) (e : nat -> error) :
  Z.of_nat k < n ->
  db w = Some t ->
  (forall j, (tick w <= j < tick w + k)%nat -> sql_fault (env w) j = Some (e j)) ->
  sql_fault (env w) (tick w + k)%nat = None ->
  exists w',
    retryWithBackoff n d (stmt_Exec stmt r) w = (w', None)
    /\ env w' = env w
    /\ tick w' = (tick w + k + 1)%nat
    /\ db w' = Some (insert_or_ignore r t)
    /\ executed w' = executed w ++ repeat r k ++ [r]
    /\ slept w' = slept w ++ backoff_delays d k
    /\ requested w' = requested w.
Proof.
  intros Hk Hdb Hfault Hok.
  set (Inv := fun (i : nat) (le : option error) (s : World) =>
         env s = env w /\ tick s = (tick w + i)%nat /\ db s = db w
         /\ executed s = executed w ++ repeat r i
         /\ slept s = slept w ++ backoff_delays d i
         /\ requested s = requested w).
  destruct (retry_loop_after_failures (stmt_Exec stmt r) n d k Inv)
    with (rest := (Z.to_nat n - k)%nat) (fuel := k) (k := 0%nat)
         (lastErr := @None error) (s := w)
    as [wk [le [Hrun Hinv]]].
  - intros i le s Hi (Henv & Htick & Hdbs & Hex & Hsl & Hreq).
    exists (with_tick (note_exec r s)), (e (tick s)). split.
    + unfold stmt_Exec. rewrite Henv, Hfault by lia. reflexivity.
    + unfold Inv. simpl.
      rewrite backoff_delays_S, Hsl, Hex, <- !app_assoc, Htick, <- repeat_cons.
      repeat split; try assumption; try lia.
  - lia.
  - unfold Inv. simpl. rewrite !app_nil_r. repeat split; try lia.
  - destruct Hinv as (Henv & Htick & Hdbs & Hex & Hsl & Hreq).
    unfold retryWithBackoff.
    replace (Z.to_nat n) with (k + (Z.to_nat n - k))%nat by lia.
    change 0 with (Z.of_nat 0). rewrite Hrun.
    destruct (Z.to_nat n - k)%nat as [|m] eqn:Hm; [lia|].
    simpl retry_loop. unfold stmt_Exec at 1.
    rewrite Henv, Htick, Hok. simpl db. rewrite Hdbs, Hdb.
    eexists. split; [reflexivity|]. simpl.
    rewrite Hex, Hsl, Htick, <- app_assoc.
    repeat split; try assumption; lia.
Qed.

(** X16. A database that comes back is not noticed in the result: when
    the first [k] calls of the processing of a block are refused, with
    [k] below [MaxRetries], and the calls after them are accepted, the
    block is processed without error, the count is the number of its
    top-level posts and the table is the one a database without failure
    would have given; the first post was handed to the store [k] more
    times and the processing slept [k] times. *)
Theorem passing_failure_is_absorbed (lib : GoLib) (bp : BlockProcessor)
        (block : Block) (w : World) (t : Table) (h : Z)
        (r : Row) (rest : list Row) (k : nat) (e : nat -> error) :
  block_height block = Some h ->
  posts_of lib h block (all_operations block) = r :: rest ->
  db w = Some t ->
  Z.of_nat k < MaxRetries (bp_config bp) ->
  (forall j, (tick w <= j < tick w + k)%nat -> sql_fault (env w) j = Some (e j)) ->
  (forall j, (tick w + k <= j)%nat -> sql_fault (env w) j = None) ->
  exists w',
    processBlock lib bp block w
    = Returned (wrap64 (Z.of_nat (List.length (r :: rest))), None) w'
    /\ db w' = Some (store_all (r :: rest) t)
    /\ executed w' = executed w ++ repeat r k ++ r :: rest
    /\ slept w' = slept w ++ backoff_delays (RetryDelay (bp_config bp)) k.
Proof.
  intros Hh Hposts Hdb Hk Hfault Hok.
  destruct (exec_recovers (bp_stmt bp) r (MaxRetries (bp_config bp))
              (RetryDelay (bp_config bp)) w t k e Hk Hdb Hfault
              (Hok (tick w + k)%nat ltac:(lia)))
    as [w1 (Hrun1 & Henv1 & Htick1 & Hdb1 & Hex1 & Hsl1 & Hreq1)].
  destruct (insert_rows_accepted bp rest (add 0 1) w1 (insert_or_ignore r t))
    as [w' (Hrun2 & Henv2 & Htick2 & Hdb2 & Hex2 & Hsl2 & Hreq2 & Hlg2)].
  - lia.
  - intros j Hj. rewrite Henv1. apply Hok. lia.
  - exact Hdb1.
  - apply wrap64_range.
  - exists w'.
    rewrite (processBlock_insert_rows lib bp block w h Hh), Hposts.
    simpl insert_rows. rewrite Hrun1, Hrun2.
    split; [|split; [|split]].
    + f_equal. f_equal. unfold add. rewrite wrap64_add_l. f_equal.
      simpl List.length. lia.
    + exact Hdb2.
    + rewrite Hex2, Hex1, <- !app_assoc. reflexivity.
    + rewrite Hsl2, Hsl1. reflexivity.
Qed.

Lemma passing_failure_is_absorbed_witness :
  let w := world_of recovering_env (Some (store_table [])) in
  let first := row_of RefLib.lib 41818945 mixed_block post_value in
  let second := row_of RefLib.lib 41818945 mixed_block second_value in
  let third := row_of RefLib.lib 41818945 mixed_block third_value in
  exists w',
    processBlock RefLib.lib default_processor mixed_block w
    = Returned (wrap64 (Z.of_nat (List.length [first; second; third])), None) w'
    /\ db w' = Some (store_all [first; second; third] (store_table []))
    /\ executed w' = executed w ++ repeat first 2 ++ [first; second; third]
    /\ slept w' = slept w ++ backoff_delays (mul Second 2) 2.
Proof.
  apply (passing_failure_is_absorbed RefLib.lib default_processor mixed_block
           (world_of recovering_env (Some (store_table []))) (store_table [])
           41818945
           (row_of RefLib.lib 41818945 mixed_block post_value)
           [row_of RefLib.lib 41818945 mixed_block second_value;
            row_of RefLib.lib 41818945 mixed_block third_value]
           2 (fun _ => locked)).
  - reflexivity.
  - reflexivity.
  - reflexivity.
  - vm_compute. reflexivity.
  - intros j Hj. change (0 <= j < 2)%nat in Hj. simpl.
    destruct (j <? 2)%nat eqn:Hlt; [reflexivity|apply Nat.ltb_ge in Hlt; lia].
  - intros j Hj. change (2 <= j)%nat in Hj. simpl.
    destruct (j <? 2)%nat eqn:Hlt; [apply Nat.ltb_lt in Hlt; lia|reflexivity].
Defined.

(** ** Looking a post up *)

Lemma lookup_url_app (u : string) (xs ys : list Row) :
  lookup_url u (xs ++ ys)
  = match lookup_url u xs with
    | Some r => Some r
    | None => lookup_url u ys
    end.
Proof.
  unfold lookup_url. induction xs as [|x xs IH]; simpl; [reflexivity|].
  destruct (String.eqb (url x) u); [reflexivity|exact IH].
Qed.

Lemma lookup_url_has (u : string) (rs : list Row) :
  has_url u rs = match lookup_url u rs with Some _ => true | None => false end.
Proof.
  unfold has_url, lookup_url. induction rs as [|r rs IH]; simpl; [reflexivity|].
  destruct (String.eqb (url r) u); [reflexivity|exact IH].
Qed.

Lemma lookup_url_store_all (u : string) (rs : list Row) :
  forall t,
    lookup_url u (rows (store_all rs t))
    = match lookup_url u (rows t) with
      | Some r => Some r
      | None => lookup_url u rs
      end.
Proof.
  induction rs as [|r rest IH]; intros t.
  - simpl. destruct (lookup_url u (rows t)); reflexivity.
  - change (store_all (r :: rest) t) with (store_all rest (insert_or_ignore r t)).
    rewrite IH. unfold insert_or_ignore.
    destruct (has_url (url r) (rows t)) eqn:Hhas.
    + destruct (lookup_url u (rows t)) as [x|] eqn:Hl; [reflexivity|].
      unfold lookup_url at 2. simpl.
      destruct (String.eqb (url r) u) eqn:Heq; [|reflexivity].
      apply String.eqb_eq in Heq. subst u.
      rewrite lookup_url_has, Hl in Hhas. discriminate.
    + simpl rows. rewrite lookup_url_app.
      destruct (lookup_url u (rows t)) as [x|]; [reflexivity|].
      unfold lookup_url. simpl.
      destruct (String.eqb (url r) u); reflexivity.
Qed.

(** X17. With a database that does not fail, after a block has been
    processed the row found under a key is the row that was there before,
    if there was one, and otherwise the first top-level post of the block
    with that key: a later post with the same author and permlink, an
    edit for instance, changes nothing. *)
Theorem first_version_of_a_post_is_kept (lib : GoLib) (bp : BlockProcessor)
        (block : Block) (w : World) (t : Table) (h : Z) :
  block_height block = Some h ->
  no_sql_fault (env w) ->
  db w = Some t ->
  1 <= MaxRetries (bp_config bp) ->
  exists n w' t',
    processBlock lib bp block w = Returned (n, None) w'
    /\ db w' = Some t'
    /\ forall u,
        lookup_url u (rows t')
        = match lookup_url u (rows t) with
          | Some r => Some r
          | None => lookup_url u (posts_of lib h block (all_operations block))
          end.
Proof.
  intros Hh Hsql Hdb Hn.
  destruct (processBlock_no_fault lib bp block w t h Hh Hsql Hdb Hn)
    as [w' (Hrun & _ & Hdb' & _)].
  cbv zeta in Hrun, Hdb'.
  eexists. exists w'. eexists. split; [exact Hrun|]. split; [exact Hdb'|].
  intros u. apply lookup_url_store_all.
Qed.

Lemma first_version_of_a_post_is_kept_witness :
  let w := world_of quiet_env (Some (store_table [])) in
  exists n w' t',
    processBlock RefLib.lib default_processor edited_block w = Returned (n, None) w'
    /\ db w' = Some t'
    /\ option_map title (lookup_url "@alice/hello-world" (rows t')) = Some "Hello".
Proof.
  destruct (first_version_of_a_post_is_kept RefLib.lib default_processor edited_block
              (world_of quiet_env (Some (store_table []))) (store_table []) 41818945)
    as [n [w' [t' (Hrun & Hdb & Hlook)]]].
  - reflexivity.
  - intros k. reflexivity.
  - reflexivity.
  - vm_compute. discriminate.
  - exists n, w', t'. split; [exact Hrun|]. split; [exact Hdb|].
    rewrite Hlook. reflexivity.
Defined.

(** ** Progress under the contract of the API *)

(** X18. With an API that keeps the contract of the range request, and
    whatever the database does, [lastProcessed] never goes back in the
    batch loop and stays a 32-bit height: when the loop has returned, and
    whenever it is observed going on, [lastProcessed] is at least what it
    was. *)
Theorem lastProcessed_never_goes_back (lib : GoLib) (config : Config)
        (processor : BlockProcessor) (currentBlock : Z) (fuel : nat) :
  forall (st : LoopState) (w : World),
    honest_api (env w) ->
    in_int32 (lastProcessed st) ->
    match main_loop lib fuel config processor currentBlock st w with
    | Finished st' _ | Looping st' _ =>
        lastProcessed st <= lastProcessed st' /\ in_int32 (lastProcessed st')
    | Crashed _ _ | Fatal _ _ _ => True
    end.
Proof.
  induction fuel as [|fuel IH]; intros st w Hapi Hlp; simpl.
  - destruct (variance st >? 0); split; try assumption; lia.
  - destruct (variance st >? 0); [|split; [lia|assumption]].
    destruct (main_iter lib config processor currentBlock st w) as [st1 w1|msg w1]
      eqn:Hiter; [|exact I].
    destruct (main_iter_progress lib config processor currentBlock st st1 w w1
                Hapi Hlp Hiter) as (Hle & Hlp1 & Henv).
    specialize (IH st1 w1 ltac:(rewrite Henv; exact Hapi) Hlp1).
    destruct (main_loop lib fuel config processor currentBlock st1 w1);
      try exact I; destruct IH as [Hle' Hr]; split; try assumption; lia.
Qed.

Lemma lastProcessed_never_goes_back_witness :
  let st := initial_state DefaultConfig 41818945 41818943 in
  let w := world_of flaky_env (Some (store_table [])) in
  ascending_from 41818944 [earlier_post_block; post_block] = true
  /\ match main_loop RefLib.lib 2 DefaultConfig default_processor 41818945 st w with
     | Finished st' _ | Looping st' _ =>
         lastProcessed st <= lastProcessed st' /\ in_int32 (lastProcessed st')
     | Crashed _ _ | Fatal _ _ _ => True
     end.
Proof.
  split; [reflexivity|].
  apply (lastProcessed_never_goes_back RefLib.lib DefaultConfig default_processor
           41818945 2 (initial_state DefaultConfig 41818945 41818943)
           (world_of flaky_env (Some (store_table [])))).
  - intros k s c bs Hbs. simpl in Hbs. injection Hbs as <-.
    destruct (s =? 41818944) eqn:Hs; [|reflexivity].
    apply Z.eqb_eq in Hs. subst s. reflexivity.
  - split; vm_compute; discriminate.
Defined.

(** ** Tables the insert statement does not fit *)


(** *** The index statements of the schema *)













